(** * Shallow embedding of the handwriting-to-font pipeline (backend/pipeline)

    Modelling conventions.
    - Python [int] is [Z]; Python [float] arithmetic is modelled by exact
      rationals [Q] (the constants 0.12, 0.4, 0.8 by their decimal values).
    - Python's [round] on a number is round-half-to-even, [py_round].
    - A numpy 2-D uint8 array is a [list (list Z)] of rows; a read outside
      the array yields 0 (background), which is how every function below only
      ever reads it.
    - The OpenCV primitives the code calls (contour tracing, polygon
      simplification) are external library routines: they are the methods of
      the class [Cv2], and every statement below holds for every instance.
      [cv2.boundingRect] on a point set is computed ([bounding_rect]).
    - Characters are ASCII characters; [str.lower], [str.upper],
      [str.islower] and [str.isalpha] are their ASCII behaviour. *)

From Stdlib Require Import Ascii String.
From Stdlib Require Import ZArith QArith Qround Qabs Qpower List Lia Lqa Bool Arith Permutation Sorted.
Import ListNotations.

Open Scope Z_scope.

(** ** Python helpers *)

(** [round(q)]: round half to even. *)
Definition py_round (q : Q) : Z :=
  let f := Qfloor q in
  match Qcompare (q - inject_Z f) (1 # 2) with
  | Lt => f
  | Gt => f + 1
  | Eq => if Z.even f then f else f + 1
  end.

(** [2 ^ e] for an integer exponent. *)
Definition pow2 (e : Z) : Q := Qpower (2 # 1) e.

(** [floor(log2 q)] for a positive [q]. *)
Definition log2_floor (q : Q) : Z :=
  let k := Z.log2 (Qnum q) - Z.log2 (Zpos (Qden q)) in
  if Qle_bool (pow2 k) q then k else k - 1.

(** The exponent of the last mantissa digit of a double of magnitude [q]:
    53 significant bits, down to the subnormal limit [2 ^ -1074]. *)
Definition fl_exp (q : Q) : Z := Z.max (log2_floor q - 52) (-1074).

(** A Python float operation: the exact result rounded to the nearest
    IEEE 754 double, ties to even (a double is [m * 2 ^ e] with
    [|m| < 2 ^ 53] and [e >= -1074]).  [int / int] is correctly rounded the
    same way, and a float literal such as [0.12] is [fl (12 # 100)].
    Overflow past [2 ^ 1024] is left out: the values rounded here are pixel
    coordinates (32-bit integers in OpenCV) times a scale of at most 1000. *)
Definition fl (q : Q) : Q :=
  let a := Qabs q in
  if Qeq_bool a 0 then 0 else
  let m := (inject_Z (py_round (a / pow2 (fl_exp a))) * pow2 (fl_exp a))%Q in
  if Qle_bool 0 q then m else (- m)%Q.

(** The float comparison [a < b]. *)
Definition Qltb (a b : Q) : bool :=
  match Qcompare a b with Lt => true | _ => false end.

Definition point := (Z * Z)%type.
Definition contour := list point.
Definition mask := list (list Z).

(** [cv2.boundingRect] of a point set: (x, y, w, h) with inclusive extents. *)
Definition bounding_rect (pts : list point) : Z * Z * Z * Z :=
  match pts with
  | [] => (0, 0, 0, 0)
  | (x0, y0) :: rest =>
      let '(xmin, xmax, ymin, ymax) :=
        fold_left (fun acc p =>
                     let '(a, b, c, d) := acc in
                     let '(x, y) := p in
                     (Z.min a x, Z.max b x, Z.min c y, Z.max d y))
                  rest (x0, x0, y0, y0) in
      (xmin, ymin, xmax - xmin + 1, ymax - ymin + 1)
  end.

(** One entry [hierarchy[0][i]] = [next, previous, first_child, parent]. *)
Definition hier_entry := (Z * Z * Z * Z)%type.

Definition hier_parent (h : hier_entry) : Z :=
  let '(_, _, _, p) := h in p.

(** A BGR colour image, [img[r][c] = (b, g, r)]. *)
Definition image := list (list (Z * Z * Z)).

(** The OpenCV routines the pipeline calls. *)
Class Cv2 := {
  (** [cv2.cvtColor(img, COLOR_BGR2GRAY)] *)
  cvtColor_gray : image -> mask;
  (** [cv2.GaussianBlur(gray, (5, 5), 0)] *)
  gaussianBlur_5 : mask -> mask;
  (** [cv2.adaptiveThreshold(b, 255, ADAPTIVE_THRESH_GAUSSIAN_C,
      THRESH_BINARY_INV, 21, 10)] *)
  adaptiveThreshold_inv : mask -> mask;
  (** [cv2.morphologyEx(b, MORPH_CLOSE, 3x3 rectangle, iterations=1)] *)
  morphClose_3 : mask -> mask;
  (** [cv2.connectedComponentsWithStats(b, connectivity=8)]: the number of
      labels and the label array (the area statistics are recomputed from
      the labels, [label_area]). *)
  connectedComponents8 : mask -> nat * list (list nat);
  (** [cv2.findContours(b, RETR_CCOMP, CHAIN_APPROX_TC89_L1)]: the contours
      and, when there is at least one, [Some hierarchy[0]]. *)
  findContours_ccomp : mask -> list contour * option (list hier_entry);
  (** [cv2.findContours(b, RETR_EXTERNAL, CHAIN_APPROX_SIMPLE)[0]] *)
  findContours_external : mask -> list contour;
  (** [cv2.approxPolyDP(contour, epsilon, closed)] *)
  approxPolyDP : contour -> Q -> bool -> contour
}.

(** ** vectorize.py *)
Module Vectorize.

Definition UNITS_PER_EM : Z := 1000.
Definition ASCENDER : Z := 800.
Definition DESCENDER : Z := -200.

Record path := mkPath { points : list point; is_hole : bool }.

Record glyph_data := mkGlyph {
  paths : list path;
  advance_width : Z;
  lsb : Z
}.

(** [polygon_area]: the accumulated sum of the loop (an integer, since the
    points are integers) ... *)
Definition polygon_area_sum (pts : list point) : Z :=
  let n := length pts in
  fold_left (fun area i =>
               let j := Nat.modulo (i + 1) n in
               let '(xi, yi) := nth i pts (0, 0) in
               let '(xj, yj) := nth j pts (0, 0) in
               area + xi * yj - xj * yi)
            (seq 0 n) 0.

(** ... and [area / 2.0]. *)
Definition polygon_area (pts : list point) : Q :=
  inject_Z (polygon_area_sum pts) / 2.

(** The body of the loop of [contours_to_font_paths] for contour [i];
    [None] is a [continue]. *)
Definition contour_to_path `{Cv2} (hierarchy : list hier_entry)
    (bx by' : Z) (scale : Q) (target_height : Z) (i : nat) (c : contour)
    : option path :=
  if Nat.ltb (length c) 3 then None else
  let approx := approxPolyDP c (1 # 2) true in
  if Nat.ltb (length approx) 3 then None else
  let h := nth i hierarchy (-1, -1, -1, -1) in
  let hole := negb (Z.eqb (hier_parent h) (-1)) in
  let transformed :=
    map (fun p : point =>
           let '(px, py) := p in
           let fx := fl (inject_Z (px - bx) * scale) in
           let fy := fl (fl (inject_Z target_height - fl (inject_Z (py - by') * scale))
                         + inject_Z DESCENDER) in
           (py_round fx, py_round fy))
        approx in
  let area := polygon_area transformed in
  let transformed :=
    if (negb hole && Qltb 0 area) || (hole && Qltb area 0)
    then rev transformed else transformed in
  Some (mkPath transformed hole).

Fixpoint contours_loop `{Cv2} (hierarchy : list hier_entry) (bx by' : Z)
    (scale : Q) (target_height : Z) (i : nat) (cs : list contour)
    : list path :=
  match cs with
  | [] => []
  | c :: cs' =>
      match contour_to_path hierarchy bx by' scale target_height i c with
      | Some p => p :: contours_loop hierarchy bx by' scale target_height (S i) cs'
      | None => contours_loop hierarchy bx by' scale target_height (S i) cs'
      end
  end.

Definition contours_to_font_paths `{Cv2} (contours : list contour)
    (hierarchy : option (list hier_entry)) (target_height : Z) : list path :=
  match contours, hierarchy with
  | [], _ => []
  | _, None => []
  | _, Some hier =>
      let '(bx, by', bw, bh) := bounding_rect (concat contours) in
      if (bw =? 0) || (bh =? 0) then [] else
      let scale := fl (inject_Z target_height / inject_Z (Z.max bh 1)) in
      contours_loop hier bx by' scale target_height 0 contours
  end.

Definition shift_path (bearing : Z) (p : path) : path :=
  mkPath (map (fun q : point => let '(x, y) := q in (x + bearing, y)) (points p))
         (is_hole p).

Definition process_glyph_bitmap `{Cv2} (binary : mask) : glyph_data :=
  let '(contours, hierarchy) := findContours_ccomp binary in
  match contours, hierarchy with
  | [], _ | _, None =>
      mkGlyph [] (py_round (fl (inject_Z UNITS_PER_EM * (1 # 2)))) 0
  | _, Some _ =>
      let paths := contours_to_font_paths contours hierarchy
                     (ASCENDER - DESCENDER) in
      let '(_, _, bw, bh) := bounding_rect (concat contours) in
      let scale := fl (inject_Z (ASCENDER - DESCENDER) / inject_Z (Z.max bh 1)) in
      let raw_width := py_round (fl (inject_Z bw * scale)) in
      let bearing := py_round (fl (inject_Z raw_width * fl (12 # 100))) in
      let advance_width := raw_width + bearing * 2 in
      mkGlyph (map (shift_path bearing) paths) advance_width bearing
  end.

(** [calculate_advance_width]: the advance width from the bounding box of
    the contours, with a side bearing of 15% on each side. *)
Definition calculate_advance_width (contours : list contour) (bitmap_height : Z)
    (target_height : Z) : Z :=
  match contours with
  | [] => py_round (fl (inject_Z UNITS_PER_EM * (1 # 2)))
  | _ =>
      let '(_, _, bw, bh) := bounding_rect (concat contours) in
      let scale := fl (inject_Z target_height / inject_Z (Z.max bh 1)) in
      let width := py_round (fl (inject_Z bw * scale)) in
      let bearing := py_round (fl (inject_Z width * fl (15 # 100))) in
      width + bearing * 2
  end.

End Vectorize.

(** ** Shared helpers for masks, characters and results *)

(** [binary[r][c]], 0 outside the array. *)
Definition px (m : mask) (r c : nat) : Z := nth c (nth r m []) 0.

(** [a[lo:hi]] for [0 <= lo]. *)
Definition py_slice {A} (l : list A) (lo hi : Z) : list A :=
  firstn (Z.to_nat (hi - lo)) (skipn (Z.to_nat lo) l).

(** [binary[y1:y2, x1:x2]] *)
Definition crop (m : mask) (y1 y2 x1 x2 : Z) : mask :=
  map (fun row => py_slice row x1 x2) (py_slice m y1 y2).

(** Stable insertion sort by an integer key ([sorted(..., key=...)]). *)
Fixpoint insert_by {A} (key : A -> Z) (a : A) (l : list A) : list A :=
  match l with
  | [] => [a]
  | b :: l' => if key a <=? key b then a :: l else b :: insert_by key a l'
  end.

Fixpoint sort_by {A} (key : A -> Z) (l : list A) : list A :=
  match l with
  | [] => []
  | a :: l' => insert_by key a (sort_by key l')
  end.

(** Characters are bytes and [ord] is their code point.  The case tests and
    mappings below are Python's [str.islower], [str.isupper], [str.isalpha],
    [str.upper] and [str.lower] on one ASCII character (code point below
    128); the properties that depend on them are stated for ASCII text. *)
Definition ord (c : ascii) : Z := Z.of_nat (nat_of_ascii c).

Definition is_lower (c : ascii) : bool :=
  let n := nat_of_ascii c in Nat.leb 97 n && Nat.leb n 122.
Definition is_upper (c : ascii) : bool :=
  let n := nat_of_ascii c in Nat.leb 65 n && Nat.leb n 90.
Definition is_alpha (c : ascii) : bool := is_lower c || is_upper c.
Definition to_upper (c : ascii) : ascii :=
  if is_lower c then ascii_of_nat (nat_of_ascii c - 32) else c.
Definition to_lower (c : ascii) : ascii :=
  if is_upper c then ascii_of_nat (nat_of_ascii c + 32) else c.

(** The exceptions raised along the pipeline. *)
Inductive error :=
| NoCharactersFound      (* ValueError("No characters found in image") *)
| NoValidRegions         (* ValueError("No valid character regions found") *)
| NoValidGlyphs.         (* ValueError("No valid glyphs could be extracted ...") *)

Inductive result (A : Type) :=
| Ok (a : A)
| Err (e : error).
Arguments Ok {A} a.
Arguments Err {A} e.

(** ** segment.py *)
Module Segment.

(** [(x, y, w, h)] *)
Definition box := (Z * Z * Z * Z)%type.

Definition bx_x (b : box) : Z := let '(x, _, _, _) := b in x.
Definition bx_y (b : box) : Z := let '(_, y, _, _) := b in y.
Definition bx_w (b : box) : Z := let '(_, _, w, _) := b in w.
Definition bx_h (b : box) : Z := let '(_, _, _, h) := b in h.

(** [sorted(values)[len(values) // 2]] *)
Definition median (values : list Z) : Z :=
  nth (Nat.div (length values) 2) (sort_by id values) 0.

(** The inner loop of [merge_close_bboxes]: the candidate parent of the
    small box [i] = (x1, y1, w1, h1); the state is [(best_parent, best_dist)]
    with [None] for [float("inf")]. *)
Definition find_parent (median_h : Z) (used : list nat) (indexed : list (nat * box))
    (i : nat) (b1 : box) : option nat :=
  let '(x1, y1, w1, h1) := b1 in
  fst (fold_left
    (fun (st : option nat * option Z) (jb : nat * box) =>
       let '(best_parent, best_dist) := st in
       let '(j, (x2, y2, w2, h2)) := jb in
       if Nat.eqb j i || existsb (Nat.eqb j) used then st else
       if (y2 >? y1) &&
          Qltb (Qabs ((inject_Z x1 + inject_Z w1 / 2)
                      - (inject_Z x2 + inject_Z w2 / 2))) (inject_Z w2)
       then
         let dist := y2 - (y1 + h1) in
         if Qltb (inject_Z dist) (inject_Z median_h * (8 # 10)) &&
            match best_dist with None => true | Some d => dist <? d end
         then (Some j, Some dist)
         else st
       else st)
    indexed (None, None)).

(** One iteration of the outer loop; the state is [(merged, used)]. *)
Definition merge_step (boxes : list box) (median_h : Z) (indexed : list (nat * box))
    (st : list box * list nat) (ib : nat * box) : list box * list nat :=
  let '(merged, used) := st in
  let '(i, (x1, y1, w1, h1)) := ib in
  if existsb (Nat.eqb i) used then st else
  let is_small := Qltb (inject_Z h1) (inject_Z median_h * (4 # 10)) &&
                  Qltb (inject_Z w1) (inject_Z median_h * (4 # 10)) in
  let parent := if is_small
                then find_parent median_h used indexed i (x1, y1, w1, h1)
                else None in
  match parent with
  | Some best_parent =>
      let '(px', py, pw, ph) := nth best_parent boxes (0, 0, 0, 0) in
      let mx := Z.min x1 px' in
      let my := Z.min y1 py in
      let mx2 := Z.max (x1 + w1) (px' + pw) in
      let my2 := Z.max (y1 + h1) (py + ph) in
      (merged ++ [(mx, my, mx2 - mx, my2 - my)], best_parent :: i :: used)
  | None =>
      if existsb (Nat.eqb i) used then (merged, used)
      else (merged ++ [(x1, y1, w1, h1)], i :: used)
  end.

Definition indexed_by_y (boxes : list box) : list (nat * box) :=
  sort_by (fun t : nat * box => bx_y (snd t)) (combine (seq 0 (length boxes)) boxes).

Definition merge_close_bboxes (boxes : list box) : list box :=
  match boxes with
  | [] => boxes
  | _ =>
      let median_h := median (map bx_h boxes) in
      let indexed := indexed_by_y boxes in
      fst (fold_left (merge_step boxes median_h indexed) indexed ([], []))
  end.

(** The line-grouping loop of [sort_reading_order]; the state is
    [(lines, current_line, current_y)]. *)
Definition group_lines (line_threshold : Q) (first : box) (rest : list box)
    : list (list box) :=
  let '(lines, current_line, _) :=
    fold_left
      (fun (st : list (list box) * list box * Z) (b : box) =>
         let '(lines, current_line, current_y) := st in
         if Qltb (inject_Z (Z.abs (bx_y b - current_y))) line_threshold
         then (lines, current_line ++ [b], current_y)
         else (lines ++ [current_line], [b], bx_y b))
      rest ([], [first], bx_y first) in
  lines ++ [current_line].

Definition sort_reading_order (bboxes : list box) : list box :=
  match bboxes with
  | [] => bboxes
  | _ =>
      let median_h := median (map bx_h bboxes) in
      let line_threshold := (inject_Z median_h * (1 # 2))%Q in
      match sort_by bx_y bboxes with
      | [] => []
      | first :: rest =>
          concat (map (sort_by bx_x) (group_lines line_threshold first rest))
      end
  end.

(** [[c for c in pangram.lower() if c.isalpha()]]: the letters of the
    pangram, lower-cased, in order; on ASCII text [str.lower] acts
    character by character. *)
Definition pangram_chars (pangram : string) : list ascii :=
  filter is_alpha (map to_lower (list_ascii_of_string pangram)).

(** The mapping loop of [segment_characters]; the state is the pair
    [(results, seen_chars)] and [i] the position in the sorted boxes. *)
Fixpoint map_blobs (binary : mask) (chars : list ascii) (i : nat) (bs : list box)
    (results : list (ascii * mask)) (seen : list ascii) : list (ascii * mask) :=
  match bs with
  | [] => results
  | (x, y, w, h) :: bs' =>
      if Nat.leb (length chars) i then results else
      let char := nth i chars " "%char in
      let pad := 4 in
      let y1 := Z.max 0 (y - pad) in
      let y2 := Z.min (Z.of_nat (length binary)) (y + h + pad) in
      let x1 := Z.max 0 (x - pad) in
      let x2 := Z.min (Z.of_nat (length (nth 0 binary []))) (x + w + pad) in
      let cropped := crop binary y1 y2 x1 x2 in
      if existsb (Ascii.eqb char) seen
      then map_blobs binary chars (S i) bs' results seen
      else map_blobs binary chars (S i) bs' (results ++ [(char, cropped)]) (seen ++ [char])
  end.

Definition segment_characters `{Cv2} (binary : mask) (pangram : string)
    : result (list (ascii * mask)) :=
  match findContours_external binary with
  | [] => Err NoCharactersFound
  | contours =>
      let bboxes := filter (fun b : box => (bx_w b >? 5) && (bx_h b >? 5))
                           (map bounding_rect contours) in
      match bboxes with
      | [] => Err NoValidRegions
      | _ =>
          let merged := merge_close_bboxes bboxes in
          let sorted_bboxes := sort_reading_order merged in
          Ok (map_blobs binary (pangram_chars pangram) 0 sorted_bboxes [] [])
      end
  end.

(** [cv2.findNonZero]: the (x, y) points of the non-zero pixels, row by row. *)
Definition find_non_zero (m : mask) : list point :=
  flat_map (fun r =>
     flat_map (fun c => if px m r c =? 0 then [] else [(Z.of_nat c, Z.of_nat r)])
              (seq 0 (length (nth r m []))))
    (seq 0 (length m)).

(** [np.zeros((size, size))] *)
Definition zeros (size : Z) : mask :=
  repeat (repeat 0 (Z.to_nat size)) (Z.to_nat size).

(** [canvas[oy : oy + h, ox : ox + w] = block] where [block] has [h] rows
    of [w] values. *)
Definition assign_block (canvas : mask) (oy ox : Z) (block : mask) : mask :=
  map (fun r =>
         let row := nth r canvas [] in
         map (fun c =>
                let i := Z.of_nat r - oy in
                let j := Z.of_nat c - ox in
                if (0 <=? i) && (i <? Z.of_nat (length block)) &&
                   (0 <=? j) && (j <? Z.of_nat (length (nth (Z.to_nat i) block [])))
                then px block (Z.to_nat i) (Z.to_nat j)
                else nth c row 0)
             (seq 0 (length row)))
      (seq 0 (length canvas)).

Definition extract_single_glyph (binary : mask) : mask :=
  match find_non_zero binary with
  | [] => binary
  | coords =>
      let '(x, y, w, h) := bounding_rect coords in
      let cropped := crop binary y (y + h) x (x + w) in
      let size := Z.max w h + 20 in
      let canvas := zeros size in
      let ox := (size - w) / 2 in
      let oy := (size - h) / 2 in
      assign_block canvas oy ox cropped
  end.

End Segment.

(** ** preprocess.py *)
Module Preprocess.

(** [labels[r][c]], 0 outside the array. *)
Definition lab (labels : list (list nat)) (r c : nat) : nat :=
  nth c (nth r labels []) 0%nat.

(** [stats[i, CC_STAT_AREA]]: the number of pixels labelled [i]. *)
Definition label_area (labels : list (list nat)) (i : nat) : Z :=
  Z.of_nat (length (filter (Nat.eqb i) (concat labels))).

(** [result[labels == i] = 255] *)
Definition set_label (res : mask) (labels : list (list nat)) (i : nat) : mask :=
  map (fun r =>
         map (fun c => if Nat.eqb (lab labels r c) i then 255 else px res r c)
             (seq 0 (length (nth r res []))))
      (seq 0 (length res)).

Definition remove_small_components `{Cv2} (binary : mask) (min_area : Z) : mask :=
  let '(num_labels, labels) := connectedComponents8 binary in
  let result := map (map (fun _ => 0)) binary in
  fold_left (fun res i =>
               if label_area labels i >=? min_area
               then set_label res labels i else res)
            (seq 1 (num_labels - 1)) result.

Definition preprocess `{Cv2} (img : image) : mask :=
  let gray := cvtColor_gray img in
  let blurred := gaussianBlur_5 gray in
  let binary := adaptiveThreshold_inv blurred in
  let cleaned := morphClose_3 binary in
  remove_small_components cleaned 50.

(** Foreground pixels and 8-connectivity, the notions
    [connectedComponentsWithStats] labels by. *)
Definition fg (m : mask) (p : nat * nat) : Prop := px m (fst p) (snd p) <> 0.

Definition adj8 (p q : nat * nat) : Prop :=
  Z.abs (Z.of_nat (fst p) - Z.of_nat (fst q)) <= 1 /\
  Z.abs (Z.of_nat (snd p) - Z.of_nat (snd q)) <= 1.

Inductive reach (m : mask) (p : nat * nat) : nat * nat -> Prop :=
| reach_refl : fg m p -> reach m p p
| reach_step q q' : reach m p q -> adj8 q q' -> fg m q' -> reach m p q'.

(** The contract of [cv2.connectedComponentsWithStats(b, connectivity=8)]:
    background is label 0, every foreground pixel has a label in
    [1 .. num_labels - 1], and two foreground pixels share a label exactly
    when they are 8-connected through foreground pixels. *)
Definition labeling_ok (m : mask) (num_labels : nat) (labels : list (list nat)) : Prop :=
  (forall r c, px m r c = 0 -> lab labels r c = 0%nat) /\
  (forall r c, px m r c <> 0 ->
     (1 <= lab labels r c)%nat /\ (lab labels r c < num_labels)%nat) /\
  (forall p q, fg m p -> fg m q ->
     (lab labels (fst p) (snd p) = lab labels (fst q) (snd q) <-> reach m p q)).

(** The area of the 8-connected component of [p] is at least [n]: there
    are [n] distinct pixels connected to [p]. *)
Definition component_area_ge (m : mask) (p : nat * nat) (n : nat) : Prop :=
  exists l, NoDup l /\ (n <= length l)%nat /\ Forall (reach m p) l.

End Preprocess.

(** ** fontgen.py *)
Module Fontgen.
Import Vectorize.

Definition UNITS_PER_EM : Z := 1000.
Definition ASCENDER : Z := 800.
Definition DESCENDER : Z := -200.

Definition hex_digit (n : Z) : ascii :=
  ascii_of_nat (Z.to_nat (if n <? 10 then 48 + n else 55 + n)).

Fixpoint hex_digits (fuel : nat) (n : Z) : list ascii :=
  match fuel with
  | O => []
  | S f => if n <=? 0 then [] else hex_digits f (n / 16) ++ [hex_digit (n mod 16)]
  end.

(** [f"{n:04X}"] *)
Definition format_04X (n : Z) : string :=
  let ds := hex_digits 32 n in
  string_of_list_ascii (repeat "0"%char (4 - length ds) ++ ds).

(** [f"uni{ord(c):04X}"] *)
Definition glyph_name (c : ascii) : string := "uni" ++ format_04X (ord c).

(** Python dict item assignment [d[k] = v]: in place when [k] is present,
    appended otherwise. *)
Fixpoint dict_set {V} (d : list (Z * V)) (k : Z) (v : V) : list (Z * V) :=
  match d with
  | [] => [(k, v)]
  | (k', v') :: d' => if k' =? k then (k, v) :: d' else (k', v') :: dict_set d' k v
  end.

Fixpoint dict_get {V} (d : list (Z * V)) (k : Z) : option V :=
  match d with
  | [] => None
  | (k', v') :: d' => if k' =? k then Some v' else dict_get d' k
  end.

(** An outline as the [TTGlyphPen] draws it: closed straight-line contours. *)
Definition outline := list (list point).

(** The assembled [FontBuilder] font. *)
Record font := mkFont {
  glyph_order : list string;
  cmap : list (Z * string);
  glyf : list (string * outline);
  hmtx : list (string * (Z * Z));
  family_name : string;
  style_name : string
}.

Inductive flavor := TTF | WOFF2.

(** A serialised font: the container flavour and the font it encodes. *)
Definition font_binary := (flavor * font)%type.

Definition sorted_keys (glyphs : list (ascii * glyph_data)) : list ascii :=
  sort_by ord (map fst glyphs).

Definition build_cmap (glyphs : list (ascii * glyph_data)) : list (Z * string) :=
  fold_left (fun cm (cg : ascii * glyph_data) =>
               let char := fst cg in
               let gname := glyph_name char in
               let cm := dict_set cm (ord char) gname in
               if is_lower char then dict_set cm (ord (to_upper char)) gname else cm)
            glyphs [(ord " "%char, "space"%string)].

Definition notdef_outline : outline :=
  [[(100, 0); (100, 700); (500, 700); (500, 0)];
   [(150, 50); (450, 50); (450, 650); (150, 650)]].

(** [TTGlyphPen.closePath] on a contour drawn with [moveTo] and [lineTo]:
    a last point equal to the first is dropped. *)
Definition close_contour (pts : list point) : list point :=
  match pts with
  | p0 :: _ :: _ =>
      let pl := last pts p0 in
      if (fst pl =? fst p0) && (snd pl =? snd p0) then removelast pts else pts
  | _ => pts
  end.

(** The pen of one user glyph: one closed contour per path of at least
    three points. *)
Definition glyph_outline (g : glyph_data) : outline :=
  map (fun p => close_contour (points p))
      (filter (fun p => Nat.leb 3 (length (points p))) (paths g)).

Definition lookup_glyph (glyphs : list (ascii * glyph_data)) (c : ascii) : glyph_data :=
  match find (fun cg => Ascii.eqb (fst cg) c) glyphs with
  | Some (_, g) => g
  | None => mkGlyph [] 0 0
  end.

Definition create_font (glyphs : list (ascii * glyph_data))
    (family_name style_name : string) : font_binary * font_binary :=
  let keys := sorted_keys glyphs in
  let order := [".notdef"%string; "space"%string] ++ map glyph_name keys in
  let cm := build_cmap glyphs in
  let table := [(".notdef"%string, notdef_outline); ("space"%string, [])] ++
               map (fun c => (glyph_name c, glyph_outline (lookup_glyph glyphs c))) keys in
  let metrics := [(".notdef"%string, (600, 100));
                  ("space"%string, (UNITS_PER_EM / 4, 0))] ++
                 map (fun c => let g := lookup_glyph glyphs c in
                               (glyph_name c, (advance_width g, lsb g))) keys in
  let f := mkFont order cm table metrics family_name style_name in
  ((TTF, f), (WOFF2, f)).

Definition create_font_from_chars `{Cv2} (char_bitmaps : list (ascii * mask))
    : result (font_binary * font_binary) :=
  let glyphs := filter (fun cg : ascii * glyph_data =>
                          match paths (snd cg) with [] => false | _ => true end)
                       (map (fun cb : ascii * mask =>
                               (fst cb, process_glyph_bitmap (snd cb)))
                            char_bitmaps) in
  match glyphs with
  | [] => Err NoValidGlyphs
  | _ => Ok (create_font glyphs "MyHandwriting" "Regular")
  end.

End Fontgen.

(** ** pangrams.py *)
Module Pangrams.

(** [get_unique_chars]: the state is [(seen, chars)]; [c.lower()] is one
    character on ASCII text. *)
Definition get_unique_chars (pangram : string) : list ascii :=
  snd (fold_left
         (fun (st : list ascii * list ascii) (c : ascii) =>
            let '(seen, chars) := st in
            let lower := to_lower c in
            if is_alpha lower && negb (existsb (Ascii.eqb lower) seen)
            then (lower :: seen, chars ++ [lower])
            else st)
         (list_ascii_of_string pangram) ([], [])).

End Pangrams.

(** ** main.py *)
Module Main.
Import Fontgen.

(** The answers of the HTTP handlers: an [HTTPException] with its status
    code, an exception that leaves the handler uncaught, or the JSON body of
    a generated font. *)
Inductive response :=
| HttpError (status : Z)
| Uncaught
| FontResponse (ttf woff2 : font_binary) (chars_found : list ascii) (total_chars : nat).

(** [d[k] = v] on a dict keyed by one-character strings. *)
Fixpoint char_dict_set {V} (d : list (ascii * V)) (k : ascii) (v : V) : list (ascii * V) :=
  match d with
  | [] => [(k, v)]
  | (k', v') :: d' => if Ascii.eqb k' k then (k, v) :: d' else (k', v') :: char_dict_set d' k v
  end.

(** The key test of [process_drawn_glyphs]:
    [key.startswith("char_") and len(key) == 6], then
    [char = key[5:].lower()] with [char.isalpha() and len(char) == 1]. *)
Definition drawn_char_of_key (key : string) : option ascii :=
  if prefix "char_" key && Nat.eqb (String.length key) 6 then
    match String.get 5 key with
    | Some k => let char := to_lower k in if is_alpha char then Some char else None
    | None => None
    end
  else None.

(** [d[k] = v] on a dict keyed by strings. *)
Fixpoint str_dict_set {V} (d : list (string * V)) (k : string) (v : V) : list (string * V) :=
  match d with
  | [] => [(k, v)]
  | (k', v') :: d' => if String.eqb k' k then (k, v) :: d' else (k', v') :: str_dict_set d' k v
  end.

(** Starlette's [FormData] built from the submitted fields [form] (in the
    order of the request): its [_dict] is [{k: v for k, v in items}], so
    [for key in form] visits each field name once, in the order of its first
    occurrence, and [form[key]] is the value of its last occurrence. *)
Definition form_dict (form : list (string * string)) : list (string * string) :=
  fold_left (fun d (kv : string * string) => str_dict_set d (fst kv) (snd kv)) form [].

(** The form loop of [process_drawn_glyphs] over the fields of the form;
    [prep] is [extract_single_glyph(preprocess_single_glyph(data))] on the
    uploaded data of a field, [None] when it raises. *)
Definition drawn_char_bitmaps (prep : string -> option mask) (form : list (string * string))
    : option (list (ascii * mask)) :=
  fold_left (fun (acc : option (list (ascii * mask))) (kv : string * string) =>
               match acc with
               | None => None
               | Some d =>
                   match drawn_char_of_key (fst kv) with
                   | Some char =>
                       match prep (snd kv) with
                       | Some binary => Some (char_dict_set d char binary)
                       | None => None
                       end
                   | None => Some d
                   end
               end)
            (form_dict form) (Some []).

Definition process_drawn_glyphs `{Cv2} (prep : string -> option mask)
    (form : list (string * string)) : response :=
  match drawn_char_bitmaps prep form with
  | None => Uncaught
  | Some [] => HttpError 400
  | Some char_bitmaps =>
      match create_font_from_chars char_bitmaps with
      | Err _ => HttpError 500
      | Ok (ttf, woff2) =>
          FontResponse ttf woff2 (map fst char_bitmaps) (length char_bitmaps)
      end
  end.

(** [process_pangram] after the image has been decoded ([img]) and
    preprocessed; [{char: bitmap for char, bitmap in char_pairs}] is built
    with [char_dict_set]. *)
Definition process_pangram `{Cv2} (img : image) (pangram : string) : response :=
  let binary := Preprocess.preprocess img in
  match Segment.segment_characters binary pangram with
  | Err _ => HttpError 422
  | Ok [] => HttpError 422
  | Ok char_pairs =>
      let char_bitmaps :=
        fold_left (fun d (cb : ascii * mask) => char_dict_set d (fst cb) (snd cb)) char_pairs [] in
      match create_font_from_chars char_bitmaps with
      | Err _ => HttpError 500
      | Ok (ttf, woff2) =>
          FontResponse ttf woff2 (map fst char_bitmaps) (length char_bitmaps)
      end
  end.

End Main.

(** ** Library instances with fixed answers, for concrete runs *)

(** An OpenCV whose contour tracing returns fixed contours, whose labelling
    returns a fixed labelling and whose polygon simplification keeps every
    point. *)
Definition fixed_cv (ccomp : list contour * option (list hier_entry))
    (external : list contour) (labelling : nat * list (list nat)) : Cv2 := {|
  cvtColor_gray := fun _ => [];
  gaussianBlur_5 := fun m => m;
  adaptiveThreshold_inv := fun m => m;
  morphClose_3 := fun m => m;
  connectedComponents8 := fun _ => labelling;
  findContours_ccomp := fun _ => ccomp;
  findContours_external := fun _ => external;
  approxPolyDP := fun c _ _ => c
|}.

(** ** Notions used by the proofs *)

(** The cross product of two points, one term of the shoelace sum. *)
Definition cross (p q : point) : Z := fst p * snd q - fst q * snd p.

(** The shoelace terms of the open chain [p0 -> p1 -> ... -> pn]. *)
Fixpoint chain (l : list point) : Z :=
  match l with
  | a :: ((b :: _) as t) => cross a b + chain t
  | _ => 0
  end.

(** The shoelace sum of the closed polygon: the chain and its closing edge. *)
Definition cyc (l : list point) : Z :=
  chain l + cross (last l (0, 0)) (hd (0, 0) l).

Definition sumZ (l : list Z) : Z := fold_right Z.add 0 l.

(** The winding convention of §4.4 step 6 for one emitted path. *)
Definition winding_ok (p : Vectorize.path) : Prop :=
  (Vectorize.is_hole p = false -> (Vectorize.polygon_area (Vectorize.points p) <= 0)%Q) /\
  (Vectorize.is_hole p = true -> (0 <= Vectorize.polygon_area (Vectorize.points p))%Q).

(** The foreground points of one cell and of one row, as [cv2.findNonZero]
    lists them. *)
Definition cell (m : mask) (r c : nat) : list point :=
  if px m r c =? 0 then [] else [(Z.of_nat c, Z.of_nat r)].
Definition row_points (m : mask) (r : nat) : list point :=
  flat_map (cell m r) (seq 0 (length (nth r m []))).
(** The foreground pixel values of a mask, in row-major order. *)
Definition fg_values (m : mask) : list Z :=
  map (fun p : point => px m (Z.to_nat (snd p)) (Z.to_nat (fst p))) (Segment.find_non_zero m).

(** The notions of the dot-merge pass of [Segment.merge_close_bboxes], as the
    specification words them. *)
Definition box_center (b : Segment.box) : Q := inject_Z (Segment.bx_x b) + inject_Z (Segment.bx_w b) / 2.
Definition gap (b1 b2 : Segment.box) : Z := Segment.bx_y b2 - (Segment.bx_y b1 + Segment.bx_h b1).
Definition small_box (med : Z) (b : Segment.box) : Prop :=
  (inject_Z (Segment.bx_h b) < inject_Z med * (4 # 10))%Q /\
  (inject_Z (Segment.bx_w b) < inject_Z med * (4 # 10))%Q.
Definition qualifies (med : Z) (used : list nat) (i : nat) (b1 : Segment.box) (j : nat) (b2 : Segment.box) : Prop :=
  j <> i /\ ~ In j used /\ Segment.bx_y b1 < Segment.bx_y b2 /\
  (Qabs (box_center b1 - box_center b2) < inject_Z (Segment.bx_w b2))%Q /\
  (inject_Z (gap b1 b2) < inject_Z med * (8 # 10))%Q.
Definition union_box (b1 b2 : Segment.box) : Segment.box :=
  let mx := Z.min (Segment.bx_x b1) (Segment.bx_x b2) in
  let my := Z.min (Segment.bx_y b1) (Segment.bx_y b2) in
  let mx2 := Z.max (Segment.bx_x b1 + Segment.bx_w b1) (Segment.bx_x b2 + Segment.bx_w b2) in
  let my2 := Z.max (Segment.bx_y b1 + Segment.bx_h b1) (Segment.bx_y b2 + Segment.bx_h b2) in
  (mx, my, mx2 - mx, my2 - my).
Definition dot_merge_step_spec (med : Z) (indexed : list (nat * Segment.box))
    (st st' : list Segment.box * list nat) (i : nat) (b1 : Segment.box) : Prop :=
  let '(merged, used) := st in
  (In i used /\ st' = st) \/
  (~ In i used /\ exists j b2,
     In (j, b2) indexed /\ small_box med b1 /\ qualifies med used i b1 j b2 /\
     (forall k bk, In (k, bk) indexed -> qualifies med used i b1 k bk -> gap b1 b2 <= gap b1 bk) /\
     st' = (merged ++ [union_box b1 b2], j :: i :: used)) \/
  (~ In i used /\
   (~ small_box med b1 \/ forall k bk, In (k, bk) indexed -> ~ qualifies med used i b1 k bk) /\
   st' = (merged ++ [b1], i :: used)).

(** The state invariant of the inner loop of [Segment.merge_close_bboxes]. *)
Definition parent_inv (med : Z) (used : list nat) (i : nat) (b1 : Segment.box)
    (seen : list (nat * Segment.box)) (st : option nat * option Z) : Prop :=
  match st with
  | (None, None) => forall k bk, In (k, bk) seen -> ~ qualifies med used i b1 k bk
  | (Some j, Some d) =>
      exists b2, In (j, b2) seen /\ qualifies med used i b1 j b2 /\ gap b1 b2 = d /\
      forall k bk, In (k, bk) seen -> qualifies med used i b1 k bk -> d <= gap b1 bk
  | _ => False
  end.

(** The pixels carrying label [i], row by row. *)
Definition pixels_with_label (labels : list (list nat)) (i : nat) : list (nat * nat) :=
  flat_map (fun r =>
     flat_map (fun c => if Nat.eqb (Preprocess.lab labels r c) i then [(r, c)] else [])
              (seq 0 (length (nth r labels []))))
    (seq 0 (length labels)).

(** Two masks with the same number of rows and the same row lengths. *)
Definition same_shape (a b : mask) : Prop :=
  length a = length b /\ forall r, length (nth r a []) = length (nth r b []).

(** Box [b] lies inside box [B]. *)
Definition box_within (b B : Segment.box) : Prop :=
  Segment.bx_x B <= Segment.bx_x b /\ Segment.bx_y B <= Segment.bx_y b /\
  Segment.bx_x b + Segment.bx_w b <= Segment.bx_x B + Segment.bx_w B /\
  Segment.bx_y b + Segment.bx_h b <= Segment.bx_y B + Segment.bx_h B.

(** The invariant of the outer loop of [merge_close_bboxes] over the boxes
    [done] already visited; the state is [(merged, used)]. *)
Definition merge_inv (boxes : list Segment.box) (done : list (nat * Segment.box))
    (st : list Segment.box * list nat) : Prop :=
  let '(merged, used) := st in
  NoDup used /\ (forall k, In k used -> (k < length boxes)%nat) /\
  (length merged <= length used)%nat /\
  (forall ib, In ib done -> In (fst ib) used) /\
  (forall k, In k used -> exists B, In B merged /\ box_within (nth k boxes (0, 0, 0, 0)) B).

(** The crop of [binary] that [segment_characters] takes for the box [b]:
    a margin of 4 pixels, clipped to the image. *)
Definition blob_crop (binary : mask) (b : Segment.box) : mask :=
  let '(x, y, w, h) := b in
  crop binary (Z.max 0 (y - 4)) (Z.min (Z.of_nat (length binary)) (y + h + 4))
              (Z.max 0 (x - 4)) (Z.min (Z.of_nat (length (nth 0 binary []))) (x + w + 4)).

(** Reading back an upper-case hexadecimal numeral, to invert [format_04X]. *)
Definition hex_val (a : ascii) : Z := if ord a <? 65 then ord a - 48 else ord a - 55.
Fixpoint parse_hex (s : string) (acc : Z) : Z :=
  match s with
  | EmptyString => acc
  | String a s' => parse_hex s' (acc * 16 + hex_val a)
  end.

(** One iteration of the form loop of [process_drawn_glyphs], as folded in
    [drawn_char_bitmaps]. *)
Definition drawn_step (prep : string -> option mask)
    (acc : option (list (ascii * mask))) (kv : string * string) : option (list (ascii * mask)) :=
  match acc with
  | None => None
  | Some d =>
      match Main.drawn_char_of_key (fst kv) with
      | Some char =>
          match prep (snd kv) with
          | Some binary => Some (Main.char_dict_set d char binary)
          | None => None
          end
      | None => Some d
      end
  end.

(** A string of ASCII characters (code points below 128), on which the
    character model above ([is_lower], [is_upper], [is_alpha], [to_lower],
    [to_upper]) agrees with Python's [str.islower], [str.isupper],
    [str.isalpha], [str.lower] and [str.upper]; outside ASCII Python's
    methods follow the Unicode tables (['ı'.upper() == 'I'],
    ['ß'.upper() == 'SS'], ['İ'.lower() == 'i̇']), which the model leaves out. *)
Definition ascii_char (c : ascii) : Prop := (nat_of_ascii c < 128)%nat.
Definition ascii_string (s : string) : Prop := Forall ascii_char (list_ascii_of_string s).

(** The code points a supplied character writes in the cmap loop of
    [create_font]: its own, and its upper-case one when it is lower case. *)
Definition cmap_claims (c : ascii) (k : Z) : bool :=
  (ord c =? k) || (is_lower c && (ord (to_upper c) =? k)).

(** The last character of [keys] that writes code point [k]. *)
Fixpoint cmap_owner (keys : list ascii) (k : Z) : option ascii :=
  match keys with
  | [] => None
  | c :: t =>
      match cmap_owner t k with
      | Some o => Some o
      | None => if cmap_claims c k then Some c else None
      end
  end.

(** * Properties *)

(** ** Rounding and bounding boxes *)

Lemma py_round_nonneg (q : Q) : (0 <= q)%Q -> 0 <= py_round q.
Proof.
  intros Hq. unfold py_round.
  assert (Hf : 0 <= Qfloor q).
  { change 0 with (Qfloor 0). apply Qfloor_resp_le; exact Hq. }
  destruct (Qcompare _ _); [destruct (Z.even _)|..]; lia.
Qed.

Lemma bounding_rect_fold_ordered (rest : list point) (a b c d : Z) :
  a <= b -> c <= d ->
  let '(a', b', c', d') :=
    fold_left (fun acc p =>
                 let '(a, b, c, d) := acc in
                 let '(x, y) := p in
                 (Z.min a x, Z.max b x, Z.min c y, Z.max d y)) rest (a, b, c, d) in
  a' <= b' /\ c' <= d'.
Proof.
  revert a b c d. induction rest as [|[x y] rest IH]; intros a b c d Hab Hcd; simpl.
  - lia.
  - apply IH; lia.
Qed.

Lemma bounding_rect_size_nonneg (pts : list point) :
  let '(_, _, w, h) := bounding_rect pts in 0 <= w /\ 0 <= h.
Proof.
  destruct pts as [|[x0 y0] rest]; simpl; [lia|].
  pose proof (bounding_rect_fold_ordered rest x0 x0 y0 y0 (Z.le_refl _) (Z.le_refl _)) as H.
  destruct (fold_left _ rest _) as [[[a b] c] d]. lia.
Qed.

Lemma py_round_mono (q1 q2 : Q) : (q1 <= q2)%Q -> py_round q1 <= py_round q2.
Proof.
  intros Hq. unfold py_round.
  pose proof (Qfloor_resp_le _ _ Hq) as Hf.
  pose proof (Qfloor_le q1) as L1. pose proof (Qlt_floor q1) as U1.
  pose proof (Qfloor_le q2) as L2. pose proof (Qlt_floor q2) as U2.
  set (f1 := Qfloor q1) in *. set (f2 := Qfloor q2) in *.
  destruct (Z.lt_ge_cases f1 f2) as [Hlt|Hge].
  - destruct (Qcompare (q1 - inject_Z f1) (1 # 2)); destruct (Qcompare (q2 - inject_Z f2) (1 # 2));
      repeat match goal with |- context [Z.even ?f] => destruct (Z.even f) end; lia.
  - assert (E : f1 = f2) by lia. rewrite <- E in *. clear E Hge Hf.
    destruct (Qcompare (q1 - inject_Z f1) (1 # 2)) eqn:E1;
    destruct (Qcompare (q2 - inject_Z f1) (1 # 2)) eqn:E2;
      repeat match goal with |- context [Z.even ?f] => destruct (Z.even f) end; try lia;
      repeat match goal with
             | H : (_ ?= _)%Q = Eq |- _ => apply Qeq_alt in H
             | H : (_ ?= _)%Q = Lt |- _ => apply Qlt_alt in H
             | H : (_ ?= _)%Q = Gt |- _ => apply Qgt_alt in H
             end; exfalso; lra.
Qed.

(** ** Python floats *)

Lemma two_ge_1 : (1 <= 2 # 1)%Q.
Proof. unfold Qle; simpl; lia. Qed.
Lemma two_gt_1 : (1 < 2 # 1)%Q.
Proof. unfold Qlt; simpl; lia. Qed.
Lemma two_nz : ~ (2 # 1 == 0)%Q.
Proof. discriminate. Qed.

Lemma pow2_pos (e : Z) : (0 < pow2 e)%Q.
Proof. apply Qpower_0_lt. reflexivity. Qed.

Lemma pow2_add (a b : Z) : (pow2 (a + b) == pow2 a * pow2 b)%Q.
Proof. apply Qpower_plus, two_nz. Qed.

Lemma pow2_le (a b : Z) : a <= b -> (pow2 a <= pow2 b)%Q.
Proof. intros H. apply Qpower_le_compat_l; [exact H | exact two_ge_1]. Qed.

Lemma pow2_lt_inv (a b : Z) : (pow2 a < pow2 b)%Q -> a < b.
Proof. intros H. exact (Qpower_lt_compat_l_inv _ a b H two_gt_1). Qed.

Lemma pow2_Z (n : Z) : 0 <= n -> (pow2 n == inject_Z (2 ^ n))%Q.
Proof. intros H. unfold pow2. rewrite Zpower_Qpower by exact H. reflexivity. Qed.

Lemma pow2_sub (a b : Z) : (pow2 (a - b) == pow2 a / pow2 b)%Q.
Proof. apply Qpower_minus, two_nz. Qed.

Lemma Qdiv_Z_le (a b c e : Z) : 0 < b -> 0 < e ->
  (inject_Z a / inject_Z b <= inject_Z c / inject_Z e)%Q <-> a * e <= c * b.
Proof.
  intros Hb He. destruct b as [|pb|pb]; try lia. destruct e as [|pe|pe]; try lia.
  unfold Qdiv, Qle; simpl. nia.
Qed.

Lemma Qdiv_Z_lt (a b c e : Z) : 0 < b -> 0 < e ->
  (inject_Z a / inject_Z b < inject_Z c / inject_Z e)%Q <-> a * e < c * b.
Proof.
  intros Hb He. destruct b as [|pb|pb]; try lia. destruct e as [|pe|pe]; try lia.
  unfold Qdiv, Qlt; simpl. nia.
Qed.

Lemma pow2_ratio (x y : Z) : 0 <= x -> 0 <= y ->
  (pow2 (x - y) == inject_Z (2 ^ x) / inject_Z (2 ^ y))%Q.
Proof. intros Hx Hy. rewrite pow2_sub, !pow2_Z by assumption. reflexivity. Qed.

Lemma log2_floor_spec (q : Q) : (0 < q)%Q ->
  (pow2 (log2_floor q) <= q < pow2 (log2_floor q + 1))%Q.
Proof.
  intros Hq. destruct q as [n d]. unfold Qlt in Hq; simpl in Hq. rewrite Z.mul_1_r in Hq.
  unfold log2_floor. cbn [Qnum Qden].
  set (ln := Z.log2 n). set (ld := Z.log2 (Zpos d)).
  destruct (Z.log2_spec n Hq) as [Hn1 Hn2].
  destruct (Z.log2_spec (Zpos d) ltac:(lia)) as [Hd1 Hd2].
  fold ln in Hn1, Hn2. fold ld in Hd1, Hd2.
  assert (Hln : 0 <= ln) by apply Z.log2_nonneg.
  assert (Hld : 0 <= ld) by apply Z.log2_nonneg.
  assert (Hp1 : 0 < 2 ^ ld) by (apply Z.pow_pos_nonneg; lia).
  assert (Hp2 : 0 < 2 ^ (ld + 1)) by (apply Z.pow_pos_nonneg; lia).
  rewrite Z.pow_succ_r in Hn2, Hd2 by lia.
  (* the two bounds around [k = ln - ld] *)
  assert (HA : (pow2 (ln - ld - 1) <= n # d)%Q).
  { rewrite Qmake_Qdiv. replace (ln - ld - 1) with (ln - (ld + 1)) by lia.
    rewrite pow2_ratio by lia. apply Qdiv_Z_le; [lia|lia|].
    rewrite Z.pow_add_r by lia. change (2 ^ 1) with 2. nia. }
  assert (HB : (n # d < pow2 (ln - ld + 1))%Q).
  { rewrite Qmake_Qdiv. replace (ln - ld + 1) with ((ln + 1) - ld) by lia.
    rewrite pow2_ratio by lia. apply Qdiv_Z_lt; [lia|lia|].
    rewrite Z.pow_add_r by lia. change (2 ^ 1) with 2. nia. }
  destruct (Qle_bool (pow2 (ln - ld)) (n # d)) eqn:E.
  - apply Qle_bool_iff in E. split; [exact E|exact HB].
  - assert (E' : ~ (pow2 (ln - ld) <= n # d)%Q) by (intros H; apply Qle_bool_iff in H; congruence).
    apply Qnot_le_lt in E'.
    split; [exact HA|]. replace (ln - ld - 1 + 1) with (ln - ld) by lia. exact E'.
Qed.

Lemma fl_pos (q : Q) : (0 < q)%Q ->
  fl q = (inject_Z (py_round (q / pow2 (fl_exp q))) * pow2 (fl_exp q))%Q.
Proof.
  intros Hq. destruct q as [n d]. unfold Qlt in Hq; simpl in Hq.
  unfold fl, fl_exp. cbn [Qabs]. rewrite Z.abs_eq by lia.
  destruct (Qeq_bool (n # d) 0) eqn:E.
  { apply Qeq_bool_iff in E. unfold Qeq in E; simpl in E. lia. }
  destruct (Qle_bool 0 (n # d)) eqn:E2; [reflexivity|].
  exfalso. assert (H : (0 <= n # d)%Q) by (unfold Qle; simpl; lia).
  apply Qle_bool_iff in H. congruence.
Qed.

Lemma fl_nonpos_zero (q : Q) : (q == 0)%Q -> fl q = 0%Q.
Proof.
  intros Hq. unfold fl. destruct q as [n d]. unfold Qeq in Hq; simpl in Hq.
  assert (n = 0) by lia. subst. reflexivity.
Qed.

Lemma fl_nonneg (q : Q) : (0 <= q)%Q -> (0 <= fl q)%Q.
Proof.
  intros Hq. destruct (Qle_lt_or_eq _ _ Hq) as [Hlt|Heq].
  - rewrite fl_pos by exact Hlt. apply Qmult_le_0_compat.
    + assert (0 <= py_round (q / pow2 (fl_exp q))).
      { apply py_round_nonneg. apply Qle_shift_div_l; [apply pow2_pos|]. rewrite Qmult_0_l. exact Hq. }
      unfold Qle; simpl; lia.
    + apply Qlt_le_weak, pow2_pos.
  - rewrite fl_nonpos_zero by (symmetry; exact Heq). apply Qle_refl.
Qed.

Lemma py_round_Z (n : Z) : py_round (inject_Z n) = n.
Proof.
  unfold py_round. rewrite Qfloor_Z. unfold Qcompare, Qminus, Qplus, Qopp; simpl.
  replace (n * 1 + - n * 1) with 0 by ring. reflexivity.
Qed.

Lemma fl_mono (a b : Q) : (0 <= a)%Q -> (a <= b)%Q -> (fl a <= fl b)%Q.
Proof.
  intros Ha Hab.
  destruct (Qle_lt_or_eq _ _ Ha) as [Ha'|Ha'].
  2:{ rewrite fl_nonpos_zero by (symmetry; exact Ha'). apply fl_nonneg. lra. }
  assert (Hb' : (0 < b)%Q) by lra.
  rewrite (fl_pos a Ha'), (fl_pos b Hb').
  destruct (log2_floor_spec a Ha') as [Ha1 Ha2].
  destruct (log2_floor_spec b Hb') as [Hb1 Hb2].
  assert (HL : log2_floor a <= log2_floor b).
  { assert (H : (pow2 (log2_floor a) < pow2 (log2_floor b + 1))%Q) by lra.
    apply pow2_lt_inv in H. lia. }
  set (ea := fl_exp a). set (eb := fl_exp b).
  assert (Hee : ea <= eb) by (unfold ea, eb, fl_exp; lia).
  destruct (Z.eq_dec ea eb) as [Heq|Hne].
  - rewrite Heq. apply Qmult_le_compat_r; [|apply Qlt_le_weak, pow2_pos].
    rewrite <- Zle_Qle. apply py_round_mono.
    apply Qmult_le_compat_r; [exact Hab|]. apply Qinv_le_0_compat, Qlt_le_weak, pow2_pos.
  - assert (Heb : eb = log2_floor b - 52) by (unfold eb, ea, fl_exp in *; lia).
    assert (Hea : log2_floor a - 52 <= ea) by (unfold ea, fl_exp; lia).
    (* [b / 2^eb >= 2^52], so its rounding is at least [2^52] *)
    assert (Hmb : 2 ^ 52 <= py_round (b / pow2 eb)).
    { rewrite <- (py_round_Z (2 ^ 52)). apply py_round_mono.
      apply Qle_shift_div_l; [apply pow2_pos|].
      rewrite <- pow2_Z by lia. rewrite <- pow2_add.
      replace (52 + eb) with (log2_floor b) by lia. exact Hb1. }
    (* [a / 2^ea < 2^53], so its rounding is at most [2^53] *)
    assert (Hma : py_round (a / pow2 ea) <= 2 ^ 53).
    { rewrite <- (py_round_Z (2 ^ 53)). apply py_round_mono.
      apply Qle_shift_div_r; [apply pow2_pos|].
      rewrite <- pow2_Z by lia. rewrite <- pow2_add.
      apply Qlt_le_weak. apply Qlt_le_trans with (1 := Ha2). apply pow2_le. lia. }
    apply Qle_trans with (inject_Z (2 ^ 53) * pow2 ea)%Q.
    { apply Qmult_le_compat_r; [|apply Qlt_le_weak, pow2_pos]. rewrite <- Zle_Qle. exact Hma. }
    apply Qle_trans with (inject_Z (2 ^ 52) * pow2 eb)%Q.
    2:{ apply Qmult_le_compat_r; [|apply Qlt_le_weak, pow2_pos]. rewrite <- Zle_Qle. exact Hmb. }
    rewrite <- !pow2_Z by lia. rewrite <- !pow2_add. apply pow2_le. lia.
Qed.

(** ** ASCII case mapping *)

Lemma ord_inj (c d : ascii) : ord c = ord d -> c = d.
Proof.
  unfold ord. intros H. rewrite <- (ascii_nat_embedding c), <- (ascii_nat_embedding d).
  f_equal. lia.
Qed.

Lemma ord_range (c : ascii) : 0 <= ord c < 256.
Proof. unfold ord. pose proof (nat_ascii_bounded c). lia. Qed.

Lemma ord_to_upper (c : ascii) : is_lower c = true -> ord (to_upper c) = ord c - 32.
Proof.
  intros H. unfold to_upper. rewrite H. unfold ord.
  unfold is_lower in H. apply andb_prop in H as [H1 H2].
  apply Nat.leb_le in H1. apply Nat.leb_le in H2.
  rewrite nat_ascii_embedding by lia. lia.
Qed.

Lemma is_lower_ord (c : ascii) : is_lower c = true -> 97 <= ord c <= 122.
Proof.
  unfold is_lower, ord. intros H. apply andb_prop in H as [H1 H2].
  apply Nat.leb_le in H1. apply Nat.leb_le in H2. lia.
Qed.

Lemma is_upper_ord (c : ascii) : 65 <= ord c <= 90 -> is_upper c = true.
Proof.
  unfold is_upper, ord. intros H. apply andb_true_intro; split; apply Nat.leb_le; lia.
Qed.

(** ** Python dicts *)

Lemma dict_get_set {V} (d : list (Z * V)) (k k' : Z) (v : V) :
  Fontgen.dict_get (Fontgen.dict_set d k v) k' =
  if k =? k' then Some v else Fontgen.dict_get d k'.
Proof.
  induction d as [|[k0 v0] d IH]; simpl.
  - destruct (k =? k'); reflexivity.
  - destruct (Z.eqb_spec k0 k) as [->|Hne]; simpl.
    + destruct (k =? k'); reflexivity.
    + rewrite IH. destruct (Z.eqb_spec k k') as [<-|]; [|reflexivity].
      apply Z.eqb_neq in Hne. rewrite Hne. reflexivity.
Qed.

Lemma filter_nil_iff {A} (f : A -> bool) (l : list A) :
  filter f l = [] <-> Forall (fun x => f x = false) l.
Proof.
  induction l as [|a l IH]; simpl.
  - split; auto.
  - destruct (f a) eqn:Ha; split; intros H.
    + discriminate.
    + inversion H; congruence.
    + constructor; [assumption | apply IH; assumption].
    + inversion H; apply IH; assumption.
Qed.

(** ** C1: the font assembler on an empty mapping *)

(** C1 (counterexample).  [create_font] performs no emptiness check: on the
    empty mapping it emits both binaries, of a font whose glyph order is only
    [.notdef] and [space]. *)
Lemma create_font_empty_emits_binaries :
  exists f, Fontgen.create_font [] "MyHandwriting" "Regular" =
            ((Fontgen.TTF, f), (Fontgen.WOFF2, f)) /\
            Fontgen.glyph_order f = [".notdef"%string; "space"%string].
Proof. eexists; split; reflexivity. Qed.

(** C1 (amended).  [create_font_from_chars] fails with the no-valid-glyphs
    error, and so emits no binaries, exactly when no supplied bitmap
    vectorises to a non-empty path list (in particular on the empty
    mapping); [create_font] itself emits, on the empty mapping, the binaries
    of a font holding only [.notdef] and [space], with [space] as its only
    cmap entry. *)
Theorem create_font_from_chars_empty_fails {cv : Cv2} (char_bitmaps : list (ascii * mask)) :
  (Fontgen.create_font_from_chars char_bitmaps = Err NoValidGlyphs <->
   Forall (fun cb => Vectorize.paths (Vectorize.process_glyph_bitmap (snd cb)) = [])
          char_bitmaps) /\
  Fontgen.create_font_from_chars [] = Err NoValidGlyphs /\
  (forall family style, exists f,
     Fontgen.create_font [] family style = ((Fontgen.TTF, f), (Fontgen.WOFF2, f)) /\
     Fontgen.glyph_order f = [".notdef"%string; "space"%string] /\
     Fontgen.cmap f = [(32, "space"%string)]).
Proof.
  split; [|split; [reflexivity|]].
  - unfold Fontgen.create_font_from_chars.
    set (gl := filter _ _).
    assert (Hgl : gl = [] <->
                  Forall (fun cb => Vectorize.paths (Vectorize.process_glyph_bitmap (snd cb)) = [])
                         char_bitmaps).
    { unfold gl. rewrite filter_nil_iff, Forall_map.
      split; apply Forall_impl; intros [c b]; simpl;
        destruct (Vectorize.paths _); simpl; congruence. }
    rewrite <- Hgl. destruct gl; split; intros H; congruence.
  - intros family style. eexists; split; [reflexivity | split; reflexivity].
Qed.

(** ** C2: the minimum-dimension filter of the segmenter *)

(** C2 (counterexample).  A mask whose only region has a 6x6 bounding box
    is not rejected: the filter keeps boxes with [w > 5 and h > 5], and
    segmentation against the phrase "a" returns that region as letter a. *)
Lemma six_by_six_region_is_kept :
  ~ (forall (cv : Cv2) (binary : mask) (pangram : string) (c : contour),
       findContours_external binary = [c] ->
       Segment.bx_w (bounding_rect c) = 6 -> Segment.bx_h (bounding_rect c) = 6 ->
       Segment.segment_characters binary pangram = Err NoValidRegions).
Proof.
  intros H.
  set (c := [(0, 0); (5, 0); (5, 5); (0, 5)] : contour).
  specialize (H (fixed_cv ([], None) [c] (0%nat, [])) (repeat (repeat 255 6) 6) "a"%string c
                eq_refl eq_refl eq_refl).
  vm_compute in H. discriminate H.
Qed.

(** C2 (amended).  When at least one region is detected, segmentation fails
    with the no-valid-regions error exactly when every region's bounding box
    has width <= 5 or height <= 5; in particular a mask whose only region is
    6x6 is segmented without that error. *)
Theorem segment_min_dimension_filter {cv : Cv2} (binary : mask) (pangram : string) :
  findContours_external binary <> [] ->
  (Segment.segment_characters binary pangram = Err NoValidRegions <->
   Forall (fun c => Segment.bx_w (bounding_rect c) <= 5 \/
                    Segment.bx_h (bounding_rect c) <= 5)
          (findContours_external binary)) /\
  (forall c, findContours_external binary = [c] ->
     Segment.bx_w (bounding_rect c) = 6 -> Segment.bx_h (bounding_rect c) = 6 ->
     exists pairs, Segment.segment_characters binary pangram = Ok pairs).
Proof.
  intros Hne.
  assert (Hiff : Segment.segment_characters binary pangram = Err NoValidRegions <->
                 Forall (fun c => Segment.bx_w (bounding_rect c) <= 5 \/
                                  Segment.bx_h (bounding_rect c) <= 5)
                        (findContours_external binary)).
  { unfold Segment.segment_characters.
    destruct (findContours_external binary) as [|c0 cs] eqn:Hc; [congruence|].
    set (bb := filter _ _).
    assert (Hbb : bb = [] <->
                  Forall (fun c => Segment.bx_w (bounding_rect c) <= 5 \/
                                   Segment.bx_h (bounding_rect c) <= 5) (c0 :: cs)).
    { unfold bb. rewrite filter_nil_iff, Forall_map.
      split; apply Forall_impl; intros c; simpl;
        destruct (bounding_rect c) as [[[x y] w] h]; simpl.
      - intros Hf. apply andb_false_iff in Hf as [Hf|Hf]; [left|right];
          rewrite Z.gtb_ltb in Hf; apply Z.ltb_ge in Hf; lia.
      - intros [Hw|Hh]; apply andb_false_iff; [left|right];
          rewrite Z.gtb_ltb; apply Z.ltb_ge; lia. }
    rewrite <- Hbb. destruct bb; split; intros Hx; congruence. }
  split; [exact Hiff|].
  intros c Hc Hw Hh.
  destruct (Segment.segment_characters binary pangram) as [pairs|e] eqn:Hs.
  - exists pairs; reflexivity.
  - exfalso. unfold Segment.segment_characters in Hs. rewrite Hc in Hs.
    simpl in Hs. destruct (bounding_rect c) as [[[x y] w] h]. simpl in Hw, Hh. subst.
    simpl in Hs. discriminate Hs.
Qed.

(** ** C3: advance width and left side bearing *)

Lemma Q_div_nonneg (a b : Z) : 0 <= a -> 0 < b -> (0 <= inject_Z a / inject_Z b)%Q.
Proof.
  intros Ha Hb. apply Qle_shift_div_l.
  - unfold Qlt; simpl; lia.
  - rewrite Qmult_0_l. unfold Qle; simpl; lia.
Qed.

(** C3.  Whenever contour tracing yields at least one contour, with
    [raw_width = round(bw * (1000 / max(bh, 1)))] for the bounding box of all
    contour points, [lsb = round(raw_width * 0.12)] and
    [advance_width = raw_width + 2 * lsb], each product and quotient being
    a Python float operation ([fl]), and so [advance_width >= raw_width] and
    [lsb >= 0]. *)
Theorem process_glyph_bitmap_metrics {cv : Cv2} (binary : mask)
    (contours : list contour) (hierarchy : list hier_entry) :
  findContours_ccomp binary = (contours, Some hierarchy) -> contours <> [] ->
  let '(_, _, bw, bh) := bounding_rect (concat contours) in
  let raw_width := py_round (fl (inject_Z bw * fl (inject_Z 1000 / inject_Z (Z.max bh 1)))) in
  let g := Vectorize.process_glyph_bitmap binary in
  Vectorize.lsb g = py_round (fl (inject_Z raw_width * fl (12 # 100))) /\
  Vectorize.advance_width g = raw_width + 2 * Vectorize.lsb g /\
  raw_width <= Vectorize.advance_width g /\
  0 <= Vectorize.lsb g.
Proof.
  intros Htrace Hne.
  pose proof (bounding_rect_size_nonneg (concat contours)) as Hsz.
  unfold Vectorize.process_glyph_bitmap. rewrite Htrace.
  destruct contours as [|c0 cs]; [congruence|].
  destruct (bounding_rect (concat (c0 :: cs))) as [[[bx by'] bw] bh].
  destruct Hsz as [Hbw Hbh]. cbn [Vectorize.lsb Vectorize.advance_width].
  change (Vectorize.ASCENDER - Vectorize.DESCENDER) with 1000.
  set (raw := py_round (fl (inject_Z bw * _))).
  assert (Hraw : 0 <= raw).
  { apply py_round_nonneg, fl_nonneg, Qmult_le_0_compat.
    - unfold Qle; simpl; lia.
    - apply fl_nonneg, Q_div_nonneg; lia. }
  assert (Hb : 0 <= py_round (fl (inject_Z raw * fl (12 # 100)))).
  { apply py_round_nonneg, fl_nonneg, Qmult_le_0_compat.
    - unfold Qle; simpl; lia.
    - apply fl_nonneg. unfold Qle; simpl; lia. }
  repeat split; lia.
Qed.

(** The products are float products: for a box 15 pixels wide and 240
    high, [15 * (1000 / 240)] is the double [62.50000000000001], which
    rounds to 63, not 62, and gives [lsb = 8] and [advance_width = 79]. *)
Lemma process_glyph_bitmap_float_rounding :
  let cv := fixed_cv ([[(0, 0); (14, 0); (14, 239)]], Some [(-1, -1, -1, -1)]) [] (0%nat, []) in
  py_round (fl (inject_Z 15 * fl (1000 # 240))) = 63 /\
  py_round (inject_Z 15 * (1000 # 240)) = 62 /\
  Vectorize.lsb (@Vectorize.process_glyph_bitmap cv []) = 8 /\
  Vectorize.advance_width (@Vectorize.process_glyph_bitmap cv []) = 79.
Proof. repeat split; vm_compute; reflexivity. Qed.

(** ** C7: determinism of the vectoriser *)

(** C7.  [process_glyph_bitmap] is a function of the traced contours
    alone: two masks with the same contour tracing, in particular two
    identical masks, give the same paths (same points, same order), the
    same advance width and the same left side bearing. *)
Theorem process_glyph_bitmap_deterministic {cv : Cv2} (m1 m2 : mask) :
  findContours_ccomp m1 = findContours_ccomp m2 ->
  Vectorize.process_glyph_bitmap m1 = Vectorize.process_glyph_bitmap m2 /\
  Vectorize.paths (Vectorize.process_glyph_bitmap m1) =
    Vectorize.paths (Vectorize.process_glyph_bitmap m2) /\
  Vectorize.advance_width (Vectorize.process_glyph_bitmap m1) =
    Vectorize.advance_width (Vectorize.process_glyph_bitmap m2) /\
  Vectorize.lsb (Vectorize.process_glyph_bitmap m1) =
    Vectorize.lsb (Vectorize.process_glyph_bitmap m2).
Proof.
  intros Heq.
  assert (H : Vectorize.process_glyph_bitmap m1 = Vectorize.process_glyph_bitmap m2).
  { unfold Vectorize.process_glyph_bitmap. rewrite Heq. reflexivity. }
  rewrite H. repeat split.
Qed.

(** ** C6: the character map *)

Definition cmap_inv (cm : list (Z * string)) (done : list ascii) : Prop :=
  Fontgen.dict_get cm 32 = Some "space"%string /\
  forall c, In c done ->
    Fontgen.dict_get cm (ord c) = Some (Fontgen.glyph_name c) /\
    (is_lower c = true ->
     Fontgen.dict_get cm (ord (to_upper c)) = Some (Fontgen.glyph_name c)).

Definition plain_key (c : ascii) : Prop := is_upper c = false /\ c <> " "%char.

Lemma ord_space_neq (c : ascii) : c <> " "%char -> ord c <> 32.
Proof.
  intros Hc Ho. apply Hc, ord_inj. rewrite Ho. reflexivity.
Qed.

Lemma ord_upper_range (c : ascii) : is_lower c = true -> 65 <= ord (to_upper c) <= 90.
Proof.
  intros H. rewrite ord_to_upper by exact H. pose proof (is_lower_ord c H). lia.
Qed.

Lemma plain_not_upper_ord (c : ascii) : plain_key c -> ~ (65 <= ord c <= 90).
Proof.
  intros [Hu _] Hr. apply is_upper_ord in Hr. congruence.
Qed.

(** Reading a key after one iteration of the cmap loop. *)
Lemma cmap_step_get (cm : list (Z * string)) (d : ascii) (k : Z) :
  Fontgen.dict_get (let cm' := Fontgen.dict_set cm (ord d) (Fontgen.glyph_name d) in
                    if is_lower d
                    then Fontgen.dict_set cm' (ord (to_upper d)) (Fontgen.glyph_name d)
                    else cm') k =
  if cmap_claims d k then Some (Fontgen.glyph_name d) else Fontgen.dict_get cm k.
Proof.
  unfold cmap_claims. destruct (is_lower d); simpl; rewrite ?dict_get_set;
    destruct (ord d =? k), (ord (to_upper d) =? k); reflexivity.
Qed.

Lemma build_cmap_owner (rest : list (ascii * Vectorize.glyph_data)) (cm : list (Z * string)) (k : Z) :
  Fontgen.dict_get (fold_left (fun cm (cg : ascii * Vectorize.glyph_data) =>
               let char := fst cg in
               let gname := Fontgen.glyph_name char in
               let cm := Fontgen.dict_set cm (ord char) gname in
               if is_lower char then Fontgen.dict_set cm (ord (to_upper char)) gname else cm)
             rest cm) k =
  match cmap_owner (map fst rest) k with
  | Some c => Some (Fontgen.glyph_name c)
  | None => Fontgen.dict_get cm k
  end.
Proof.
  revert cm. induction rest as [|[d g] rest IH]; intros cm; [reflexivity|].
  cbn [fold_left map fst cmap_owner]. rewrite IH.
  destruct (cmap_owner (map fst rest) k); [reflexivity|].
  rewrite cmap_step_get. destruct (cmap_claims d k); reflexivity.
Qed.

Lemma cmap_inv_step (cm : list (Z * string)) (done : list ascii) (d : ascii) :
  Forall plain_key (d :: done) -> cmap_inv cm done ->
  cmap_inv (let cm' := Fontgen.dict_set cm (ord d) (Fontgen.glyph_name d) in
            if is_lower d
            then Fontgen.dict_set cm' (ord (to_upper d)) (Fontgen.glyph_name d)
            else cm')
           (done ++ [d]).
Proof.
  intros Hplain [Hsp Hdone].
  inversion Hplain as [|? ? Hd Hrest]; subst.
  pose proof (ord_space_neq d (proj2 Hd)) as Hd32.
  pose proof (plain_not_upper_ord d Hd) as Hdu.
  pose proof (cmap_step_get cm d) as Hget. cbv zeta in Hget. unfold cmap_claims in Hget.
  split.
  - rewrite Hget. destruct (Z.eqb_spec (ord d) 32); [contradiction|].
    destruct (is_lower d) eqn:Hl; simpl; [|exact Hsp].
    pose proof (ord_upper_range d Hl).
    destruct (Z.eqb_spec (ord (to_upper d)) 32); [lia | exact Hsp].
  - intros c Hc. apply in_app_or in Hc as [Hc|Hc].
    + destruct (Hdone c Hc) as [H1 H2].
      assert (Hpc : plain_key c) by (rewrite Forall_forall in Hrest; auto).
      pose proof (plain_not_upper_ord c Hpc) as Hcu.
      split.
      * rewrite Hget.
        destruct (Z.eqb_spec (ord d) (ord c)) as [Heq|].
        { apply ord_inj in Heq. subst. reflexivity. }
        destruct (is_lower d) eqn:Hl; simpl; [|exact H1].
        pose proof (ord_upper_range d Hl).
        destruct (Z.eqb_spec (ord (to_upper d)) (ord c)); [lia | exact H1].
      * intros Hlc. rewrite Hget. pose proof (ord_upper_range c Hlc).
        destruct (Z.eqb_spec (ord d) (ord (to_upper c))); [lia|].
        destruct (is_lower d) eqn:Hl; simpl; [|exact (H2 Hlc)].
        destruct (Z.eqb_spec (ord (to_upper d)) (ord (to_upper c))) as [Heq|];
          [|exact (H2 Hlc)].
        rewrite !ord_to_upper in Heq by assumption.
        assert (d = c) by (apply ord_inj; lia). subst. reflexivity.
    + destruct Hc as [<-|[]]. split.
      * rewrite Hget, Z.eqb_refl. reflexivity.
      * intros Hl. rewrite Hget, Hl, Z.eqb_refl, orb_true_r. reflexivity.
Qed.

Lemma build_cmap_inv (rest : list (ascii * Vectorize.glyph_data))
    (cm : list (Z * string)) (done : list ascii) :
  Forall plain_key (done ++ map fst rest) -> cmap_inv cm done ->
  cmap_inv (fold_left (fun cm (cg : ascii * Vectorize.glyph_data) =>
               let char := fst cg in
               let gname := Fontgen.glyph_name char in
               let cm := Fontgen.dict_set cm (ord char) gname in
               if is_lower char then Fontgen.dict_set cm (ord (to_upper char)) gname else cm)
             rest cm) (done ++ map fst rest).
Proof.
  revert cm done. induction rest as [|[d g] rest IH]; intros cm done Hp Hinv; simpl.
  - rewrite app_nil_r. exact Hinv.
  - replace (done ++ d :: map fst rest) with ((done ++ [d]) ++ map fst rest)
      by (rewrite <- app_assoc; reflexivity).
    apply IH.
    + rewrite <- app_assoc. exact Hp.
    + apply cmap_inv_step; [|exact Hinv].
      apply Forall_app in Hp as [Hp1 Hp2]. inversion Hp2; subst.
      constructor; assumption.
Qed.

(** C6 (counterexample).  The claim fails when a supplied character is
    itself upper case or the space: with both "a" and "A" supplied, "A" is
    mapped to its own glyph [uni0041] after "a" mapped it to [uni0061]; a
    supplied " " takes the space code point away from the [space] glyph. *)
Lemma cmap_upper_and_space_overwritten :
  let g := Vectorize.mkGlyph [] 500 0 in
  let cm1 := Fontgen.cmap (snd (fst (Fontgen.create_font
               [("a"%char, g); ("A"%char, g)] "MyHandwriting" "Regular"))) in
  let cm2 := Fontgen.cmap (snd (fst (Fontgen.create_font
               [(" "%char, g)] "MyHandwriting" "Regular"))) in
  Fontgen.dict_get cm1 (ord (to_upper "a"%char)) = Some "uni0041"%string /\
  Fontgen.dict_get cm1 (ord "a"%char) = Some "uni0061"%string /\
  Fontgen.dict_get cm2 32 = Some "uni0020"%string.
Proof. vm_compute. repeat split. Qed.

(** C6 (amended).  For supplied ASCII characters, the assembled cmap maps
    every code point [k] to the glyph of the last supplied character, in
    the order of the mapping, that is [k] or is lower case with upper-case
    code point [k]; the space code point maps to [space] when no supplied
    character claims it, and any other unclaimed code point is absent.
    In particular, when no supplied character is upper case or the space,
    the space code point maps to [space], every supplied character's code
    point to its glyph, and every supplied lower-case letter's upper-case
    code point to that same glyph. *)
Theorem create_font_cmap_upper_same_glyph (glyphs : list (ascii * Vectorize.glyph_data))
    (family style : string) :
  Forall ascii_char (map fst glyphs) ->
  let cm := Fontgen.cmap (snd (fst (Fontgen.create_font glyphs family style))) in
  (forall k, Fontgen.dict_get cm k =
     match cmap_owner (map fst glyphs) k with
     | Some c => Some (Fontgen.glyph_name c)
     | None => if k =? 32 then Some "space"%string else None
     end) /\
  (Forall (fun c => is_upper c = false /\ c <> " "%char) (map fst glyphs) ->
   Fontgen.dict_get cm (ord " "%char) = Some "space"%string /\
   forall c, In c (map fst glyphs) ->
     Fontgen.dict_get cm (ord c) = Some (Fontgen.glyph_name c) /\
     (is_lower c = true ->
      Fontgen.dict_get cm (ord (to_upper c)) = Fontgen.dict_get cm (ord c))).
Proof.
  intros _ cm. split.
  - intros k. unfold cm. cbn [Fontgen.create_font fst snd Fontgen.cmap].
    unfold Fontgen.build_cmap. rewrite build_cmap_owner.
    destruct (cmap_owner (map fst glyphs) k); [reflexivity|].
    simpl. rewrite Z.eqb_sym. reflexivity.
  - intros Hplain.
    assert (Hinv : cmap_inv cm ([] ++ map fst glyphs)).
    { apply build_cmap_inv; [exact Hplain|].
      split; [reflexivity | intros c []]. }
    destruct Hinv as [Hsp Hall]. split; [exact Hsp|].
    intros c Hc. destruct (Hall c Hc) as [H1 H2]. split; [exact H1|].
    intros Hl. rewrite H1. exact (H2 Hl).
Qed.

(** ** C4: winding order of the emitted paths *)

Lemma sumZ_app (l1 l2 : list Z) : sumZ (l1 ++ l2) = sumZ l1 + sumZ l2.
Proof. induction l1 as [|a l1 IH]; simpl; [reflexivity | rewrite IH; ring]. Qed.

Lemma nth_length_last (a : point) (t : list point) (d : point) :
  nth (length t) (a :: t) d = last (a :: t) d.
Proof.
  revert a. induction t as [|b t IH]; intros a; [reflexivity|].
  change (nth (length t) (b :: t) d = last (a :: b :: t) d).
  rewrite IH. reflexivity.
Qed.

Lemma chain_nth (l : list point) (d : point) :
  chain l = sumZ (map (fun i => cross (nth i l d) (nth (S i) l d)) (seq 0 (length l - 1))).
Proof.
  induction l as [|a t IH]; [reflexivity|].
  destruct t as [|b t']; [reflexivity|].
  change (chain (a :: b :: t')) with (cross a b + chain (b :: t')).
  rewrite IH. cbn [length]. rewrite !Nat.sub_succ, !Nat.sub_0_r.
  cbn [seq map sumZ]. f_equal.
  rewrite <- seq_shift, map_map. reflexivity.
Qed.

Lemma polygon_area_sum_cyc (l : list point) : Vectorize.polygon_area_sum l = cyc l.
Proof.
  unfold Vectorize.polygon_area_sum.
  match goal with |- fold_left ?f _ _ = _ =>
    assert (Hf : forall s a, fold_left f s a =
      a + sumZ (map (fun i => cross (nth i l (0, 0))
                                    (nth (Nat.modulo (i + 1) (length l)) l (0, 0))) s)) end.
  { induction s as [|i s IH]; intros a; simpl; [ring|].
    rewrite IH. destruct (nth i l (0, 0)) as [xi yi].
    destruct (nth (Nat.modulo (i + 1) (length l)) l (0, 0)) as [xj yj].
    unfold cross; simpl. ring. }
  rewrite Hf. clear Hf.
  destruct l as [|a t]; [reflexivity|].
  unfold cyc. simpl length. rewrite seq_S, map_app, sumZ_app. simpl (0 + length t)%nat.
  rewrite (chain_nth _ (0, 0)). simpl length.
  replace (S (length t) - 1)%nat with (length t) by lia.
  cbn [map sumZ]. rewrite Nat.add_1_r, Nat.Div0.mod_same, nth_length_last.
  change (sumZ [?x]) with (x + 0). cbn [hd nth]. rewrite Z.add_0_l, Z.add_0_r.
  f_equal. f_equal. apply map_ext_in. intros i Hi. apply in_seq in Hi.
  rewrite Nat.add_1_r, Nat.mod_small by lia. reflexivity.
Qed.

Lemma cross_antisym (p q : point) : cross p q = - cross q p.
Proof. unfold cross. ring. Qed.

Lemma chain_snoc (l : list point) (x d : point) :
  l <> [] -> chain (l ++ [x]) = chain l + cross (last l d) x.
Proof.
  induction l as [|a t IH]; intros Hne; [congruence|].
  destruct t as [|b t']; [simpl; ring|].
  change ((a :: b :: t') ++ [x]) with (a :: ((b :: t') ++ [x])).
  change (chain (a :: ((b :: t') ++ [x]))) with (cross a b + chain ((b :: t') ++ [x])).
  rewrite IH by discriminate.
  change (chain (a :: b :: t')) with (cross a b + chain (b :: t')).
  change (last (a :: b :: t') d) with (last (b :: t') d). ring.
Qed.

Lemma last_rev (l : list point) (d : point) : last (rev l) d = hd d l.
Proof. destruct l as [|a t]; [reflexivity|]. simpl. apply last_last. Qed.

Lemma hd_rev (l : list point) (d : point) : hd d (rev l) = last l d.
Proof. rewrite <- (rev_involutive l) at 2. rewrite last_rev. reflexivity. Qed.

Lemma chain_rev (l : list point) : chain (rev l) = - chain l.
Proof.
  induction l as [|a t IH]; [reflexivity|].
  destruct t as [|b t']; [reflexivity|].
  change (rev (a :: b :: t')) with (rev (b :: t') ++ [a]).
  rewrite (chain_snoc _ _ (0, 0)).
  - rewrite IH, last_rev.
    change (chain (a :: b :: t')) with (cross a b + chain (b :: t')).
    simpl hd. rewrite (cross_antisym b a). ring.
  - intros H. apply (f_equal (@length point)) in H.
    rewrite length_rev in H. discriminate H.
Qed.

Lemma cyc_rev (l : list point) : cyc (rev l) = - cyc l.
Proof.
  unfold cyc. rewrite chain_rev, last_rev, hd_rev, (cross_antisym (hd _ _)). unfold point. ring.
Qed.

Lemma chain_shift (b : Z) (l : list point) :
  chain (map (fun q : point => let '(x, y) := q in (x + b, y)) l) =
  chain l + b * (snd (last l (0, 0)) - snd (hd (0, 0) l)).
Proof.
  induction l as [|p t IH]; [simpl; ring|].
  destruct t as [|q t']; [simpl; ring|].
  set (f := fun q : point => let '(x, y) := q in (x + b, y)) in *.
  assert (E : chain (map f (p :: q :: t')) = cross (f p) (f q) + chain (map f (q :: t')))
    by reflexivity.
  rewrite E, IH.
  change (chain (p :: q :: t')) with (cross p q + chain (q :: t')).
  change (last (p :: q :: t') (0, 0)) with (last (q :: t') (0, 0)).
  simpl hd. destruct p as [px py], q as [qx qy]. unfold f, cross; simpl. ring.
Qed.

Lemma last_shift (b : Z) (p : point) (t : list point) :
  last (map (fun q : point => let '(x, y) := q in (x + b, y)) (p :: t)) (0, 0) =
  (let '(x, y) := last (p :: t) (0, 0) in (x + b, y)).
Proof.
  revert p. induction t as [|q t IH]; intros p; [reflexivity|].
  change (last (map ?f (p :: q :: t)) ?d) with (last (map f (q :: t)) d).
  rewrite IH. reflexivity.
Qed.

Lemma cyc_shift (b : Z) (l : list point) :
  cyc (map (fun q : point => let '(x, y) := q in (x + b, y)) l) = cyc l.
Proof.
  destruct l as [|p t]; [reflexivity|].
  unfold cyc. rewrite chain_shift, last_shift. simpl hd.
  destruct (last (p :: t) (0, 0)) as [lx ly], p as [px py].
  unfold cross; simpl. ring.
Qed.

Lemma polygon_area_le_0 (l : list point) :
  (Vectorize.polygon_area l <= 0)%Q <-> Vectorize.polygon_area_sum l <= 0.
Proof. unfold Vectorize.polygon_area, Qle; simpl. lia. Qed.

Lemma polygon_area_ge_0 (l : list point) :
  (0 <= Vectorize.polygon_area l)%Q <-> 0 <= Vectorize.polygon_area_sum l.
Proof. unfold Vectorize.polygon_area, Qle; simpl. lia. Qed.

Lemma Qltb_true (a b : Q) : Qltb a b = true <-> (a < b)%Q.
Proof.
  unfold Qltb. rewrite Qlt_alt. destruct (Qcompare a b); split; congruence.
Qed.

Lemma polygon_area_pos (l : list point) :
  Qltb 0 (Vectorize.polygon_area l) = true <-> 0 < Vectorize.polygon_area_sum l.
Proof. rewrite Qltb_true. unfold Vectorize.polygon_area, Qlt; simpl. lia. Qed.

Lemma polygon_area_neg (l : list point) :
  Qltb (Vectorize.polygon_area l) 0 = true <-> Vectorize.polygon_area_sum l < 0.
Proof. rewrite Qltb_true. unfold Vectorize.polygon_area, Qlt; simpl. lia. Qed.

Lemma polygon_area_sum_rev (l : list point) :
  Vectorize.polygon_area_sum (rev l) = - Vectorize.polygon_area_sum l.
Proof. rewrite !polygon_area_sum_cyc. apply cyc_rev. Qed.

Lemma polygon_area_sum_shift (b : Z) (l : list point) :
  Vectorize.polygon_area_sum (map (fun q : point => let '(x, y) := q in (x + b, y)) l) =
  Vectorize.polygon_area_sum l.
Proof. rewrite !polygon_area_sum_cyc. apply cyc_shift. Qed.

Lemma contour_to_path_winding {cv : Cv2} hierarchy bx by' scale th i c p :
  Vectorize.contour_to_path hierarchy bx by' scale th i c = Some p -> winding_ok p.
Proof.
  unfold Vectorize.contour_to_path.
  destruct (Nat.ltb (length c) 3); [discriminate|].
  destruct (Nat.ltb (length (approxPolyDP c (1 # 2) true)) 3); [discriminate|].
  set (t := map _ _).
  intros Hp. injection Hp as <-.
  unfold winding_ok; cbn [Vectorize.is_hole Vectorize.points].
  rewrite polygon_area_le_0, polygon_area_ge_0.
  destruct (negb (hier_parent (nth i hierarchy (-1, -1, -1, -1)) =? -1)); simpl.
  - destruct (Qltb (Vectorize.polygon_area t) 0) eqn:Hn.
    + apply polygon_area_neg in Hn. simpl. rewrite polygon_area_sum_rev. split; [discriminate | lia].
    + simpl. split; [discriminate|]. intros _.
      destruct (Z.le_gt_cases 0 (Vectorize.polygon_area_sum t)) as [H|H]; [exact H|].
      apply polygon_area_neg in H. congruence.
  - destruct (Qltb 0 (Vectorize.polygon_area t)) eqn:Hpos.
    + apply polygon_area_pos in Hpos. simpl. rewrite polygon_area_sum_rev. split; [lia | discriminate].
    + simpl. split; [|discriminate]. intros _.
      destruct (Z.le_gt_cases (Vectorize.polygon_area_sum t) 0) as [H|H]; [exact H|].
      apply polygon_area_pos in H. congruence.
Qed.

Lemma contours_loop_winding {cv : Cv2} hierarchy bx by' scale th i cs p :
  In p (Vectorize.contours_loop hierarchy bx by' scale th i cs) -> winding_ok p.
Proof.
  revert i. induction cs as [|c cs IH]; intros i; simpl; [intros []|].
  destruct (Vectorize.contour_to_path hierarchy bx by' scale th i c) as [q|] eqn:Hq.
  - intros [<-|Hin]; [exact (contour_to_path_winding _ _ _ _ _ _ _ _ Hq) | exact (IH _ Hin)].
  - apply IH.
Qed.

Lemma contours_to_font_paths_winding {cv : Cv2} contours hierarchy th p :
  In p (Vectorize.contours_to_font_paths contours hierarchy th) -> winding_ok p.
Proof.
  unfold Vectorize.contours_to_font_paths.
  destruct contours as [|c cs]; [intros []|].
  destruct hierarchy as [hier|]; [|intros []].
  destruct (bounding_rect _) as [[[bx by'] bw] bh].
  destruct ((bw =? 0) || (bh =? 0)); [intros []|].
  apply contours_loop_winding.
Qed.

(** C4.  Every path emitted by the vectoriser follows the winding
    convention: a path tagged outer ([is_hole = false]) has non-positive
    signed shoelace area and a path tagged hole has non-negative signed
    area; the final shift by the left side bearing keeps the area. *)
Theorem process_glyph_bitmap_winding {cv : Cv2} (binary : mask) (p : Vectorize.path) :
  In p (Vectorize.paths (Vectorize.process_glyph_bitmap binary)) ->
  (Vectorize.is_hole p = false -> (Vectorize.polygon_area (Vectorize.points p) <= 0)%Q) /\
  (Vectorize.is_hole p = true -> (0 <= Vectorize.polygon_area (Vectorize.points p))%Q).
Proof.
  unfold Vectorize.process_glyph_bitmap.
  destruct (findContours_ccomp binary) as [contours hierarchy].
  destruct contours as [|c cs]; [intros []|].
  destruct hierarchy as [hier|]; [|intros []].
  destruct (bounding_rect (concat (c :: cs))) as [[[bx by'] bw] bh].
  cbn [Vectorize.paths]. intros Hin. apply in_map_iff in Hin as [q [<- Hq]].
  apply contours_to_font_paths_winding in Hq as [Ho Hh].
  unfold Vectorize.shift_path; cbn [Vectorize.is_hole Vectorize.points].
  rewrite polygon_area_le_0, polygon_area_ge_0, polygon_area_sum_shift.
  rewrite polygon_area_le_0 in Ho. rewrite polygon_area_ge_0 in Hh.
  split; assumption.
Qed.

(** ** C9 and C10: the single-glyph extractor *)

Lemma nth_py_slice {A} (l : list A) (lo hi : Z) (i : nat) (d : A) :
  nth i (py_slice l lo hi) d =
  if Nat.ltb i (Z.to_nat (hi - lo)) then nth (Z.to_nat lo + i) l d else d.
Proof. unfold py_slice. rewrite nth_firstn, nth_skipn. reflexivity. Qed.

Lemma nth_map_default {A B} (f : A -> B) (l : list A) (d : A) (d' : B) (n : nat) :
  f d = d' -> nth n (map f l) d' = f (nth n l d).
Proof. intros <-. apply map_nth. Qed.

Lemma px_crop (m : mask) (y1 y2 x1 x2 : Z) (i j : nat) :
  px (crop m y1 y2 x1 x2) i j =
  if Nat.ltb i (Z.to_nat (y2 - y1)) && Nat.ltb j (Z.to_nat (x2 - x1))
  then px m (Z.to_nat y1 + i) (Z.to_nat x1 + j) else 0.
Proof.
  unfold px, crop.
  assert (Hnil : py_slice (@nil Z) x1 x2 = []).
  { unfold py_slice. rewrite skipn_nil, firstn_nil. reflexivity. }
  rewrite (nth_map_default (fun row => py_slice row x1 x2) _ [] [] i Hnil), !nth_py_slice.
  destruct (Nat.ltb i (Z.to_nat (y2 - y1))); simpl; [reflexivity|].
  destruct (Nat.ltb j _); [|reflexivity]. destruct (Z.to_nat x1 + j)%nat; reflexivity.
Qed.

Lemma nth_map_seq {A} (F : nat -> A) (n r : nat) (d : A) :
  (r < n)%nat -> nth r (map F (seq 0 n)) d = F r.
Proof.
  intros Hr. rewrite (nth_indep _ _ (F 0%nat)) by (rewrite length_map, length_seq; exact Hr).
  rewrite map_nth, seq_nth by exact Hr. reflexivity.
Qed.

Lemma px_zeros (size : Z) (r c : nat) : px (Segment.zeros size) r c = 0.
Proof.
  unfold px, Segment.zeros.
  destruct (Nat.lt_ge_cases r (Z.to_nat size)) as [Hr|Hr].
  - rewrite (nth_indep _ _ (repeat 0 (Z.to_nat size))) by (rewrite repeat_length; exact Hr).
    rewrite nth_repeat. apply nth_repeat.
  - rewrite (nth_overflow (repeat (repeat 0 (Z.to_nat size)) (Z.to_nat size)) (n := r))
      by (rewrite repeat_length; exact Hr).
    destruct c; reflexivity.
Qed.

Lemma zeros_shape (size : Z) :
  length (Segment.zeros size) = Z.to_nat size /\
  forall r, (r < Z.to_nat size)%nat -> length (nth r (Segment.zeros size) []) = Z.to_nat size.
Proof.
  unfold Segment.zeros. split; [apply repeat_length|].
  intros r Hr.
  rewrite (nth_indep _ _ (repeat 0 (Z.to_nat size))) by (rewrite repeat_length; exact Hr).
  rewrite nth_repeat. apply repeat_length.
Qed.

Lemma assign_block_shape (canvas : mask) (oy ox : Z) (block : mask) :
  length (Segment.assign_block canvas oy ox block) = length canvas /\
  forall r, (r < length canvas)%nat ->
    length (nth r (Segment.assign_block canvas oy ox block) []) = length (nth r canvas []).
Proof.
  unfold Segment.assign_block. split; [rewrite length_map, length_seq; reflexivity|].
  intros r Hr. rewrite nth_map_seq by exact Hr. rewrite length_map, length_seq. reflexivity.
Qed.

Lemma px_assign_block (canvas : mask) (oy ox : Z) (block : mask) (r c : nat) :
  (r < length canvas)%nat -> (c < length (nth r canvas []))%nat ->
  px (Segment.assign_block canvas oy ox block) r c =
  let i := Z.of_nat r - oy in
  let j := Z.of_nat c - ox in
  if (0 <=? i) && (i <? Z.of_nat (length block)) &&
     (0 <=? j) && (j <? Z.of_nat (length (nth (Z.to_nat i) block [])))
  then px block (Z.to_nat i) (Z.to_nat j)
  else px canvas r c.
Proof.
  intros Hr Hc. unfold px at 1, Segment.assign_block.
  rewrite nth_map_seq by exact Hr. rewrite nth_map_seq by exact Hc. reflexivity.
Qed.

Lemma bounding_rect_fold_bounds (rest : list point) (a b c d : Z) :
  let '(a', b', c', d') :=
    fold_left (fun acc p =>
                 let '(a, b, c, d) := acc in
                 let '(x, y) := p in
                 (Z.min a x, Z.max b x, Z.min c y, Z.max d y)) rest (a, b, c, d) in
  a' <= a /\ b <= b' /\ c' <= c /\ d <= d' /\
  Forall (fun p : point => a' <= fst p <= b' /\ c' <= snd p <= d') rest /\
  (0 <= a -> 0 <= c -> Forall (fun p : point => 0 <= fst p /\ 0 <= snd p) rest ->
   0 <= a' /\ 0 <= c').
Proof.
  revert a b c d. induction rest as [|[px' py'] rest IH]; intros a b c d; simpl.
  - repeat split; auto; lia.
  - specialize (IH (Z.min a px') (Z.max b px') (Z.min c py') (Z.max d py')).
    destruct (fold_left _ rest _) as [[[a' b'] c'] d'].
    destruct IH as (H1 & H2 & H3 & H4 & H5 & H6).
    split; [lia|]. split; [lia|]. split; [lia|]. split; [lia|]. split.
    + constructor; [simpl; lia | exact H5].
    + intros Ha Hc Hall. inversion Hall as [|? ? [Hx Hy] Hrest]; subst. simpl in Hx, Hy.
      apply H6; [lia | lia | exact Hrest].
Qed.

Lemma bounding_rect_bounds (pts : list point) (x y w h : Z) :
  pts <> [] -> bounding_rect pts = (x, y, w, h) ->
  1 <= w /\ 1 <= h /\
  Forall (fun p : point => x <= fst p < x + w /\ y <= snd p < y + h) pts /\
  (Forall (fun p : point => 0 <= fst p /\ 0 <= snd p) pts -> 0 <= x /\ 0 <= y).
Proof.
  intros Hne. destruct pts as [|[x0 y0] rest]; [congruence|]. unfold bounding_rect.
  pose proof (bounding_rect_fold_bounds rest x0 x0 y0 y0) as H.
  destruct (fold_left _ rest _) as [[[a' b'] c'] d'].
  intros Heq. injection Heq as <- <- <- <-.
  destruct H as (H1 & H2 & H3 & H4 & H5 & H6).
  split; [lia|]. split; [lia|]. split.
  - constructor; [simpl; lia|].
    eapply Forall_impl; [|exact H5]. intros p Hp. simpl in Hp. lia.
  - intros Hall. inversion Hall as [|? ? [Hx Hy] Hrest]; subst. simpl in Hx, Hy.
    apply H6; assumption.
Qed.

Lemma px_nonzero_in_range (m : mask) (r c : nat) :
  px m r c <> 0 -> (r < length m)%nat /\ (c < length (nth r m []))%nat.
Proof.
  unfold px. intros H. split.
  - destruct (Nat.lt_ge_cases r (length m)) as [Hr|Hr]; [exact Hr|].
    rewrite (nth_overflow m (n := r)) in H by exact Hr. destruct c; contradiction.
  - destruct (Nat.lt_ge_cases c (length (nth r m []))) as [Hc|Hc]; [exact Hc|].
    rewrite nth_overflow in H by exact Hc. contradiction.
Qed.

Lemma find_non_zero_complete (m : mask) (r c : nat) :
  px m r c <> 0 -> In (Z.of_nat c, Z.of_nat r) (Segment.find_non_zero m).
Proof.
  intros H. pose proof (px_nonzero_in_range m r c H) as [Hr Hc].
  unfold Segment.find_non_zero. apply in_flat_map. exists r.
  split; [apply in_seq; lia|].
  apply in_flat_map. exists c. split; [apply in_seq; lia|].
  apply Z.eqb_neq in H. rewrite H. left. reflexivity.
Qed.

Lemma find_non_zero_sound (m : mask) (p : point) :
  In p (Segment.find_non_zero m) ->
  0 <= fst p /\ 0 <= snd p /\ px m (Z.to_nat (snd p)) (Z.to_nat (fst p)) <> 0.
Proof.
  unfold Segment.find_non_zero. intros H.
  apply in_flat_map in H as [r [_ H]]. apply in_flat_map in H as [c [_ H]].
  destruct (px m r c =? 0) eqn:Hz; [destruct H|].
  destruct H as [<-|[]]. simpl. rewrite !Nat2Z.id. apply Z.eqb_neq in Hz. lia.
Qed.

Lemma find_non_zero_nil (m : mask) :
  Segment.find_non_zero m = [] <-> forall r c, px m r c = 0.
Proof.
  split.
  - intros H r c. destruct (Z.eq_dec (px m r c) 0) as [E|E]; [exact E|].
    apply find_non_zero_complete in E. rewrite H in E. destruct E.
  - intros H. destruct (Segment.find_non_zero m) as [|p ps] eqn:E; [reflexivity|].
    exfalso. destruct (find_non_zero_sound m p) as (_ & _ & Hp); [rewrite E; left; reflexivity|].
    apply Hp, H.
Qed.

(** Every non-zero pixel lies in the bounding box [cv2.boundingRect] finds. *)
Lemma find_non_zero_box (m : mask) (x y w h : Z) :
  Segment.find_non_zero m <> [] ->
  bounding_rect (Segment.find_non_zero m) = (x, y, w, h) ->
  0 <= x /\ 0 <= y /\ 1 <= w /\ 1 <= h /\
  forall r c, px m r c <> 0 ->
    y <= Z.of_nat r < y + h /\ x <= Z.of_nat c < x + w.
Proof.
  intros Hne Hbr.
  destruct (bounding_rect_bounds _ x y w h Hne Hbr) as (Hw & Hh & Hall & Hnn).
  assert (Hpos : Forall (fun p : point => 0 <= fst p /\ 0 <= snd p) (Segment.find_non_zero m)).
  { apply Forall_forall. intros p Hp. apply find_non_zero_sound in Hp. tauto. }
  destruct (Hnn Hpos) as [Hx Hy].
  split; [lia|]. split; [lia|]. split; [lia|]. split; [lia|].
  intros r c Hrc. apply find_non_zero_complete in Hrc.
  rewrite Forall_forall in Hall. apply Hall in Hrc. simpl in Hrc. lia.
Qed.

Lemma length_py_slice {A} (l : list A) (lo hi : Z) :
  (length (py_slice l lo hi) <= Z.to_nat (hi - lo))%nat.
Proof. unfold py_slice. rewrite length_firstn. lia. Qed.

Lemma crop_shape (m : mask) (y1 y2 x1 x2 : Z) (i : nat) :
  (length (crop m y1 y2 x1 x2) <= Z.to_nat (y2 - y1))%nat /\
  (length (nth i (crop m y1 y2 x1 x2) []) <= Z.to_nat (x2 - x1))%nat.
Proof.
  unfold crop. split.
  - rewrite length_map. apply length_py_slice.
  - destruct (Nat.lt_ge_cases i (length (py_slice m y1 y2))) as [Hi|Hi].
    + rewrite (nth_map_default (fun row => py_slice row x1 x2) _ [] [] i)
        by (unfold py_slice; rewrite skipn_nil, firstn_nil; reflexivity).
      apply length_py_slice.
    + rewrite nth_overflow by (rewrite length_map; exact Hi). simpl. lia.
Qed.

Lemma px_in_range (b : mask) (i j : nat) :
  px b i j = if Nat.ltb i (length b) && Nat.ltb j (length (nth i b [])) then px b i j else 0.
Proof.
  destruct (Z.eq_dec (px b i j) 0) as [E|E].
  - rewrite E. destruct (_ && _); reflexivity.
  - destruct (px_nonzero_in_range b i j E) as [Hi Hj].
    apply Nat.ltb_lt in Hi, Hj. rewrite Hi, Hj. reflexivity.
Qed.

Lemma px_out_of_range (m : mask) (r c : nat) :
  ((length m <= r)%nat \/ (length (nth r m []) <= c)%nat) -> px m r c = 0.
Proof.
  intros H. destruct (Z.eq_dec (px m r c) 0) as [E|E]; [exact E|].
  apply px_nonzero_in_range in E. lia.
Qed.

Lemma extract_single_glyph_pixel (m : mask) (x y w h : Z) :
  Segment.find_non_zero m <> [] ->
  bounding_rect (Segment.find_non_zero m) = (x, y, w, h) ->
  let size := Z.max w h + 20 in
  let ox := (size - w) / 2 in
  let oy := (size - h) / 2 in
  let out := Segment.extract_single_glyph m in
  length out = Z.to_nat size /\
  (forall r, (r < Z.to_nat size)%nat -> length (nth r out []) = Z.to_nat size) /\
  forall r c : nat,
    px out r c =
    if (oy <=? Z.of_nat r) && (Z.of_nat r <? oy + h) &&
       (ox <=? Z.of_nat c) && (Z.of_nat c <? ox + w)
    then px m (Z.to_nat (y + Z.of_nat r - oy)) (Z.to_nat (x + Z.of_nat c - ox))
    else 0.
Proof.
  intros Hne Hbr size ox oy out.
  destruct (find_non_zero_box m x y w h Hne Hbr) as (Hx & Hy & Hw & Hh & _).
  assert (Hox : 0 <= ox /\ ox + w <= size).
  { unfold ox, size. split; [apply Z.div_pos; lia|].
    assert ((Z.max w h + 20 - w) / 2 <= Z.max w h + 20 - w) by (apply Z.div_le_upper_bound; lia). lia. }
  assert (Hoy : 0 <= oy /\ oy + h <= size).
  { unfold oy, size. split; [apply Z.div_pos; lia|].
    assert ((Z.max w h + 20 - h) / 2 <= Z.max w h + 20 - h) by (apply Z.div_le_upper_bound; lia). lia. }
  assert (Hout : out = Segment.assign_block (Segment.zeros size) oy ox
                         (crop m y (y + h) x (x + w))).
  { unfold out, Segment.extract_single_glyph.
    destruct (Segment.find_non_zero m) as [|p ps] eqn:E; [congruence|].
    rewrite Hbr. reflexivity. }
  clearbody out size ox oy. subst out.
  set (block := crop m y (y + h) x (x + w)).
  destruct (zeros_shape size) as [Hzl Hzr].
  destruct (assign_block_shape (Segment.zeros size) oy ox block) as [Hal Har].
  split; [rewrite Hal; exact Hzl|]. split.
  { intros r Hr. rewrite Har by lia. apply Hzr, Hr. }
  intros r c.
  destruct (Nat.lt_ge_cases r (Z.to_nat size)) as [Hr|Hr];
  [destruct (Nat.lt_ge_cases c (Z.to_nat size)) as [Hc|Hc]|].
  - rewrite px_assign_block by (rewrite ?Hzl, ?Hzr; lia). cbv zeta.
    rewrite px_zeros.
    pose proof (crop_shape m y (y + h) x (x + w) (Z.to_nat (Z.of_nat r - oy))) as [Hbl Hbr'].
    fold block in Hbl, Hbr'.
    destruct ((oy <=? Z.of_nat r) && (Z.of_nat r <? oy + h) &&
              (ox <=? Z.of_nat c) && (Z.of_nat c <? ox + w)) eqn:Hwin.
    + repeat rewrite andb_true_iff in Hwin. rewrite !Z.leb_le, !Z.ltb_lt in Hwin.
      assert (Ei : Z.to_nat (y + Z.of_nat r - oy) = (Z.to_nat y + Z.to_nat (Z.of_nat r - oy))%nat) by lia.
      assert (Ej : Z.to_nat (x + Z.of_nat c - ox) = (Z.to_nat x + Z.to_nat (Z.of_nat c - ox))%nat) by lia.
      rewrite Ei, Ej.
      pose proof (px_crop m y (y + h) x (x + w) (Z.to_nat (Z.of_nat r - oy)) (Z.to_nat (Z.of_nat c - ox))) as Hc'.
      fold block in Hc'.
      replace (Nat.ltb (Z.to_nat (Z.of_nat r - oy)) (Z.to_nat (y + h - y))) with true in Hc'
        by (symmetry; apply Nat.ltb_lt; lia).
      replace (Nat.ltb (Z.to_nat (Z.of_nat c - ox)) (Z.to_nat (x + w - x))) with true in Hc'
        by (symmetry; apply Nat.ltb_lt; lia).
      simpl in Hc'. rewrite <- Hc'.
      rewrite (px_in_range block).
      destruct (Nat.ltb_spec (Z.to_nat (Z.of_nat r - oy)) (length block)) as [H1|H1];
      destruct (Nat.ltb_spec (Z.to_nat (Z.of_nat c - ox)) (length (nth (Z.to_nat (Z.of_nat r - oy)) block []))) as [H2|H2];
      simpl.
      * replace ((0 <=? Z.of_nat r - oy) && (Z.of_nat r - oy <? Z.of_nat (length block)) &&
                 (0 <=? Z.of_nat c - ox) &&
                 (Z.of_nat c - ox <? Z.of_nat (length (nth (Z.to_nat (Z.of_nat r - oy)) block []))))
          with true; [reflexivity|].
        symmetry. rewrite !andb_true_iff, !Z.leb_le, !Z.ltb_lt. lia.
      * replace ((0 <=? Z.of_nat r - oy) && (Z.of_nat r - oy <? Z.of_nat (length block)) &&
                 (0 <=? Z.of_nat c - ox) &&
                 (Z.of_nat c - ox <? Z.of_nat (length (nth (Z.to_nat (Z.of_nat r - oy)) block []))))
          with false; [reflexivity|].
        symmetry. rewrite !andb_false_iff, !Z.leb_gt, !Z.ltb_ge. lia.
      * replace ((0 <=? Z.of_nat r - oy) && (Z.of_nat r - oy <? Z.of_nat (length block)) &&
                 (0 <=? Z.of_nat c - ox) &&
                 (Z.of_nat c - ox <? Z.of_nat (length (nth (Z.to_nat (Z.of_nat r - oy)) block []))))
          with false; [reflexivity|].
        symmetry. rewrite !andb_false_iff, !Z.leb_gt, !Z.ltb_ge. lia.
      * replace ((0 <=? Z.of_nat r - oy) && (Z.of_nat r - oy <? Z.of_nat (length block)) &&
                 (0 <=? Z.of_nat c - ox) &&
                 (Z.of_nat c - ox <? Z.of_nat (length (nth (Z.to_nat (Z.of_nat r - oy)) block []))))
          with false; [reflexivity|].
        symmetry. rewrite !andb_false_iff, !Z.leb_gt, !Z.ltb_ge. lia.
    + replace ((0 <=? Z.of_nat r - oy) && (Z.of_nat r - oy <? Z.of_nat (length block)) &&
               (0 <=? Z.of_nat c - ox) &&
               (Z.of_nat c - ox <? Z.of_nat (length (nth (Z.to_nat (Z.of_nat r - oy)) block []))))
        with false; [reflexivity|].
      symmetry. rewrite !andb_false_iff, !Z.leb_gt, !Z.ltb_ge in *. lia.
  - rewrite px_out_of_range by (right; rewrite Har, Hzr by lia; lia).
    replace (Z.of_nat c <? ox + w) with false by (symmetry; apply Z.ltb_ge; lia).
    rewrite andb_false_r. reflexivity.
  - rewrite px_out_of_range by (left; rewrite Hal, Hzl; lia).
    replace (Z.of_nat r <? oy + h) with false by (symmetry; apply Z.ltb_ge; lia).
    rewrite andb_false_r, !andb_false_l. reflexivity.
Qed.

Lemma find_non_zero_rows (m : mask) :
  Segment.find_non_zero m = flat_map (row_points m) (seq 0 (length m)).
Proof. reflexivity. Qed.

Lemma flat_map_nil {A B} (g : A -> list B) (l : list A) :
  (forall a, In a l -> g a = []) -> flat_map g l = [].
Proof.
  induction l as [|a l IH]; intros H; [reflexivity|]. simpl.
  rewrite H by (left; reflexivity). apply IH. intros b Hb. apply H. right. exact Hb.
Qed.

Lemma flat_map_ext_in {A B} (f g : A -> list B) (l : list A) :
  (forall a, In a l -> f a = g a) -> flat_map f l = flat_map g l.
Proof.
  induction l as [|a l IH]; intros H; [reflexivity|]. simpl.
  rewrite H by (left; reflexivity). f_equal. apply IH. intros b Hb. apply H. right. exact Hb.
Qed.

Lemma map_flat_map' {A B C} (f : B -> C) (g : A -> list B) (l : list A) :
  map f (flat_map g l) = flat_map (fun a => map f (g a)) l.
Proof. induction l as [|a l IH]; [reflexivity|]. simpl. rewrite map_app, IH. reflexivity. Qed.

Lemma flat_map_seq_shift {B} (g : nat -> list B) (a k : nat) :
  flat_map g (seq a k) = flat_map (fun i => g (a + i)%nat) (seq 0 k).
Proof.
  induction k as [|k IH]; [reflexivity|].
  rewrite !seq_S, !flat_map_app, IH. simpl. reflexivity.
Qed.

(** A [flat_map] over [0, n) whose terms vanish outside [a, a + k) and at
    or beyond [n] is the [flat_map] over the window. *)
Lemma flat_map_seq_window {B} (g : nat -> list B) (n a k : nat) :
  (forall i, g i <> [] -> (a <= i < a + k)%nat) ->
  (forall i, (n <= i)%nat -> g i = []) ->
  flat_map g (seq 0 n) = flat_map g (seq a k).
Proof.
  intros Hwin Hend.
  set (N := Nat.max n (a + k)).
  assert (E1 : flat_map g (seq 0 n) = flat_map g (seq 0 N)).
  { replace N with (n + (N - n))%nat by lia. rewrite seq_app, flat_map_app.
    rewrite (flat_map_nil g (seq (0 + n) _)), app_nil_r; [reflexivity|].
    intros i Hi. apply in_seq in Hi. apply Hend. lia. }
  rewrite E1. replace N with (a + (k + (N - a - k)))%nat by lia.
  rewrite !seq_app, !flat_map_app.
  rewrite (flat_map_nil g (seq 0 a)).
  2:{ intros i Hi. apply in_seq in Hi. destruct (g i) eqn:E; [reflexivity|].
      exfalso. assert (Hne : g i <> []) by congruence. apply Hwin in Hne. lia. }
  rewrite (flat_map_nil g (seq (0 + a + k) _)).
  2:{ intros i Hi. apply in_seq in Hi. destruct (g i) eqn:E; [reflexivity|].
      exfalso. assert (Hne : g i <> []) by congruence. apply Hwin in Hne. lia. }
  rewrite app_nil_r. reflexivity.
Qed.

Lemma cell_nonempty (m : mask) (r c : nat) : cell m r c <> [] -> px m r c <> 0.
Proof. unfold cell. destruct (Z.eqb_spec (px m r c) 0); [congruence|auto]. Qed.

Lemma row_points_nonempty (m : mask) (r : nat) :
  row_points m r <> [] -> exists c, px m r c <> 0.
Proof.
  unfold row_points. intros H.
  destruct (flat_map (cell m r) (seq 0 (length (nth r m [])))) as [|p ps] eqn:E; [congruence|].
  assert (Hp : In p (flat_map (cell m r) (seq 0 (length (nth r m []))))) by (rewrite E; left; reflexivity).
  apply in_flat_map in Hp as [c [_ Hc]]. exists c. apply cell_nonempty. intros Hn. rewrite Hn in Hc. exact Hc.
Qed.

(** The row-major list of foreground points of a mask whose foreground lies
    in rows [a, a + k) and columns [b, b + l). *)
Lemma find_non_zero_window (m : mask) (a k b l : nat) :
  (forall r c, px m r c <> 0 -> (a <= r < a + k)%nat /\ (b <= c < b + l)%nat) ->
  Segment.find_non_zero m =
  flat_map (fun i => flat_map (fun j => cell m (a + i) (b + j)) (seq 0 l)) (seq 0 k).
Proof.
  intros Hbox. rewrite find_non_zero_rows.
  rewrite (flat_map_seq_window _ _ a k), flat_map_seq_shift.
  - apply flat_map_ext_in. intros i _. unfold row_points.
    rewrite (flat_map_seq_window _ _ b l), flat_map_seq_shift; [reflexivity| |].
    + intros c Hc. apply cell_nonempty in Hc. apply Hbox in Hc. lia.
    + intros c Hc. unfold cell. rewrite px_out_of_range by (right; exact Hc). reflexivity.
  - intros r Hr. apply row_points_nonempty in Hr as [c Hc]. apply Hbox in Hc. lia.
  - intros r Hr. unfold row_points. rewrite nth_overflow by exact Hr. reflexivity.
Qed.

Lemma extract_single_glyph_translation (m : mask) :
  exists dx dy,
    Segment.find_non_zero (Segment.extract_single_glyph m) =
    map (fun p : point => (fst p + dx, snd p + dy)) (Segment.find_non_zero m) /\
    forall p, In p (Segment.find_non_zero m) ->
      px (Segment.extract_single_glyph m) (Z.to_nat (snd p + dy)) (Z.to_nat (fst p + dx)) =
      px m (Z.to_nat (snd p)) (Z.to_nat (fst p)).
Proof.
  destruct (Segment.find_non_zero m) as [|p0 ps] eqn:E.
  - exists 0, 0. unfold Segment.extract_single_glyph. rewrite E. split; [rewrite E; reflexivity|].
    intros p [].
  - assert (Hne : Segment.find_non_zero m <> []) by congruence.
    destruct (bounding_rect (Segment.find_non_zero m)) as [[[x y] w] h] eqn:Hbr.
    destruct (find_non_zero_box m x y w h Hne Hbr) as (Hx & Hy & Hw & Hh & Hbox).
    pose proof (extract_single_glyph_pixel m x y w h Hne Hbr) as Hpix. cbv zeta in Hpix.
    set (size := Z.max w h + 20) in Hpix.
    set (ox := (size - w) / 2) in Hpix. set (oy := (size - h) / 2) in Hpix.
    destruct Hpix as (_ & _ & Hpix).
    assert (Hox : 0 <= ox /\ ox + w <= size).
    { unfold ox, size. split; [apply Z.div_pos; lia|].
      assert ((Z.max w h + 20 - w) / 2 <= Z.max w h + 20 - w) by (apply Z.div_le_upper_bound; lia). lia. }
    assert (Hoy : 0 <= oy /\ oy + h <= size).
    { unfold oy, size. split; [apply Z.div_pos; lia|].
      assert ((Z.max w h + 20 - h) / 2 <= Z.max w h + 20 - h) by (apply Z.div_le_upper_bound; lia). lia. }
    set (out := Segment.extract_single_glyph m) in *.
    exists (ox - x), (oy - y).
    assert (Hpin : forall i j, (i < Z.to_nat h)%nat -> (j < Z.to_nat w)%nat ->
              px out (Z.to_nat oy + i) (Z.to_nat ox + j) = px m (Z.to_nat y + i) (Z.to_nat x + j)).
    { intros i j Hi Hj. rewrite Hpix.
      replace ((oy <=? Z.of_nat (Z.to_nat oy + i)) && (Z.of_nat (Z.to_nat oy + i) <? oy + h) &&
               (ox <=? Z.of_nat (Z.to_nat ox + j)) && (Z.of_nat (Z.to_nat ox + j) <? ox + w))
        with true by (symmetry; rewrite !andb_true_iff, !Z.leb_le, !Z.ltb_lt; lia).
      f_equal; lia. }
    split.
    + rewrite <- E.
      rewrite (find_non_zero_window m (Z.to_nat y) (Z.to_nat h) (Z.to_nat x) (Z.to_nat w))
        by (intros r c Hrc; apply Hbox in Hrc; lia).
      rewrite (find_non_zero_window out (Z.to_nat oy) (Z.to_nat h) (Z.to_nat ox) (Z.to_nat w)).
      2:{ intros r c Hrc. rewrite Hpix in Hrc.
          destruct ((oy <=? Z.of_nat r) && (Z.of_nat r <? oy + h) &&
                    (ox <=? Z.of_nat c) && (Z.of_nat c <? ox + w)) eqn:Hw'; [|congruence].
          rewrite !andb_true_iff, !Z.leb_le, !Z.ltb_lt in Hw'. lia. }
      rewrite map_flat_map'. apply flat_map_ext_in. intros i Hi. apply in_seq in Hi.
      rewrite map_flat_map'. apply flat_map_ext_in. intros j Hj. apply in_seq in Hj.
      unfold cell. rewrite Hpin by lia.
      destruct (px m (Z.to_nat y + i) (Z.to_nat x + j) =? 0); [reflexivity|].
      simpl. f_equal. f_equal; lia.
    + intros p Hp. rewrite <- E in Hp. apply find_non_zero_sound in Hp as (H1 & H2 & H3).
      pose proof (Hbox _ _ H3) as Hb.
      rewrite Hpix.
      destruct ((oy <=? Z.of_nat (Z.to_nat (snd p + (oy - y)))) &&
                (Z.of_nat (Z.to_nat (snd p + (oy - y))) <? oy + h) &&
                (ox <=? Z.of_nat (Z.to_nat (fst p + (ox - x)))) &&
                (Z.of_nat (Z.to_nat (fst p + (ox - x))) <? ox + w)) eqn:Hw'.
      * rewrite !andb_true_iff, !Z.leb_le, !Z.ltb_lt in Hw'. f_equal; lia.
      * destruct (Z.eq_dec (px m (Z.to_nat (snd p)) (Z.to_nat (fst p))) 0) as [Z0|Z0]; [congruence|].
        apply Hbox in Z0. rewrite !andb_false_iff, !Z.leb_gt, !Z.ltb_ge in Hw'. lia.
Qed.

(** C9: an all-zero mask is returned unchanged; otherwise, with [(x, y, w, h)]
    the bounding box of the foreground, the output is a square of side
    [max w h + 20] holding the crop [m[y:y+h, x:x+w]] at offsets
    [((side - w) / 2, (side - h) / 2)] and zero elsewhere. *)
Theorem extract_single_glyph_spec (m : mask) :
  ((forall r c, px m r c = 0) -> Segment.extract_single_glyph m = m) /\
  (forall x y w h,
     (exists r c, px m r c <> 0) ->
     bounding_rect (Segment.find_non_zero m) = (x, y, w, h) ->
     let size := Z.max w h + 20 in
     let ox := (size - w) / 2 in
     let oy := (size - h) / 2 in
     let out := Segment.extract_single_glyph m in
     (forall r c, px m r c <> 0 -> y <= Z.of_nat r < y + h /\ x <= Z.of_nat c < x + w) /\
     length out = Z.to_nat size /\
     (forall r, (r < Z.to_nat size)%nat -> length (nth r out []) = Z.to_nat size) /\
     forall r c : nat,
       px out r c =
       if (oy <=? Z.of_nat r) && (Z.of_nat r <? oy + h) &&
          (ox <=? Z.of_nat c) && (Z.of_nat c <? ox + w)
       then px m (Z.to_nat (y + Z.of_nat r - oy)) (Z.to_nat (x + Z.of_nat c - ox))
       else 0).
Proof.
  split.
  - intros H. apply find_non_zero_nil in H. unfold Segment.extract_single_glyph. rewrite H. reflexivity.
  - intros x y w h [r [c Hrc]] Hbr.
    assert (Hne : Segment.find_non_zero m <> []).
    { intros E. apply find_non_zero_nil with (r := r) (c := c) in E. contradiction. }
    split; [apply (find_non_zero_box m x y w h Hne Hbr)|].
    apply (extract_single_glyph_pixel m x y w h Hne Hbr).
Qed.

(** C10: the extractor neither loses nor creates ink: the foreground points of
    the output are those of the input translated by one offset, with the same
    values in the same order, so the multiset of foreground values and the
    foreground pixel count are unchanged. *)
Theorem extract_single_glyph_preserves_ink (m : mask) :
  fg_values (Segment.extract_single_glyph m) = fg_values m /\
  Permutation (fg_values (Segment.extract_single_glyph m)) (fg_values m) /\
  length (Segment.find_non_zero (Segment.extract_single_glyph m)) =
  length (Segment.find_non_zero m) /\
  exists dx dy,
    Segment.find_non_zero (Segment.extract_single_glyph m) =
    map (fun p : point => (fst p + dx, snd p + dy)) (Segment.find_non_zero m).
Proof.
  destruct (extract_single_glyph_translation m) as (dx & dy & Hpts & Hval).
  assert (Hfg : fg_values (Segment.extract_single_glyph m) = fg_values m).
  { unfold fg_values. rewrite Hpts, map_map. apply map_ext_in. exact Hval. }
  split; [exact Hfg|]. split; [rewrite Hfg; reflexivity|].
  split; [rewrite Hpts, length_map; reflexivity|].
  exists dx, dy. exact Hpts.
Qed.

(** ** C5: the dot-merge pass *)

Lemma existsb_eqb_In (i : nat) (l : list nat) : existsb (Nat.eqb i) l = true <-> In i l.
Proof.
  rewrite existsb_exists. split.
  - intros [x [Hx E]]. apply Nat.eqb_eq in E. subst. exact Hx.
  - intros H. exists i. split; [exact H|apply Nat.eqb_refl].
Qed.

Lemma insert_by_perm {A} (key : A -> Z) (a : A) (l : list A) :
  Permutation (insert_by key a l) (a :: l).
Proof.
  induction l as [|b l IH]; simpl; [reflexivity|].
  destruct (key a <=? key b); [reflexivity|].
  rewrite IH. apply perm_swap.
Qed.

Lemma sort_by_perm {A} (key : A -> Z) (l : list A) : Permutation (sort_by key l) l.
Proof.
  induction l as [|a l IH]; simpl; [reflexivity|].
  rewrite insert_by_perm, IH. reflexivity.
Qed.

Lemma In_combine_seq {A} (l : list A) (s j : nat) (b d : A) :
  In (j, b) (combine (seq s (length l)) l) -> (s <= j)%nat /\ nth (j - s) l d = b.
Proof.
  revert s. induction l as [|a l IH]; intros s H; [destruct H|].
  simpl in H. destruct H as [E|H].
  - injection E as <- <-. rewrite Nat.sub_diag. split; [lia|reflexivity].
  - apply IH in H as [H1 H2]. split; [lia|].
    replace (j - s)%nat with (S (j - S s)) by lia. exact H2.
Qed.

Lemma In_indexed_by_y (boxes : list Segment.box) (j : nat) (b : Segment.box) :
  In (j, b) (Segment.indexed_by_y boxes) -> nth j boxes (0, 0, 0, 0) = b.
Proof.
  unfold Segment.indexed_by_y. intros H.
  apply (Permutation_in _ (sort_by_perm _ _)) in H.
  apply (In_combine_seq _ 0 _ _ (0, 0, 0, 0)) in H as [_ H]. rewrite Nat.sub_0_r in H. exact H.
Qed.

Lemma parent_inv_skip (med : Z) (used : list nat) (i : nat) (b1 : Segment.box)
    (seen : list (nat * Segment.box)) (st : option nat * option Z) (k : nat) (b2 : Segment.box) :
  ~ qualifies med used i b1 k b2 ->
  parent_inv med used i b1 seen st -> parent_inv med used i b1 (seen ++ [(k, b2)]) st.
Proof.
  intros Hn. destruct st as [[j|] [d|]]; simpl; try tauto.
  - intros (b & Hin & Hq & Hg & Hmin). exists b. split; [apply in_app_iff; left; exact Hin|].
    split; [exact Hq|]. split; [exact Hg|].
    intros k' bk' Hk' Hq'. apply in_app_iff in Hk' as [Hk'|[E|[]]].
    + eapply Hmin; eassumption.
    + injection E as <- <-. contradiction.
  - intros Hnone k' bk' Hk'. apply in_app_iff in Hk' as [Hk'|[E|[]]].
    + apply Hnone, Hk'.
    + injection E as <- <-. exact Hn.
Qed.

Lemma find_parent_spec (med : Z) (used : list nat) (indexed : list (nat * Segment.box)) (i : nat) (b1 : Segment.box) :
  match Segment.find_parent med used indexed i b1 with
  | Some j => exists b2, In (j, b2) indexed /\ qualifies med used i b1 j b2 /\
      forall k bk, In (k, bk) indexed -> qualifies med used i b1 k bk -> gap b1 b2 <= gap b1 bk
  | None => forall k bk, In (k, bk) indexed -> ~ qualifies med used i b1 k bk
  end.
Proof.
  destruct b1 as [[[x1 y1] w1] h1]. unfold Segment.find_parent.
  set (b1 := (x1, y1, w1, h1)).
  set (f := fun (st : option nat * option Z) (jb : nat * Segment.box) => _).
  assert (Hstep : forall seen st k b2, parent_inv med used i b1 seen st ->
            parent_inv med used i b1 (seen ++ [(k, b2)]) (f st (k, b2))).
  { intros seen st k [[[x2 y2] w2] h2] Hinv.
    set (b2 := (x2, y2, w2, h2)).
    assert (Hq : qualifies med used i b1 k b2 <->
              (Nat.eqb k i || existsb (Nat.eqb k) used) = false /\
              ((y2 >? y1) && Qltb (Qabs ((inject_Z x1 + inject_Z w1 / 2)
                                        - (inject_Z x2 + inject_Z w2 / 2))) (inject_Z w2)) = true /\
              Qltb (inject_Z (y2 - (y1 + h1))) (inject_Z med * (8 # 10)) = true).
    { unfold qualifies, box_center, gap, b1, b2; simpl.
      rewrite orb_false_iff, andb_true_iff, Nat.eqb_neq, Z.gtb_lt, !Qltb_true.
      rewrite <- (existsb_eqb_In k used). destruct (existsb (Nat.eqb k) used); intuition congruence. }
    unfold f. destruct st as [bp bd]. unfold b2 at 2. cbv beta iota.
    destruct (Nat.eqb k i || existsb (Nat.eqb k) used) eqn:E1.
    { apply parent_inv_skip; [|exact Hinv]. rewrite Hq. intros [H _]. congruence. }
    destruct ((y2 >? y1) && Qltb (Qabs ((inject_Z x1 + inject_Z w1 / 2)
                                       - (inject_Z x2 + inject_Z w2 / 2))) (inject_Z w2)) eqn:E2.
    2:{ apply parent_inv_skip; [|exact Hinv]. rewrite Hq. intros [_ [H _]]. congruence. }
    destruct (Qltb (inject_Z (y2 - (y1 + h1))) (inject_Z med * (8 # 10))) eqn:E3.
    2:{ apply parent_inv_skip; [|exact Hinv]. rewrite Hq. intros [_ [_ H]]. congruence. }
    assert (Hqk : qualifies med used i b1 k b2) by (apply Hq; auto).
    assert (Hgk : gap b1 b2 = y2 - (y1 + h1)) by reflexivity.
    simpl andb.
    destruct bp as [j|]; destruct bd as [d|]; simpl in Hinv |- *; try contradiction.
    - destruct (y2 - (y1 + h1) <? d) eqn:E4.
      + apply Z.ltb_lt in E4. destruct Hinv as (b & Hin & Hqb & Hgb & Hmin).
        exists b2. split; [apply in_app_iff; right; left; reflexivity|].
        split; [exact Hqk|]. split; [exact Hgk|].
        intros k' bk' Hk' Hq'. apply in_app_iff in Hk' as [Hk'|[E|[]]].
        * specialize (Hmin k' bk' Hk' Hq'). lia.
        * injection E as <- <-. lia.
      + apply Z.ltb_ge in E4. destruct Hinv as (b & Hin & Hqb & Hgb & Hmin).
        exists b. split; [apply in_app_iff; left; exact Hin|].
        split; [exact Hqb|]. split; [exact Hgb|].
        intros k' bk' Hk' Hq'. apply in_app_iff in Hk' as [Hk'|[E|[]]].
        * eapply Hmin; eassumption.
        * injection E as <- <-. lia.
    - exists b2. split; [apply in_app_iff; right; left; reflexivity|].
      split; [exact Hqk|]. split; [exact Hgk|].
      intros k' bk' Hk' Hq'. apply in_app_iff in Hk' as [Hk'|[E|[]]].
      + exfalso. exact (Hinv k' bk' Hk' Hq').
      + injection E as <- <-. lia. }
  assert (Hgen : forall l seen st, parent_inv med used i b1 seen st ->
            parent_inv med used i b1 (seen ++ l) (fold_left f l st)).
  { induction l as [|[k b2] l IH]; intros seen st Hinv; simpl.
    - rewrite app_nil_r. exact Hinv.
    - replace (seen ++ (k, b2) :: l) with ((seen ++ [(k, b2)]) ++ l) by (rewrite <- app_assoc; reflexivity).
      apply IH, Hstep, Hinv. }
  specialize (Hgen indexed [] (None, None)). simpl in Hgen.
  assert (H0 : parent_inv med used i b1 [] (None, None)) by (intros k bk []).
  specialize (Hgen H0).
  destruct (fold_left f indexed (None, None)) as [[j|] [d|]]; simpl in Hgen |- *; try contradiction.
  - destruct Hgen as (b & Hin & Hqb & Hgb & Hmin). exists b. split; [exact Hin|]. split; [exact Hqb|].
    intros k bk Hk Hq. rewrite Hgb. eapply Hmin; eassumption.
  - exact Hgen.
Qed.

Lemma merge_step_spec (boxes : list Segment.box) (med : Z) (merged : list Segment.box) (used : list nat)
    (i : nat) (b1 : Segment.box) :
  In (i, b1) (Segment.indexed_by_y boxes) ->
  dot_merge_step_spec med (Segment.indexed_by_y boxes) (merged, used)
    (Segment.merge_step boxes med (Segment.indexed_by_y boxes) (merged, used) (i, b1)) i b1.
Proof.
  intros Hi. destruct b1 as [[[x1 y1] w1] h1]. unfold dot_merge_step_spec, Segment.merge_step.
  cbv beta iota zeta.
  destruct (existsb (Nat.eqb i) used) eqn:Eu.
  { left. split; [apply existsb_eqb_In; exact Eu | reflexivity]. }
  assert (Hnu : ~ In i used) by (rewrite <- existsb_eqb_In; congruence).
  right.
  destruct (Qltb (inject_Z h1) (inject_Z med * (4 # 10)) &&
            Qltb (inject_Z w1) (inject_Z med * (4 # 10))) eqn:Es.
  - assert (Hs : small_box med (x1, y1, w1, h1)).
    { apply andb_true_iff in Es as [E1 E2]. apply Qltb_true in E1, E2. split; assumption. }
    pose proof (find_parent_spec med used (Segment.indexed_by_y boxes) i (x1, y1, w1, h1)) as Hp.
    destruct (Segment.find_parent med used (Segment.indexed_by_y boxes) i (x1, y1, w1, h1)) as [j|] eqn:Ep.
    + destruct Hp as (b2 & Hin & Hq & Hmin). left. split; [exact Hnu|].
      exists j, b2. split; [exact Hin|]. split; [exact Hs|]. split; [exact Hq|].
      split; [exact Hmin|].
      rewrite (In_indexed_by_y boxes j b2 Hin). destruct b2 as [[[x2 y2] w2] h2]. reflexivity.
    + right. split; [exact Hnu|]. split; [right; exact Hp|]. reflexivity.
  - right. split; [exact Hnu|]. split.
    + left. intros [E1 E2]. simpl in E1, E2. apply Qltb_true in E1, E2. rewrite E1, E2 in Es. discriminate.
    + reflexivity.
Qed.

Lemma merge_close_bboxes_fold (boxes : list Segment.box) :
  Segment.indexed_by_y boxes <> [] ->
  Segment.merge_close_bboxes boxes =
  fst (fold_left (Segment.merge_step boxes (Segment.median (map Segment.bx_h boxes)) (Segment.indexed_by_y boxes))
                 (Segment.indexed_by_y boxes) ([], [])).
Proof. destruct boxes as [|b0 bs]; [intros H; contradiction H; reflexivity | reflexivity]. Qed.

(** C5 (code_bug): the partner test of the dot-merge pass compares the
    distance between the horizontal centers with the parent's full width,
    so the center may lie up to one width beyond either edge of the parent.
    On the boxes [(0, 20, 10, 30)] (parent, spanning x = 0 .. 10) and
    [(12, 10, 4, 4)] (dot, spanning x = 12 .. 16, center 14) the dot is
    small, the parent lies below it within the gap limit, and
    [merge_close_bboxes] merges the two into their union, although the dot's
    center lies outside the parent's width and the two boxes do not even
    overlap horizontally ("Parent should be below and horizontally
    overlapping", segment.py line 118). *)
Lemma dot_merged_outside_parent_span :
  let parent : Segment.box := (0, 20, 10, 30) in
  let dot : Segment.box := (12, 10, 4, 4) in
  Segment.merge_close_bboxes [parent; dot] = [union_box dot parent] /\
  union_box dot parent = (0, 10, 16, 40) /\
  small_box (Segment.median (map Segment.bx_h [parent; dot])) dot /\
  (inject_Z (Segment.bx_x parent + Segment.bx_w parent) < box_center dot)%Q /\
  Segment.bx_x parent + Segment.bx_w parent < Segment.bx_x dot.
Proof.
  split; [vm_compute; reflexivity|]. split; [reflexivity|]. split.
  - split; vm_compute; reflexivity.
  - split; [vm_compute; reflexivity | vm_compute; reflexivity].
Qed.

(** ** C8: removal of small components *)

Lemma NoDup_flat_map_seq {B} (key : B -> nat) (g : nat -> list B) (s n : nat) :
  (forall r, NoDup (g r)) -> (forall r b, In b (g r) -> key b = r) ->
  NoDup (flat_map g (seq s n)).
Proof.
  intros Hnd Hkey. induction n as [|n IH]; [constructor|].
  rewrite seq_S, flat_map_app. simpl. rewrite app_nil_r.
  apply NoDup_app; [exact IH|apply Hnd|].
  intros b Hb Hb'. apply in_flat_map in Hb as [r [Hr Hb]]. apply in_seq in Hr.
  apply Hkey in Hb, Hb'. lia.
Qed.

Lemma pixels_with_label_NoDup (labels : list (list nat)) (i : nat) :
  NoDup (pixels_with_label labels i).
Proof.
  unfold pixels_with_label. apply (NoDup_flat_map_seq fst).
  - intros r. apply (NoDup_flat_map_seq snd).
    + intros c. destruct (Nat.eqb _ i); repeat constructor. intros [].
    + intros c b Hb. destruct (Nat.eqb _ i); [destruct Hb as [<-|[]]; reflexivity | destruct Hb].
  - intros r b Hb. apply in_flat_map in Hb as [c [_ Hb]].
    destruct (Nat.eqb _ i); [destruct Hb as [<-|[]]; reflexivity | destruct Hb].
Qed.

Lemma In_pixels_with_label (labels : list (list nat)) (i : nat) (r c : nat) :
  (1 <= i)%nat ->
  In (r, c) (pixels_with_label labels i) <-> Preprocess.lab labels r c = i.
Proof.
  intros Hi. unfold pixels_with_label. rewrite in_flat_map. split.
  - intros [r' [_ H]]. apply in_flat_map in H as [c' [_ H]].
    destruct (Nat.eqb_spec (Preprocess.lab labels r' c') i); [|destruct H].
    destruct H as [E|[]]. injection E as <- <-. assumption.
  - intros H. exists r.
    assert (Hr : (r < length labels)%nat /\ (c < length (nth r labels []))%nat).
    { unfold Preprocess.lab in H.
      destruct (Nat.lt_ge_cases r (length labels)) as [Hr|Hr].
      - split; [exact Hr|]. destruct (Nat.lt_ge_cases c (length (nth r labels []))) as [Hc|Hc]; [exact Hc|].
        rewrite nth_overflow in H by exact Hc. lia.
      - rewrite (nth_overflow labels (n := r)) in H by exact Hr. destruct c; simpl in H; lia. }
    split; [apply in_seq; lia|]. apply in_flat_map. exists c. split; [apply in_seq; lia|].
    rewrite H, Nat.eqb_refl. left. reflexivity.
Qed.

Lemma length_flat_map_if {A B} (P : A -> bool) (x : A -> B) (l : list A) :
  length (flat_map (fun a => if P a then [x a] else []) l) = length (filter P l).
Proof. induction l as [|a l IH]; [reflexivity|]. simpl. destruct (P a); simpl; rewrite IH; reflexivity. Qed.

Lemma map_nth_seq_self {A} (l : list A) (d : A) : map (fun k => nth k l d) (seq 0 (length l)) = l.
Proof.
  induction l as [|a l IH]; [reflexivity|]. simpl. f_equal.
  rewrite <- seq_shift, map_map. exact IH.
Qed.

Lemma length_filter_map {A B} (P : B -> bool) (f : A -> B) (l : list A) :
  length (filter P (map f l)) = length (filter (fun a => P (f a)) l).
Proof. induction l as [|a l IH]; [reflexivity|]. simpl. destruct (P (f a)); simpl; rewrite IH; reflexivity. Qed.

Lemma length_filter_concat {A} (P : A -> bool) (L : list (list A)) :
  length (filter P (concat L)) = list_sum (map (fun row => length (filter P row)) L).
Proof.
  induction L as [|row L IH]; [reflexivity|]. simpl.
  rewrite filter_app, length_app, IH. reflexivity.
Qed.

Lemma label_area_pixels (labels : list (list nat)) (i : nat) :
  Preprocess.label_area labels i = Z.of_nat (length (pixels_with_label labels i)).
Proof.
  unfold Preprocess.label_area, pixels_with_label. f_equal.
  rewrite length_flat_map, length_filter_concat.
  rewrite <- (map_nth_seq_self labels []) at 1. rewrite map_map.
  f_equal. apply map_ext. intros r. unfold Preprocess.lab.
  rewrite (length_flat_map_if (fun c => Nat.eqb (nth c (nth r labels []) 0%nat) i) (fun c => (r, c))).
  rewrite <- (map_nth_seq_self (nth r labels []) 0%nat) at 1.
  rewrite length_filter_map. f_equal. apply filter_ext. intros c. apply Nat.eqb_sym.
Qed.

Lemma set_label_shape (res : mask) (labels : list (list nat)) (i : nat) :
  same_shape (Preprocess.set_label res labels i) res.
Proof.
  unfold Preprocess.set_label. split; [rewrite length_map, length_seq; reflexivity|].
  intros r. destruct (Nat.lt_ge_cases r (length res)) as [Hr|Hr].
  - rewrite nth_map_seq by exact Hr. rewrite length_map, length_seq. reflexivity.
  - rewrite !nth_overflow by (rewrite ?length_map, ?length_seq; exact Hr). reflexivity.
Qed.

Lemma px_set_label (res : mask) (labels : list (list nat)) (i r c : nat) :
  (r < length res)%nat -> (c < length (nth r res []))%nat ->
  px (Preprocess.set_label res labels i) r c =
  if Nat.eqb (Preprocess.lab labels r c) i then 255 else px res r c.
Proof.
  intros Hr Hc. unfold px at 1, Preprocess.set_label.
  rewrite nth_map_seq by exact Hr. rewrite nth_map_seq by exact Hc. reflexivity.
Qed.

Lemma zeros_like_shape (m : mask) : same_shape (map (map (fun _ => 0)) m) m.
Proof.
  split; [apply length_map|]. intros r.
  rewrite (nth_map_default (map (fun _ : Z => 0)) m [] [] r) by reflexivity. apply length_map.
Qed.

Lemma px_zeros_like (m : mask) (r c : nat) : px (map (map (fun _ => 0)) m) r c = 0.
Proof.
  unfold px. rewrite (nth_map_default (map (fun _ : Z => 0)) m [] [] r) by reflexivity.
  rewrite (nth_map_default (fun _ : Z => 0) _ 0 0 c) by reflexivity. reflexivity.
Qed.

Lemma remove_small_components_fold (m : mask) (labels : list (list nat)) (min_area : Z) (k : nat) :
  let res := fold_left (fun res i =>
                          if Preprocess.label_area labels i >=? min_area
                          then Preprocess.set_label res labels i else res)
                       (seq 1 k) (map (map (fun _ => 0)) m) in
  same_shape res m /\
  forall r c, px res r c =
    if Nat.ltb r (length m) && Nat.ltb c (length (nth r m [])) &&
       Nat.leb 1 (Preprocess.lab labels r c) && Nat.ltb (Preprocess.lab labels r c) (1 + k) &&
       (Preprocess.label_area labels (Preprocess.lab labels r c) >=? min_area)
    then 255 else 0.
Proof.
  induction k as [|k IH]; cbv zeta.
  - split; [apply zeros_like_shape|]. intros r c. cbn [seq fold_left]. rewrite px_zeros_like.
    destruct (Nat.leb_spec 1 (Preprocess.lab labels r c));
    destruct (Nat.ltb_spec (Preprocess.lab labels r c) (1 + 0)); try lia;
    rewrite ?andb_false_r, ?andb_false_l; reflexivity.
  - rewrite seq_S, fold_left_app. cbv zeta in IH. destruct IH as [[Hl Hrow] Hpx].
    set (res := fold_left _ (seq 1 k) _) in *. cbn [fold_left].
    destruct (Preprocess.label_area labels (1 + k) >=? min_area) eqn:Ea.
    + destruct (set_label_shape res labels (1 + k)) as [Hl' Hrow'].
      split; [split; [rewrite Hl'; exact Hl|intros r; rewrite Hrow'; apply Hrow]|].
      intros r c.
      destruct (Nat.ltb_spec r (length m)) as [Hr|Hr];
      [destruct (Nat.ltb_spec c (length (nth r m []))) as [Hc|Hc]|].
      * rewrite px_set_label by (rewrite ?Hl, ?Hrow; assumption). rewrite Hpx.
        destruct (Nat.ltb_spec r (length m)); [|lia].
        destruct (Nat.ltb_spec c (length (nth r m []))); [|lia]. rewrite !andb_true_l.
        destruct (Nat.eqb_spec (Preprocess.lab labels r c) (1 + k)) as [E|E].
        -- rewrite E, Ea. replace (Nat.leb 1 (1 + k)) with true by (symmetry; apply Nat.leb_le; lia).
           replace (Nat.ltb (1 + k) (1 + S k)) with true by (symmetry; apply Nat.ltb_lt; lia).
           reflexivity.
        -- replace (Nat.ltb (Preprocess.lab labels r c) (1 + S k))
             with (Nat.ltb (Preprocess.lab labels r c) (1 + k)); [reflexivity|].
           destruct (Nat.ltb_spec (Preprocess.lab labels r c) (1 + k));
           destruct (Nat.ltb_spec (Preprocess.lab labels r c) (1 + S k)); lia.
      * rewrite px_out_of_range by (right; rewrite (proj2 (set_label_shape res labels (1 + k))), Hrow; exact Hc).
        destruct (Nat.ltb_spec c (length (nth r m []))); [lia|]. rewrite andb_false_r. reflexivity.
      * rewrite px_out_of_range by (left; rewrite Hl', Hl; exact Hr).
        destruct (Nat.ltb_spec r (length m)); [lia|]. reflexivity.
    + split; [split; assumption|]. intros r c. rewrite Hpx.
      destruct (Nat.eqb_spec (Preprocess.lab labels r c) (1 + k)) as [E|E].
      * rewrite E, Ea, !andb_false_r. reflexivity.
      * replace (Nat.ltb (Preprocess.lab labels r c) (1 + S k))
          with (Nat.ltb (Preprocess.lab labels r c) (1 + k)); [reflexivity|].
        destruct (Nat.ltb_spec (Preprocess.lab labels r c) (1 + k));
        destruct (Nat.ltb_spec (Preprocess.lab labels r c) (1 + S k)); lia.
Qed.

Lemma remove_small_components_pixel `{Cv2} (m : mask) (min_area : Z) (r c : nat) :
  Preprocess.labeling_ok m (fst (connectedComponents8 m)) (snd (connectedComponents8 m)) ->
  px (Preprocess.remove_small_components m min_area) r c =
  if px m r c =? 0 then 0
  else if Preprocess.label_area (snd (connectedComponents8 m))
            (Preprocess.lab (snd (connectedComponents8 m)) r c) >=? min_area
       then 255 else 0.
Proof.
  unfold Preprocess.remove_small_components.
  destruct (connectedComponents8 m) as [n labels]. simpl fst; simpl snd.
  intros (H0 & H1 & _).
  destruct (remove_small_components_fold m labels min_area (n - 1)) as [_ Hpx].
  cbv zeta in Hpx. rewrite Hpx.
  destruct (Z.eqb_spec (px m r c) 0) as [E|E].
  - rewrite (H0 r c E). rewrite andb_false_r, andb_false_l. reflexivity.
  - destruct (H1 r c E) as [Hl Hu]. destruct (px_nonzero_in_range m r c E) as [Hr Hc].
    destruct (Nat.ltb_spec r (length m)); [|lia].
    destruct (Nat.ltb_spec c (length (nth r m []))); [|lia].
    destruct (Nat.leb_spec 1 (Preprocess.lab labels r c)); [|lia].
    destruct (Nat.ltb_spec (Preprocess.lab labels r c) (1 + (n - 1))); [|lia].
    reflexivity.
Qed.

Lemma reach_fg (m : mask) (p q : nat * nat) :
  Preprocess.reach m p q -> Preprocess.fg m p /\ Preprocess.fg m q.
Proof.
  intros H. induction H as [Hp|q q' Hr [Hp Hq] Hadj Hq']; [split; exact Hp|split; assumption].
Qed.

Lemma reach_transfer (m m' : mask) (p q : nat * nat) :
  Preprocess.reach m p q ->
  (forall z, Preprocess.reach m p z -> Preprocess.fg m' z) ->
  Preprocess.reach m' p q.
Proof.
  intros H Hall. induction H as [Hp|q q' Hr IH Hadj Hq'].
  - apply Preprocess.reach_refl, Hall, Preprocess.reach_refl, Hp.
  - apply (Preprocess.reach_step _ _ q); [exact IH|exact Hadj|].
    apply Hall. apply (Preprocess.reach_step _ _ q); assumption.
Qed.

(** Under the labelling contract, the component of a foreground pixel is the
    set of pixels carrying its label. *)
Lemma reach_iff_label (m : mask) (n : nat) (labels : list (list nat)) (p q : nat * nat) :
  Preprocess.labeling_ok m n labels -> Preprocess.fg m p ->
  Preprocess.reach m p q <->
  Preprocess.lab labels (fst q) (snd q) = Preprocess.lab labels (fst p) (snd p).
Proof.
  intros (H0 & H1 & H2) Hp. split.
  - intros Hr. destruct (reach_fg m p q Hr) as [_ Hq]. symmetry. apply H2; assumption.
  - intros E. assert (Hq : Preprocess.fg m q).
    { unfold Preprocess.fg. intros Z0. apply H0 in Z0.
      destruct (H1 _ _ Hp) as [Hl _]. lia. }
    apply H2; [exact Hp|exact Hq|symmetry; exact E].
Qed.

Lemma component_area_ge_label (m : mask) (n : nat) (labels : list (list nat)) (p : nat * nat) (k : nat) :
  Preprocess.labeling_ok m n labels -> Preprocess.fg m p ->
  Preprocess.component_area_ge m p k <->
  (k <= length (pixels_with_label labels (Preprocess.lab labels (fst p) (snd p))))%nat.
Proof.
  intros Hok Hp.
  assert (Hl : (1 <= Preprocess.lab labels (fst p) (snd p))%nat) by apply (proj1 (proj2 Hok) _ _ Hp).
  split.
  - intros (l & Hnd & Hlen & Hall). etransitivity; [exact Hlen|].
    apply NoDup_incl_length; [exact Hnd|]. intros [r c] Hq.
    rewrite Forall_forall in Hall. apply Hall in Hq.
    apply (reach_iff_label m n labels p (r, c) Hok Hp) in Hq.
    apply In_pixels_with_label; [exact Hl|exact Hq].
  - intros Hk. exists (pixels_with_label labels (Preprocess.lab labels (fst p) (snd p))).
    split; [apply pixels_with_label_NoDup|]. split; [exact Hk|].
    apply Forall_forall. intros [r c] Hq. apply In_pixels_with_label in Hq; [|exact Hl].
    apply (reach_iff_label m n labels p (r, c) Hok Hp). exact Hq.
Qed.

(** C8: under the contract of [cv2.connectedComponentsWithStats] on the
    cleaned binary mask, the mask [preprocess] returns has no 8-connected
    foreground component of fewer than 50 pixels; a foreground pixel of the
    cleaned mask is kept (255) exactly when its component has at least 50
    pixels and zeroed otherwise, and no background pixel becomes foreground. *)
Theorem preprocess_no_small_components `{Cv2} (img : image) :
  let cleaned := morphClose_3 (adaptiveThreshold_inv (gaussianBlur_5 (cvtColor_gray img))) in
  let out := Preprocess.preprocess img in
  Preprocess.labeling_ok cleaned (fst (connectedComponents8 cleaned)) (snd (connectedComponents8 cleaned)) ->
  (forall p, Preprocess.fg out p -> Preprocess.component_area_ge out p 50) /\
  (forall p, Preprocess.fg cleaned p -> Preprocess.component_area_ge cleaned p 50 ->
     px out (fst p) (snd p) = 255) /\
  (forall p, Preprocess.fg cleaned p -> ~ Preprocess.component_area_ge cleaned p 50 ->
     px out (fst p) (snd p) = 0) /\
  (forall p, ~ Preprocess.fg cleaned p -> px out (fst p) (snd p) = 0).
Proof.
  intros cleaned out Hok.
  assert (Hout : out = Preprocess.remove_small_components cleaned 50) by reflexivity.
  clearbody out. subst out.
  set (labels := snd (connectedComponents8 cleaned)) in *.
  set (n := fst (connectedComponents8 cleaned)) in *.
  pose proof (fun r c => remove_small_components_pixel cleaned 50 r c Hok) as Hpx.
  fold labels in Hpx.
  assert (Hkept : forall p, Preprocess.fg cleaned p ->
            Preprocess.component_area_ge cleaned p 50 <->
            Preprocess.label_area labels (Preprocess.lab labels (fst p) (snd p)) >= 50).
  { intros p Hp. rewrite (component_area_ge_label cleaned n labels p 50 Hok Hp), label_area_pixels. lia. }
  split; [|split; [|split]].
  - intros p Hp. unfold Preprocess.fg in Hp. rewrite Hpx in Hp.
    destruct (Z.eqb_spec (px cleaned (fst p) (snd p)) 0) as [E|E]; [contradiction|].
    destruct (Z.geb_spec (Preprocess.label_area labels (Preprocess.lab labels (fst p) (snd p))) 50) as [Ea|Ea];
      [|contradiction].
    assert (Hpc : Preprocess.fg cleaned p) by exact E.
    destruct (proj2 (Hkept p Hpc) (Z.le_ge _ _ Ea)) as (l & Hnd & Hlen & Hall).
    exists l. split; [exact Hnd|]. split; [exact Hlen|].
    eapply Forall_impl; [|exact Hall]. intros q Hq. apply (reach_transfer cleaned); [exact Hq|].
    intros z Hz. unfold Preprocess.fg. rewrite Hpx.
    destruct (reach_fg cleaned p z Hz) as [_ Hzf].
    apply (reach_iff_label cleaned n labels p z Hok Hpc) in Hz.
    destruct (Z.eqb_spec (px cleaned (fst z) (snd z)) 0) as [E'|E']; [contradiction|].
    rewrite Hz. destruct (Z.geb_spec (Preprocess.label_area labels (Preprocess.lab labels (fst p) (snd p))) 50);
      [discriminate|lia].
  - intros p Hp Hc. rewrite Hpx.
    destruct (Z.eqb_spec (px cleaned (fst p) (snd p)) 0) as [E|E]; [contradiction|].
    apply (Hkept p Hp) in Hc.
    destruct (Z.geb_spec (Preprocess.label_area labels (Preprocess.lab labels (fst p) (snd p))) 50);
      [reflexivity|lia].
  - intros p Hp Hc. rewrite Hpx.
    destruct (Z.eqb_spec (px cleaned (fst p) (snd p)) 0) as [E|E]; [reflexivity|].
    destruct (Z.geb_spec (Preprocess.label_area labels (Preprocess.lab labels (fst p) (snd p))) 50) as [Ea|Ea];
      [|reflexivity].
    exfalso. apply Hc, (Hkept p Hp). lia.
  - intros p Hp. rewrite Hpx.
    destruct (Z.eqb_spec (px cleaned (fst p) (snd p)) 0) as [E|E]; [reflexivity|].
    contradiction.
Qed.

(** ** segment.py: reading order and merging of boxes *)

Lemma group_lines_fold (thr : Q) (rest : list Segment.box) :
  forall lines cur y,
  let '(lines', cur', _) :=
    fold_left
      (fun (st : list (list Segment.box) * list Segment.box * Z) (b : Segment.box) =>
         let '(lines, current_line, current_y) := st in
         if Qltb (inject_Z (Z.abs (Segment.bx_y b - current_y))) thr
         then (lines, current_line ++ [b], current_y)
         else (lines ++ [current_line], [b], Segment.bx_y b))
      rest (lines, cur, y) in
  concat lines' ++ cur' = concat lines ++ cur ++ rest.
Proof.
  induction rest as [|b rest IH]; intros lines cur y; simpl.
  - rewrite app_nil_r. reflexivity.
  - destruct (Qltb _ thr).
    + specialize (IH lines (cur ++ [b]) y). destruct (fold_left _ rest _) as [[l' c'] y'].
      rewrite IH, <- app_assoc. reflexivity.
    + specialize (IH (lines ++ [cur]) [b] (Segment.bx_y b)). destruct (fold_left _ rest _) as [[l' c'] y'].
      rewrite IH, concat_app. simpl. rewrite app_nil_r, <- !app_assoc. reflexivity.
Qed.

Lemma group_lines_concat (thr : Q) (first : Segment.box) (rest : list Segment.box) :
  concat (Segment.group_lines thr first rest) = first :: rest.
Proof.
  unfold Segment.group_lines.
  pose proof (group_lines_fold thr rest [] [first] (Segment.bx_y first)) as H.
  destruct (fold_left _ rest _) as [[l' c'] y']. rewrite concat_app. simpl.
  rewrite app_nil_r, H. reflexivity.
Qed.

Lemma concat_map_perm {A} (f : list A -> list A) (L : list (list A)) :
  (forall l, Permutation (f l) l) -> Permutation (concat (map f L)) (concat L).
Proof.
  intros Hf. induction L as [|l L IH]; simpl; [reflexivity|].
  apply Permutation_app; [apply Hf|exact IH].
Qed.

(** X1: [sort_reading_order] returns a permutation of the boxes it is given: grouping into lines and sorting each line by x loses, duplicates and invents no box. *)
Theorem sort_reading_order_perm (bboxes : list Segment.box) :
  Permutation (Segment.sort_reading_order bboxes) bboxes.
Proof.
  unfold Segment.sort_reading_order. destruct bboxes as [|b bs]; [reflexivity|].
  cbv zeta. pose proof (sort_by_perm Segment.bx_y (b :: bs)) as Hp.
  destruct (sort_by Segment.bx_y (b :: bs)) as [|first rest].
  - apply Permutation_nil in Hp. discriminate.
  - rewrite concat_map_perm by (intros; apply sort_by_perm).
    rewrite group_lines_concat. exact Hp.
Qed.

(* merge_close_bboxes *)
Lemma In_indexed_by_y_lt (boxes : list Segment.box) (j : nat) (b : Segment.box) :
  In (j, b) (Segment.indexed_by_y boxes) -> (j < length boxes)%nat.
Proof.
  unfold Segment.indexed_by_y. intros H.
  apply (Permutation_in _ (sort_by_perm _ _)) in H.
  apply in_combine_l in H. apply in_seq in H. lia.
Qed.

Lemma union_box_within (b1 b2 : Segment.box) :
  box_within b1 (union_box b1 b2) /\ box_within b2 (union_box b1 b2).
Proof.
  destruct b1 as [[[x1 y1] w1] h1], b2 as [[[x2 y2] w2] h2].
  unfold box_within, union_box; simpl; lia.
Qed.

Lemma box_within_refl (b : Segment.box) : box_within b b.
Proof. unfold box_within; lia. Qed.

Lemma merge_inv_step (boxes : list Segment.box) (med : Z) done st i b1 :
  In (i, b1) (Segment.indexed_by_y boxes) ->
  merge_inv boxes done st ->
  merge_inv boxes (done ++ [(i, b1)])
    (Segment.merge_step boxes med (Segment.indexed_by_y boxes) st (i, b1)).
Proof.
  intros Hin Hinv. destruct st as [merged used].
  pose proof (merge_step_spec boxes med merged used i b1 Hin) as Hs.
  pose proof (In_indexed_by_y boxes i b1 Hin) as Hb1.
  pose proof (In_indexed_by_y_lt boxes i b1 Hin) as Hi.
  destruct (Segment.merge_step boxes med (Segment.indexed_by_y boxes) (merged, used) (i, b1))
    as [merged' used'].
  destruct Hinv as (Hnd & Hlt & Hlen & Hdone & Hcov).
  assert (Hold : forall k, In k used -> exists B, In B (merged ++ [ ]) /\ box_within (nth k boxes (0, 0, 0, 0)) B)
    by (intros; rewrite app_nil_r; auto).
  destruct Hs as [[Hu E]|[(Hnu & j & b2 & Hj & _ & Hq & _ & E)|(Hnu & _ & E)]];
    injection E as -> ->.
  - split; [exact Hnd|]. split; [exact Hlt|]. split; [exact Hlen|]. split; [|exact Hcov].
    intros ib Hib. apply in_app_iff in Hib as [Hib|[<-|[]]]; [auto|exact Hu].
  - destruct Hq as (Hji & Hju & _).
    pose proof (In_indexed_by_y boxes j b2 Hj) as Hb2.
    pose proof (In_indexed_by_y_lt boxes j b2 Hj) as Hjl.
    destruct (union_box_within b1 b2) as [W1 W2].
    split; [constructor; [intros [E|E]; [congruence|contradiction]|constructor; assumption]|].
    split; [intros k [<-|[<-|Hk]]; auto|].
    split; [rewrite length_app; simpl; lia|].
    split.
    { intros ib Hib. apply in_app_iff in Hib as [Hib|[<-|[]]]; simpl; [right; right; auto|right; left; reflexivity]. }
    intros k [<-|[<-|Hk]].
    + exists (union_box b1 b2). split; [apply in_app_iff; right; left; reflexivity|]. rewrite Hb2. exact W2.
    + exists (union_box b1 b2). split; [apply in_app_iff; right; left; reflexivity|]. rewrite Hb1. exact W1.
    + destruct (Hcov k Hk) as (B & HB & HW). exists B. split; [apply in_app_iff; left; exact HB|exact HW].
  - split; [constructor; assumption|].
    split; [intros k [<-|Hk]; auto|].
    split; [rewrite length_app; simpl; lia|].
    split.
    { intros ib Hib. apply in_app_iff in Hib as [Hib|[<-|[]]]; simpl; [right; auto|left; reflexivity]. }
    intros k [<-|Hk].
    + exists b1. split; [apply in_app_iff; right; left; reflexivity|]. rewrite Hb1. apply box_within_refl.
    + destruct (Hcov k Hk) as (B & HB & HW). exists B. split; [apply in_app_iff; left; exact HB|exact HW].
Qed.

Lemma merge_inv_fold (boxes : list Segment.box) (med : Z) :
  forall l done st,
  (forall ib, In ib l -> In ib (Segment.indexed_by_y boxes)) ->
  merge_inv boxes done st ->
  merge_inv boxes (done ++ l) (fold_left (Segment.merge_step boxes med (Segment.indexed_by_y boxes)) l st).
Proof.
  induction l as [|[i b1] l IH]; intros done st Hl Hinv; simpl.
  - rewrite app_nil_r. exact Hinv.
  - replace (done ++ (i, b1) :: l) with ((done ++ [(i, b1)]) ++ l) by (rewrite <- app_assoc; reflexivity).
    apply IH; [intros; apply Hl; right; assumption|].
    apply merge_inv_step; [apply Hl; left; reflexivity|exact Hinv].
Qed.

Lemma merge_close_bboxes_inv (boxes : list Segment.box) :
  boxes <> [] ->
  exists used, merge_inv boxes (Segment.indexed_by_y boxes) (Segment.merge_close_bboxes boxes, used).
Proof.
  intros Hne.
  assert (Hne' : Segment.indexed_by_y boxes <> []).
  { unfold Segment.indexed_by_y. intros E.
    pose proof (sort_by_perm (fun t : nat * Segment.box => Segment.bx_y (snd t))
                  (combine (seq 0 (length boxes)) boxes)) as P.
    rewrite E in P. apply Permutation_nil in P.
    destruct boxes; [contradiction|discriminate]. }
  rewrite (merge_close_bboxes_fold boxes Hne').
  pose proof (merge_inv_fold boxes (Segment.median (map Segment.bx_h boxes))
                (Segment.indexed_by_y boxes) [] ([], []) (fun ib H => H)) as H.
  destruct (fold_left _ _ _) as [merged used]. exists used. apply H.
  repeat split; simpl; try tauto; try constructor.
Qed.

Lemma In_combine_seq_nth {A} (l : list A) (s k : nat) (d : A) :
  (k < length l)%nat -> In ((s + k)%nat, nth k l d) (combine (seq s (length l)) l).
Proof.
  revert s k. induction l as [|a l IH]; intros s k Hk; [simpl in Hk; lia|].
  destruct k as [|k]; simpl; [left; rewrite Nat.add_0_r; reflexivity|].
  right. replace (s + S k)%nat with (S s + k)%nat by lia. apply IH. simpl in Hk. lia.
Qed.

Lemma In_indexed_by_y_nth (boxes : list Segment.box) (k : nat) :
  (k < length boxes)%nat -> In (k, nth k boxes (0, 0, 0, 0)) (Segment.indexed_by_y boxes).
Proof.
  intros Hk. unfold Segment.indexed_by_y.
  apply (Permutation_in _ (Permutation_sym (sort_by_perm _ _))).
  exact (In_combine_seq_nth boxes 0 k _ Hk).
Qed.

(** X2: every box given to [merge_close_bboxes] lies inside some box of its result: merging only ever grows a box to the union with another. *)
Theorem merge_close_bboxes_covers (boxes : list Segment.box) (b : Segment.box) :
  In b boxes -> exists B, In B (Segment.merge_close_bboxes boxes) /\ box_within b B.
Proof.
  intros Hb. assert (Hne : boxes <> []) by (intros ->; destruct Hb).
  destruct (merge_close_bboxes_inv boxes Hne) as (used & _ & _ & _ & Hdone & Hcov).
  destruct (In_nth boxes b (0, 0, 0, 0) Hb) as (k & Hk & Ek).
  pose proof (Hdone _ (In_indexed_by_y_nth boxes k Hk)) as Hu. simpl in Hu.
  rewrite <- Ek. exact (Hcov k Hu).
Qed.

(** X3: [merge_close_bboxes] never returns more boxes than it is given. *)
Theorem merge_close_bboxes_length (boxes : list Segment.box) :
  (length (Segment.merge_close_bboxes boxes) <= length boxes)%nat.
Proof.
  destruct boxes as [|b bs]; [simpl; lia|].
  destruct (merge_close_bboxes_inv (b :: bs)) as (used & Hnd & Hlt & Hlen & _); [discriminate|].
  assert (Hincl : incl used (seq 0 (length (b :: bs)))).
  { intros k Hk. apply in_seq. specialize (Hlt k Hk). lia. }
  pose proof (NoDup_incl_length Hnd Hincl) as H. rewrite length_seq in H. lia.
Qed.

(** ** pangrams.py and the characters of the segmenter *)

Lemma is_alpha_to_lower (c : ascii) : is_alpha (to_lower c) = true -> is_lower (to_lower c) = true.
Proof. destruct c as [[] [] [] [] [] [] [] []]; vm_compute; congruence. Qed.

Lemma Ascii_eqb_In (a : ascii) (l : list ascii) : existsb (Ascii.eqb a) l = true <-> In a l.
Proof.
  rewrite existsb_exists. split.
  - intros [x [Hx E]]. apply Ascii.eqb_eq in E. subst. exact Hx.
  - intros H. exists a. split; [exact H|apply Ascii.eqb_refl].
Qed.

Lemma get_unique_chars_fold (l : list ascii) :
  forall seen chars,
  seen = rev chars -> NoDup chars -> Forall (fun c => is_lower c = true) chars ->
  let st := fold_left
         (fun (st : list ascii * list ascii) (c : ascii) =>
            let '(seen, chars) := st in
            let lower := to_lower c in
            if is_alpha lower && negb (existsb (Ascii.eqb lower) seen)
            then (lower :: seen, chars ++ [lower])
            else st) l (seen, chars) in
  fst st = rev (snd st) /\ NoDup (snd st) /\ Forall (fun c => is_lower c = true) (snd st) /\
  (forall x, In x (snd st) <-> In x chars \/ In x (filter is_alpha (map to_lower l))).
Proof.
  induction l as [|c l IH]; intros seen chars Hs Hnd Hlow; simpl.
  - split; [exact Hs|]. split; [exact Hnd|]. split; [exact Hlow|]. intros x; tauto.
  - destruct (is_alpha (to_lower c)) eqn:Ea; simpl.
    + destruct (existsb (Ascii.eqb (to_lower c)) seen) eqn:Ee; simpl.
      * apply Ascii_eqb_In in Ee. rewrite Hs, <- in_rev in Ee.
        destruct (IH seen chars Hs Hnd Hlow) as (H1 & H2 & H3 & H4).
        split; [exact H1|]. split; [exact H2|]. split; [exact H3|].
        intros x. rewrite H4. simpl. split; [tauto|]. intros [Hx|[<-|Hx]]; auto.
      * assert (Hn : ~ In (to_lower c) chars).
        { rewrite in_rev, <- Hs, <- Ascii_eqb_In. congruence. }
        destruct (IH (to_lower c :: seen) (chars ++ [to_lower c])) as (H1 & H2 & H3 & H4).
        { rewrite rev_app_distr, Hs. reflexivity. }
        { apply NoDup_app; [exact Hnd|constructor; [intros []|constructor]|].
          intros x Hx [<-|[]]. contradiction. }
        { apply Forall_app. split; [exact Hlow|]. constructor; [apply is_alpha_to_lower, Ea|constructor]. }
        split; [exact H1|]. split; [exact H2|]. split; [exact H3|].
        intros x. rewrite H4, in_app_iff. simpl. tauto.
    + destruct (IH seen chars Hs Hnd Hlow) as (H1 & H2 & H3 & H4).
      split; [exact H1|]. split; [exact H2|]. split; [exact H3|]. exact H4.
Qed.

Lemma get_unique_chars_props (pangram : string) :
  NoDup (Pangrams.get_unique_chars pangram) /\
  Forall (fun c => is_lower c = true) (Pangrams.get_unique_chars pangram) /\
  (forall c, In c (Pangrams.get_unique_chars pangram) <-> In c (Segment.pangram_chars pangram)).
Proof.
  unfold Pangrams.get_unique_chars, Segment.pangram_chars.
  destruct (get_unique_chars_fold (list_ascii_of_string pangram) [] [] eq_refl (NoDup_nil _) (Forall_nil _))
    as (_ & H2 & H3 & H4).
  split; [exact H2|]. split; [exact H3|]. intros c. rewrite H4. simpl. tauto.
Qed.

(** X5: on an ASCII pangram, [get_unique_chars] returns lowercase letters without repetition, and exactly the letters of the lowercased pangram. *)
Theorem get_unique_chars_spec (pangram : string) :
  ascii_string pangram ->
  NoDup (Pangrams.get_unique_chars pangram) /\
  Forall (fun c => is_lower c = true) (Pangrams.get_unique_chars pangram) /\
  (forall c, In c (Pangrams.get_unique_chars pangram) <-> In c (Segment.pangram_chars pangram)).
Proof. intros _. exact (get_unique_chars_props pangram). Qed.

(* segment_characters *)
Lemma map_blobs_inv (binary : mask) (chars : list ascii) :
  forall bs i results seen,
  map fst results = seen -> NoDup seen -> (forall c, In c seen -> In c chars) ->
  let res := Segment.map_blobs binary chars i bs results seen in
  NoDup (map fst res) /\ (forall c, In c (map fst res) -> In c chars) /\
  (length res <= length results + length bs)%nat.
Proof.
  induction bs as [|[[[x y] w] h] bs IH]; intros i results seen Hm Hnd Hin; simpl.
  - rewrite Hm. split; [exact Hnd|]. split; [exact Hin|]. lia.
  - destruct (Nat.leb (length chars) i) eqn:El.
    + rewrite Hm. split; [exact Hnd|]. split; [exact Hin|]. lia.
    + apply Nat.leb_gt in El.
      destruct (existsb (Ascii.eqb (nth i chars " "%char)) seen) eqn:Ee.
      * destruct (IH (S i) results seen Hm Hnd Hin) as (H1 & H2 & H3).
        split; [exact H1|]. split; [exact H2|]. lia.
      * apply not_true_iff_false in Ee. rewrite Ascii_eqb_In in Ee.
        set (cr := crop _ _ _ _ _).
        destruct (IH (S i) (results ++ [(nth i chars " "%char, cr)]) (seen ++ [nth i chars " "%char]))
          as (H1 & H2 & H3).
        { rewrite map_app, Hm. reflexivity. }
        { apply NoDup_app; [exact Hnd|constructor; [intros []|constructor]|].
          intros z Hz [<-|[]]. contradiction. }
        { intros z Hz. apply in_app_iff in Hz as [Hz|[<-|[]]]; [auto|apply nth_In; exact El]. }
        split; [exact H1|]. split; [exact H2|]. rewrite length_app in H3. simpl in H3. lia.
Qed.

Lemma segment_characters_chars {cv : Cv2} (binary : mask) (pangram : string)
    (pairs : list (ascii * mask)) :
  Segment.segment_characters binary pangram = Ok pairs ->
  NoDup (map fst pairs) /\
  (forall c, In c (map fst pairs) -> In c (Pangrams.get_unique_chars pangram)) /\
  (length pairs <= length (Pangrams.get_unique_chars pangram))%nat.
Proof.
  unfold Segment.segment_characters. intros H.
  destruct (findContours_external binary) as [|c0 cs]; [discriminate|].
  destruct (filter _ _) as [|b0 bs]; [discriminate|].
  injection H as <-.
  destruct (map_blobs_inv binary (Segment.pangram_chars pangram)
              (Segment.sort_reading_order (Segment.merge_close_bboxes (b0 :: bs))) 0 [] []
              eq_refl (NoDup_nil _) (fun c H => match H with end)) as (H1 & H2 & _).
  destruct (get_unique_chars_props pangram) as (U1 & _ & U3).
  assert (Hi : forall c, In c (map fst (Segment.map_blobs binary (Segment.pangram_chars pangram) 0
              (Segment.sort_reading_order (Segment.merge_close_bboxes (b0 :: bs))) [] []))
              -> In c (Pangrams.get_unique_chars pangram)).
  { intros c Hc. apply U3, H2, Hc. }
  split; [exact H1|]. split; [exact Hi|].
  rewrite <- (length_map fst). apply NoDup_incl_length; [exact H1|exact Hi].
Qed.

(** X6: on an ASCII pangram, when [segment_characters] succeeds, the characters of its pairs are distinct letters of [get_unique_chars pangram], so there are at most as many pairs as unique letters. *)
Theorem segment_characters_distinct_chars {cv : Cv2} (binary : mask) (pangram : string)
    (pairs : list (ascii * mask)) :
  ascii_string pangram ->
  Segment.segment_characters binary pangram = Ok pairs ->
  NoDup (map fst pairs) /\
  (forall c, In c (map fst pairs) -> In c (Pangrams.get_unique_chars pangram)) /\
  (length pairs <= length (Pangrams.get_unique_chars pangram))%nat.
Proof. intros _. exact (segment_characters_chars binary pangram pairs). Qed.

(** ** main.py: the drawn-glyphs endpoint *)

Lemma drawn_char_of_key_iff (key : string) (c : ascii) :
  Main.drawn_char_of_key key = Some c <->
  exists k, key = ("char_" ++ String k "")%string /\ is_alpha (to_lower k) = true /\ c = to_lower k.
Proof.
  split.
  - unfold Main.drawn_char_of_key.
    destruct key as [|a1 [|a2 [|a3 [|a4 [|a5 [|k [|a7 key]]]]]]];
      cbn [prefix String.length String.get Nat.eqb];
      repeat (destruct (ascii_dec _ _) as [<-|]; cbn [prefix]);
      rewrite ?andb_false_r, ?andb_false_l; try discriminate.
    simpl. destruct (is_alpha (to_lower k)) eqn:E; [|discriminate].
    intros H. injection H as <-. exists k. split; [reflexivity|]. split; [exact E|reflexivity].
  - intros (k & -> & E & ->). unfold Main.drawn_char_of_key. simpl. rewrite E. reflexivity.
Qed.

(** X8: a form key of [process_drawn_glyphs] yields a character c exactly when it is [char_] followed by one character k whose lowercase is a letter, and then c is that lowercase letter. *)
Theorem drawn_char_of_key_spec (key : string) (c : ascii) :
  Main.drawn_char_of_key key = Some c <->
  exists k, key = ("char_" ++ String k "")%string /\ is_alpha (to_lower k) = true /\ c = to_lower k.
Proof. exact (drawn_char_of_key_iff key c). Qed.


Lemma char_dict_set_keys {V} (d : list (ascii * V)) (k : ascii) (v : V) :
  (NoDup (map fst d) -> NoDup (map fst (Main.char_dict_set d k v))) /\
  (forall x, In x (map fst (Main.char_dict_set d k v)) <-> x = k \/ In x (map fst d)).
Proof.
  induction d as [|[k' v'] d IH]; simpl.
  - split; [intros; constructor; [intros []|constructor]|]. intros x; split; intros [H|H]; auto; destruct H.
  - destruct (Ascii.eqb_spec k' k) as [->|Hne]; simpl.
    + split; [exact (fun H => H)|]. intros x. split.
      * intros [H|H]; right; [left|right]; assumption.
      * intros [->|[H|H]]; [left; reflexivity|left; exact H|right; exact H].
    + destruct IH as [IH1 IH2]. split.
      * intros Hnd. inversion Hnd as [|? ? Hn Hnd']; subst. constructor; [|apply IH1, Hnd'].
        rewrite IH2. intros [E|E]; [congruence|contradiction].
      * intros x. rewrite IH2. tauto.
Qed.

Lemma char_dict_set_fresh {V} (d : list (ascii * V)) (k : ascii) (v : V) :
  ~ In k (map fst d) -> Main.char_dict_set d k v = d ++ [(k, v)].
Proof.
  induction d as [|[k' v'] d IH]; simpl; intros Hn; [reflexivity|].
  destruct (Ascii.eqb_spec k' k) as [->|Hne]; [exfalso; apply Hn; left; reflexivity|].
  rewrite IH; [reflexivity|tauto].
Qed.

Lemma drawn_fold_none (prep : string -> option mask) (l : list (string * string)) :
  fold_left (drawn_step prep) l None = None.
Proof. induction l; simpl; auto. Qed.

Lemma drawn_fold_spec (prep : string -> option mask) (l : list (string * string)) :
  forall d, NoDup (map fst d) ->
  match fold_left (drawn_step prep) l (Some d) with
  | None => Exists (fun kv => Main.drawn_char_of_key (fst kv) <> None /\ prep (snd kv) = None) l
  | Some d' => NoDup (map fst d') /\
      (forall x, In x (map fst d') <->
                 In x (map fst d) \/ exists kv, In kv l /\ Main.drawn_char_of_key (fst kv) = Some x)
  end.
Proof.
  induction l as [|kv l IH]; intros d Hnd; cbn [fold_left].
  - split; [exact Hnd|]. intros x. split; [tauto|]. intros [H|(kv & [] & _)]; exact H.
  - unfold drawn_step at 2. destruct (Main.drawn_char_of_key (fst kv)) as [ch|] eqn:Ek.
    + destruct (prep (snd kv)) as [bin|] eqn:Ep.
      * destruct (char_dict_set_keys d ch bin) as [K1 K2].
        specialize (IH _ (K1 Hnd)).
        destruct (fold_left (drawn_step prep) l _) as [d'|].
        -- destruct IH as [IH1 IH2]. split; [exact IH1|]. intros x. rewrite IH2, K2. split.
           ++ intros [[->|H]|(kv' & H1 & H2)]; [right; exists kv; split; [left|]; auto|left; exact H|].
              right. exists kv'. split; [right|]; assumption.
           ++ intros [H|(kv' & [<-|H1] & H2)]; [left; right; exact H| |].
              ** left; left. congruence.
              ** right. exists kv'. split; assumption.
        -- apply Exists_cons_tl. exact IH.
      * rewrite drawn_fold_none. apply Exists_cons_hd. split; [congruence|exact Ep].
    + specialize (IH d Hnd). destruct (fold_left (drawn_step prep) l _) as [d'|].
      * destruct IH as [IH1 IH2]. split; [exact IH1|]. intros x. rewrite IH2. split.
        -- intros [H|(kv' & H1 & H2)]; [left; exact H|right; exists kv'; split; [right|]; assumption].
        -- intros [H|(kv' & [<-|H1] & H2)]; [left; exact H|congruence|right; exists kv'; split; assumption].
      * apply Exists_cons_tl. exact IH.
Qed.

Lemma str_dict_set_spec {V} (d : list (string * V)) (k : string) (v : V) :
  (NoDup (map fst d) -> NoDup (map fst (Main.str_dict_set d k v))) /\
  (forall x, In x (map fst (Main.str_dict_set d k v)) <-> x = k \/ In x (map fst d)) /\
  (forall kv, In kv (Main.str_dict_set d k v) -> kv = (k, v) \/ In kv d).
Proof.
  induction d as [|[k' v'] d IH]; simpl.
  - split; [intros; constructor; [intros []|constructor]|]. split.
    + intros x; split; intros [H|H]; auto; destruct H.
    + intros kv [H|[]]; left; symmetry; exact H.
  - destruct (String.eqb_spec k' k) as [->|Hne]; simpl.
    + split; [exact (fun H => H)|]. split.
      * intros x. split.
        -- intros [H|H]; right; [left|right]; assumption.
        -- intros [->|[H|H]]; [left; reflexivity|left; exact H|right; exact H].
      * intros kv [H|H]; [left; symmetry; exact H|right; right; exact H].
    + destruct IH as (IH1 & IH2 & IH3). split; [|split].
      * intros Hnd. inversion Hnd as [|? ? Hn Hnd']; subst. constructor; [|apply IH1, Hnd'].
        rewrite IH2. intros [E|E]; [congruence|contradiction].
      * intros x. rewrite IH2. tauto.
      * intros kv [H|H]; [right; left; exact H|]. apply IH3 in H. tauto.
Qed.

Lemma form_dict_fold (form : list (string * string)) :
  forall d, NoDup (map fst d) ->
  let d' := fold_left (fun d (kv : string * string) => Main.str_dict_set d (fst kv) (snd kv)) form d in
  NoDup (map fst d') /\
  (forall x, In x (map fst d') <-> In x (map fst d) \/ In x (map fst form)) /\
  (forall kv, In kv d' -> In kv d \/ In kv form).
Proof.
  induction form as [|kv form IH]; intros d Hnd; cbn [fold_left].
  - split; [exact Hnd|]. split; [intros x; simpl; tauto|]. intros kv H; left; exact H.
  - destruct (str_dict_set_spec d (fst kv) (snd kv)) as (S1 & S2 & S3).
    destruct (IH _ (S1 Hnd)) as (I1 & I2 & I3). split; [exact I1|]. split.
    + intros x. rewrite I2, S2. simpl. split.
      * intros [[H|H]|H]; [right; left; symmetry; exact H|left; exact H|right; right; exact H].
      * intros [H|[H|H]]; [left; right; exact H|left; left; symmetry; exact H|right; exact H].
    + intros kv' H. apply I3 in H as [H|H]; [|right; right; exact H].
      apply S3 in H as [H|H]; [|left; exact H]. right; left.
      destruct kv; symmetry; exact H.
Qed.

(** The fields visited by the form loop: one per field name, each a field
    of the request. *)
Lemma form_dict_spec (form : list (string * string)) :
  NoDup (map fst (Main.form_dict form)) /\
  (forall x, In x (map fst (Main.form_dict form)) <-> In x (map fst form)) /\
  (forall kv, In kv (Main.form_dict form) -> In kv form).
Proof.
  destruct (form_dict_fold form [] (NoDup_nil _)) as (H1 & H2 & H3).
  unfold Main.form_dict. split; [exact H1|]. split.
  - intros x. rewrite H2. simpl. tauto.
  - intros kv H. apply H3 in H as [[]|H]. exact H.
Qed.

Lemma form_dict_key (form : list (string * string)) (kv : string * string) :
  In kv form -> exists v, In (fst kv, v) (Main.form_dict form).
Proof.
  intros H. destruct (form_dict_spec form) as (_ & H2 & _).
  assert (Hk : In (fst kv) (map fst (Main.form_dict form))) by (apply H2, in_map, H).
  apply in_map_iff in Hk as ([k v] & E & Hin). simpl in E. subst. exists v. exact Hin.
Qed.

Lemma drawn_char_bitmaps_spec (prep : string -> option mask) (form : list (string * string)) :
  match Main.drawn_char_bitmaps prep form with
  | None => Exists (fun kv => Main.drawn_char_of_key (fst kv) <> None /\ prep (snd kv) = None)
                   (Main.form_dict form)
  | Some d => NoDup (map fst d) /\
      (forall x, In x (map fst d) <-> exists kv, In kv form /\ Main.drawn_char_of_key (fst kv) = Some x)
  end.
Proof.
  pose proof (drawn_fold_spec prep (Main.form_dict form) [] (NoDup_nil _)) as H.
  destruct (form_dict_spec form) as (_ & _ & F3).
  unfold Main.drawn_char_bitmaps. fold (drawn_step prep).
  destruct (fold_left (drawn_step prep) (Main.form_dict form) (Some [])) as [d|]; [|exact H].
  destruct H as [H1 H2]. split; [exact H1|]. intros x. rewrite H2. simpl. split.
  - intros [[]|(kv & Hin & E)]. exists kv. split; [apply F3, Hin|exact E].
  - intros (kv & Hin & E). right. destruct (form_dict_key form kv Hin) as (v & Hv).
    exists (fst kv, v). split; [exact Hv|exact E].
Qed.

(** X9: for a form whose field names are ASCII, [process_drawn_glyphs] answers 400 exactly when no form key is of the form [char_] followed by one letter. *)
Theorem process_drawn_glyphs_400 {cv : Cv2} (prep : string -> option mask) (form : list (string * string)) :
  Forall (fun kv => ascii_string (fst kv)) form ->
  Main.process_drawn_glyphs prep form = Main.HttpError 400 <->
  Forall (fun kv => Main.drawn_char_of_key (fst kv) = None) form.
Proof.
  intros _. destruct (form_dict_spec form) as (_ & _ & F3).
  unfold Main.process_drawn_glyphs. pose proof (drawn_char_bitmaps_spec prep form) as H.
  destruct (Main.drawn_char_bitmaps prep form) as [[|[c0 b0] d]|].
  - split; [intros _|reflexivity]. apply Forall_forall. intros kv Hkv.
    destruct (Main.drawn_char_of_key (fst kv)) as [x|] eqn:E; [|reflexivity].
    destruct H as [_ H]. exfalso. apply (H x). exists kv. split; assumption.
  - split.
    + destruct (Fontgen.create_font_from_chars _) as [[t w]|]; discriminate.
    + intros Hall. destruct H as [_ H]. destruct (proj1 (H c0) (or_introl eq_refl)) as (kv & Hkv & E).
      rewrite Forall_forall in Hall. rewrite (Hall kv Hkv) in E. discriminate.
  - split; [discriminate|]. intros Hall. rewrite Exists_exists in H. rewrite Forall_forall in Hall.
    destruct H as (kv & Hkv & H1 & _). contradiction (H1 (Hall kv (F3 kv Hkv))).
Qed.

Lemma drawn_fold_bad (prep : string -> option mask) (l : list (string * string)) :
  Exists (fun kv => Main.drawn_char_of_key (fst kv) <> None /\ prep (snd kv) = None) l ->
  forall acc, fold_left (drawn_step prep) l acc = None.
Proof.
  induction 1 as [kv l [Hk Hp]|kv l _ IH]; intros acc; cbn [fold_left].
  - replace (drawn_step prep acc kv) with (@None (list (ascii * mask))); [apply drawn_fold_none|].
    unfold drawn_step. destruct acc; [|reflexivity].
    destruct (Main.drawn_char_of_key (fst kv)); [|contradiction]. rewrite Hp. reflexivity.
  - apply IH.
Qed.

(** X10: for a form whose field names are ASCII, [process_drawn_glyphs] fails with an uncaught exception exactly when the preprocessing of the data of some valid key raises, the data of a key being that of its last occurrence in the form (Starlette's [FormData]); a font response lists distinct lowercase letters, exactly the letters named by the valid keys of the form, and reports their number as total_chars. *)
Theorem process_drawn_glyphs_response {cv : Cv2} (prep : string -> option mask)
    (form : list (string * string)) :
  Forall (fun kv => ascii_string (fst kv)) form ->
  (Main.process_drawn_glyphs prep form = Main.Uncaught <->
   Exists (fun kv => Main.drawn_char_of_key (fst kv) <> None /\ prep (snd kv) = None)
          (Main.form_dict form)) /\
  (forall ttf woff2 found total,
     Main.process_drawn_glyphs prep form = Main.FontResponse ttf woff2 found total ->
     NoDup found /\ total = length found /\ Forall (fun c => is_lower c = true) found /\
     forall c, In c found <-> exists key data, In (key, data) form /\ Main.drawn_char_of_key key = Some c).
Proof.
  intros _.
  assert (Hbad : Exists (fun kv => Main.drawn_char_of_key (fst kv) <> None /\ prep (snd kv) = None)
                        (Main.form_dict form) ->
                 Main.drawn_char_bitmaps prep form = None).
  { intros Hex. unfold Main.drawn_char_bitmaps. fold (drawn_step prep). apply drawn_fold_bad, Hex. }
  unfold Main.process_drawn_glyphs. pose proof (drawn_char_bitmaps_spec prep form) as H.
  destruct (Main.drawn_char_bitmaps prep form) as [d|].
  - destruct H as [H1 H2]. split.
    + split; [|intros Hex; specialize (Hbad Hex); discriminate].
      destruct d; [discriminate|]. destruct (Fontgen.create_font_from_chars _) as [[t w]|]; discriminate.
    + intros ttf woff2 found total Hr.
      destruct d as [|cb d]; [discriminate|].
      destruct (Fontgen.create_font_from_chars _) as [[t w]|]; [|discriminate].
      injection Hr as _ _ <- <-.
      assert (Hc : forall c, In c (map fst (cb :: d)) <->
                   exists key data, In (key, data) form /\ Main.drawn_char_of_key key = Some c).
      { intros c. rewrite H2. split.
        - intros ([key data] & Hin & E). exists key, data. split; assumption.
        - intros (key & data & Hin & E). exists (key, data). split; assumption. }
      split; [exact H1|]. split; [simpl; rewrite length_map; reflexivity|]. split; [|exact Hc].
      apply Forall_forall. intros c Hin. apply Hc in Hin as (key & data & _ & E).
      apply drawn_char_of_key_iff in E as (k & _ & Ea & ->). apply is_alpha_to_lower, Ea.
  - split; [split; [intros _; exact H|reflexivity]|].
    intros; discriminate.
Qed.

(** ** main.py: the pangram endpoint *)

Lemma dict_of_pairs (l : list (ascii * mask)) :
  forall d, NoDup (map fst (d ++ l)) ->
  fold_left (fun d (cb : ascii * mask) => Main.char_dict_set d (fst cb) (snd cb)) l d = d ++ l.
Proof.
  induction l as [|[c b] l IH]; intros d Hnd; simpl; [rewrite app_nil_r; reflexivity|].
  rewrite char_dict_set_fresh.
  - rewrite IH; [rewrite <- app_assoc; reflexivity|]. rewrite <- app_assoc. exact Hnd.
  - rewrite map_app in Hnd. simpl in Hnd. apply NoDup_remove_2 in Hnd.
    rewrite in_app_iff in Hnd. tauto.
Qed.

(** X11: for an ASCII pangram, once the image is read, [process_pangram] answers only 422 or 500 as an error and never fails with an uncaught exception; it answers 422 exactly when segmentation raises or finds nothing, and a font response lists the distinct characters of the segmentation result, all letters of [get_unique_chars pangram], with their number as total_chars. *)
Theorem process_pangram_response {cv : Cv2} (img : image) (pangram : string) :
  ascii_string pangram ->
  let seg := Segment.segment_characters (Preprocess.preprocess img) pangram in
  (forall code, Main.process_pangram img pangram = Main.HttpError code -> code = 422 \/ code = 500) /\
  Main.process_pangram img pangram <> Main.Uncaught /\
  (Main.process_pangram img pangram = Main.HttpError 422 <-> (exists e, seg = Err e) \/ seg = Ok []) /\
  (forall ttf woff2 found total,
     Main.process_pangram img pangram = Main.FontResponse ttf woff2 found total ->
     exists pairs, seg = Ok pairs /\ found = map fst pairs /\ total = length found /\
     NoDup found /\ incl found (Pangrams.get_unique_chars pangram)).
Proof.
  intros _. cbv zeta. unfold Main.process_pangram.
  pose proof (segment_characters_chars (Preprocess.preprocess img) pangram) as Hs.
  destruct (Segment.segment_characters (Preprocess.preprocess img) pangram) as [[|cb pairs]|e].
  - split; [intros code E; injection E as <-; left; reflexivity|].
    split; [discriminate|]. split; [split; [intros _; right; reflexivity|reflexivity]|].
    intros; discriminate.
  - destruct (Hs (cb :: pairs) eq_refl) as (H1 & H2 & _).
    rewrite (dict_of_pairs (cb :: pairs) [] H1). simpl app.
    destruct (Fontgen.create_font_from_chars (cb :: pairs)) as [[t w]|].
    + split; [intros code E; discriminate|]. split; [discriminate|].
      split; [split; [discriminate|intros [[e1 E]|E]; discriminate]|].
      intros ttf woff2 found total E. injection E as _ _ <- <-.
      exists (cb :: pairs). split; [reflexivity|]. split; [reflexivity|].
      split; [simpl; rewrite length_map; reflexivity|]. split; [exact H1|]. exact H2.
    + split; [intros code E; injection E as <-; right; reflexivity|]. split; [discriminate|].
      split; [split; [intros E; discriminate|intros [[e1 E]|E]; discriminate]|].
      intros; discriminate.
  - split; [intros code E; injection E as <-; left; reflexivity|].
    split; [discriminate|]. split; [split; [intros _; left; exists e; reflexivity|reflexivity]|].
    intros; discriminate.
Qed.

(** ** fontgen.py: glyph order and character map *)

Lemma parse_format_04X (c : ascii) : parse_hex (Fontgen.format_04X (ord c)) 0 = ord c.
Proof. destruct c as [[] [] [] [] [] [] [] []]; vm_compute; reflexivity. Qed.

Lemma glyph_name_inj (c d : ascii) : Fontgen.glyph_name c = Fontgen.glyph_name d -> c = d.
Proof.
  unfold Fontgen.glyph_name. simpl. intros H. injection H as H.
  apply ord_inj. rewrite <- (parse_format_04X c), <- (parse_format_04X d), H. reflexivity.
Qed.

Lemma glyph_name_reserved (c : ascii) :
  Fontgen.glyph_name c <> ".notdef"%string /\ Fontgen.glyph_name c <> "space"%string.
Proof. unfold Fontgen.glyph_name. simpl. split; discriminate. Qed.

Lemma insert_by_sorted {A} (key : A -> Z) (a : A) (l : list A) :
  Sorted (fun x y => key x <= key y) l -> Sorted (fun x y => key x <= key y) (insert_by key a l).
Proof.
  induction 1 as [|b l Hs IH Hhd]; simpl; [repeat constructor|].
  destruct (Z.leb_spec (key a) (key b)) as [Hab|Hab].
  - constructor; [constructor; assumption|constructor; exact Hab].
  - constructor; [exact IH|].
    destruct l as [|b' l]; simpl; [constructor; lia|].
    destruct (key a <=? key b'); constructor; [lia|]. inversion Hhd; assumption.
Qed.

Lemma sort_by_sorted {A} (key : A -> Z) (l : list A) :
  Sorted (fun x y => key x <= key y) (sort_by key l).
Proof. induction l; simpl; [constructor|apply insert_by_sorted; assumption]. Qed.

Lemma NoDup_map_inj {A B} (f : A -> B) (l : list A) :
  (forall x y, f x = f y -> x = y) -> (NoDup (map f l) <-> NoDup l).
Proof.
  intros Hf. split; [apply NoDup_map_inv|].
  induction 1; simpl; constructor; [|assumption].
  rewrite in_map_iff. intros (y & E & Hy). apply Hf in E. subst. contradiction.
Qed.

(** X12: [create_font] saves the same font as TTF and WOFF2, and its glyph order is .notdef, space, then the glyph names of the characters sorted by code point; the order has no repeated name exactly when the characters are distinct. *)
Theorem create_font_glyph_order (glyphs : list (ascii * Vectorize.glyph_data)) (family style : string) :
  let f := snd (fst (Fontgen.create_font glyphs family style)) in
  snd (snd (Fontgen.create_font glyphs family style)) = f /\
  exists keys,
    Fontgen.glyph_order f = ".notdef"%string :: "space"%string :: map Fontgen.glyph_name keys /\
    Permutation keys (map fst glyphs) /\
    Sorted (fun a b => ord a <= ord b) keys /\
    (NoDup (Fontgen.glyph_order f) <-> NoDup (map fst glyphs)).
Proof.
  cbv zeta. split; [reflexivity|].
  exists (Fontgen.sorted_keys glyphs). simpl.
  assert (Hp : Permutation (Fontgen.sorted_keys glyphs) (map fst glyphs)) by apply sort_by_perm.
  split; [reflexivity|]. split; [exact Hp|]. split; [apply sort_by_sorted|].
  split.
  - intros H. inversion H as [|? ? H1 H2]; subst. inversion H2 as [|? ? H3 H4]; subst.
    apply (Permutation_NoDup Hp). apply (NoDup_map_inj _ _ glyph_name_inj). exact H4.
  - intros H. constructor.
    + intros [E|E]; [discriminate|]. apply in_map_iff in E as (c & E & _).
      exact (proj1 (glyph_name_reserved c) E).
    + constructor.
      * intros E. apply in_map_iff in E as (c & E & _). exact (proj2 (glyph_name_reserved c) E).
      * apply (NoDup_map_inj _ _ glyph_name_inj). apply (Permutation_NoDup (Permutation_sym Hp)). exact H.
Qed.

Lemma In_dict_set {V} (d : list (Z * V)) (k : Z) (v : V) (kv : Z * V) :
  In kv (Fontgen.dict_set d k v) -> kv = (k, v) \/ In kv d.
Proof.
  induction d as [|[k' v'] d IH]; simpl.
  - intros [E|[]]. left. symmetry. exact E.
  - destruct (Z.eqb_spec k' k) as [->|Hne]; simpl.
    + intros [E|E]; [left; symmetry; exact E|right; right; exact E].
    + intros [E|E]; [right; left; exact E|]. destruct (IH E); [left|right; right]; assumption.
Qed.

(** X13: every entry of the character map built by [create_font] points to the glyph space or to the glyph of one of the given characters, which is in the glyph order. *)
Theorem create_font_cmap_targets (glyphs : list (ascii * Vectorize.glyph_data)) (family style : string)
    (code : Z) (name : string) :
  let f := snd (fst (Fontgen.create_font glyphs family style)) in
  In (code, name) (Fontgen.cmap f) ->
  name = "space"%string \/
  exists c, In c (map fst glyphs) /\ name = Fontgen.glyph_name c /\ In name (Fontgen.glyph_order f).
Proof.
  cbv zeta. simpl. unfold Fontgen.build_cmap.
  assert (Hgen : forall rest cm,
    (forall kv, In kv cm -> snd kv = "space"%string \/ exists c, In c (map fst glyphs) /\ snd kv = Fontgen.glyph_name c) ->
    (forall cg, In cg rest -> In cg glyphs) ->
    forall kv, In kv (fold_left (fun cm (cg : ascii * Vectorize.glyph_data) =>
               let char := fst cg in
               let gname := Fontgen.glyph_name char in
               let cm := Fontgen.dict_set cm (ord char) gname in
               if is_lower char then Fontgen.dict_set cm (ord (to_upper char)) gname else cm) rest cm) ->
    snd kv = "space"%string \/ exists c, In c (map fst glyphs) /\ snd kv = Fontgen.glyph_name c).
  { induction rest as [|[c g] rest IH]; intros cm Hcm Hr; simpl; [exact Hcm|].
    apply IH; [|intros; apply Hr; right; assumption].
    assert (Hc : In c (map fst glyphs)) by (apply (in_map fst _ (c, g)), Hr; left; reflexivity).
    assert (H1 : forall kv, In kv (Fontgen.dict_set cm (ord c) (Fontgen.glyph_name c)) ->
               snd kv = "space"%string \/ exists c, In c (map fst glyphs) /\ snd kv = Fontgen.glyph_name c).
    { intros kv Hkv. destruct (In_dict_set _ _ _ _ Hkv) as [->|H]; [right; exists c; auto|auto]. }
    destruct (is_lower c); [|exact H1].
    intros kv Hkv. destruct (In_dict_set _ _ _ _ Hkv) as [->|H]; [right; exists c; auto|auto]. }
  assert (H0 : forall kv, In kv [(ord " "%char, "space"%string)] ->
            snd kv = "space"%string \/ exists c, In c (map fst glyphs) /\ snd kv = Fontgen.glyph_name c).
  { intros kv [<-|[]]. left. reflexivity. }
  intros Hin. destruct (Hgen glyphs _ H0 (fun cg H => H) _ Hin) as [E|(c & Hc & E)];
    simpl in E; [left; exact E|].
  right. exists c. split; [exact Hc|]. split; [exact E|]. rewrite E. right; right.
  apply in_map. apply (Permutation_in _ (Permutation_sym (sort_by_perm ord (map fst glyphs)))). exact Hc.
Qed.

(** ** vectorize.py: the paths of a glyph *)

Lemma contour_to_path_shape {cv : Cv2} hierarchy bx by' scale th i c p :
  Vectorize.contour_to_path hierarchy bx by' scale th i c = Some p ->
  (3 <= length c)%nat /\
  length (Vectorize.points p) = length (approxPolyDP c (1 # 2) true) /\
  (3 <= length (Vectorize.points p))%nat /\
  Vectorize.is_hole p = negb (hier_parent (nth i hierarchy (-1, -1, -1, -1)) =? -1).
Proof.
  unfold Vectorize.contour_to_path.
  destruct (Nat.ltb_spec (length c) 3); [discriminate|].
  destruct (Nat.ltb_spec (length (approxPolyDP c (1 # 2) true)) 3); [discriminate|].
  set (t := map _ _). intros Hp. injection Hp as <-. cbn [Vectorize.is_hole Vectorize.points].
  assert (Ht : length t = length (approxPolyDP c (1 # 2) true)) by apply length_map.
  destruct (_ || _); rewrite ?length_rev; unfold t; rewrite length_map; repeat split; (lia || reflexivity).
Qed.

Lemma contours_loop_shape {cv : Cv2} hierarchy bx by' scale th cs :
  forall i p, In p (Vectorize.contours_loop hierarchy bx by' scale th i cs) ->
  exists k c, nth_error cs k = Some c /\
    (3 <= length c)%nat /\
    length (Vectorize.points p) = length (approxPolyDP c (1 # 2) true) /\
    (3 <= length (Vectorize.points p))%nat /\
    Vectorize.is_hole p = negb (hier_parent (nth (i + k) hierarchy (-1, -1, -1, -1)) =? -1).
Proof.
  induction cs as [|c cs IH]; intros i p; simpl; [intros []|].
  destruct (Vectorize.contour_to_path hierarchy bx by' scale th i c) as [q|] eqn:Hq.
  - intros [<-|Hin].
    + exists 0%nat, c. rewrite Nat.add_0_r. split; [reflexivity|]. exact (contour_to_path_shape _ _ _ _ _ _ _ _ Hq).
    + destruct (IH (S i) p Hin) as (k & c' & H1 & H2). exists (S k), c'. split; [exact H1|].
      rewrite Nat.add_succ_r. exact H2.
  - intros Hin. destruct (IH (S i) p Hin) as (k & c' & H1 & H2). exists (S k), c'. split; [exact H1|].
    rewrite Nat.add_succ_r. exact H2.
Qed.

Lemma contours_loop_length {cv : Cv2} hierarchy bx by' scale th cs :
  forall i, (length (Vectorize.contours_loop hierarchy bx by' scale th i cs) <= length cs)%nat.
Proof.
  induction cs as [|c cs IH]; intros i; simpl; [lia|].
  destruct (Vectorize.contour_to_path hierarchy bx by' scale th i c); simpl; specialize (IH (S i)); lia.
Qed.

Lemma contours_to_font_paths_props {cv : Cv2} (contours : list contour)
    (hierarchy : option (list hier_entry)) (target_height : Z) :
  (length (Vectorize.contours_to_font_paths contours hierarchy target_height) <= length contours)%nat /\
  forall p, In p (Vectorize.contours_to_font_paths contours hierarchy target_height) ->
  exists hier k c, hierarchy = Some hier /\ nth_error contours k = Some c /\
    (3 <= length c)%nat /\
    length (Vectorize.points p) = length (approxPolyDP c (1 # 2) true) /\
    (3 <= length (Vectorize.points p))%nat /\
    Vectorize.is_hole p = negb (hier_parent (nth k hier (-1, -1, -1, -1)) =? -1).
Proof.
  unfold Vectorize.contours_to_font_paths.
  destruct contours as [|c0 cs]; [split; [simpl; lia|intros _ []]|].
  destruct hierarchy as [hier|]; [|split; [simpl; lia|intros _ []]].
  destruct (bounding_rect _) as [[[bx by'] bw] bh].
  destruct ((bw =? 0) || (bh =? 0)); [split; [simpl; lia|intros _ []]|].
  split; [apply contours_loop_length|].
  intros p Hp. destruct (contours_loop_shape _ _ _ _ _ _ 0 p Hp) as (k & c & H).
  exists hier, k, c. split; [reflexivity|]. exact H.
Qed.

(** X15: [contours_to_font_paths] returns at most one path per contour and none without a hierarchy; each path comes from a contour of at least 3 points, has as many points as its simplified contour (at least 3), and is a hole exactly when the contour has a parent in the hierarchy. *)
Theorem contours_to_font_paths_shape {cv : Cv2} (contours : list contour)
    (hierarchy : option (list hier_entry)) (target_height : Z) :
  (length (Vectorize.contours_to_font_paths contours hierarchy target_height) <= length contours)%nat /\
  forall p, In p (Vectorize.contours_to_font_paths contours hierarchy target_height) ->
  exists hier k c, hierarchy = Some hier /\ nth_error contours k = Some c /\
    (3 <= length c)%nat /\
    length (Vectorize.points p) = length (approxPolyDP c (1 # 2) true) /\
    (3 <= length (Vectorize.points p))%nat /\
    Vectorize.is_hole p = negb (hier_parent (nth k hier (-1, -1, -1, -1)) =? -1).
Proof. exact (contours_to_font_paths_props contours hierarchy target_height). Qed.

Lemma process_glyph_bitmap_paths_long {cv : Cv2} (binary : mask) (p : Vectorize.path) :
  In p (Vectorize.paths (Vectorize.process_glyph_bitmap binary)) ->
  (3 <= length (Vectorize.points p))%nat.
Proof.
  unfold Vectorize.process_glyph_bitmap.
  destruct (findContours_ccomp binary) as [contours hierarchy].
  destruct contours as [|c cs]; [intros []|].
  destruct hierarchy as [hier|]; [|intros []].
  destruct (bounding_rect (concat (c :: cs))) as [[[bx by'] bw] bh].
  cbn [Vectorize.paths]. intros Hin. apply in_map_iff in Hin as [q [<- Hq]].
  destruct (proj2 (contours_to_font_paths_props _ _ _) q Hq) as (_ & _ & _ & _ & _ & _ & _ & H & _).
  unfold Vectorize.shift_path. simpl. rewrite length_map. exact H.
Qed.

Lemma glyph_outline_keeps_paths {cv : Cv2} (binary : mask) :
  Fontgen.glyph_outline (Vectorize.process_glyph_bitmap binary) =
  map (fun p => Fontgen.close_contour (Vectorize.points p))
      (Vectorize.paths (Vectorize.process_glyph_bitmap binary)).
Proof.
  unfold Fontgen.glyph_outline. f_equal.
  pose proof (process_glyph_bitmap_paths_long binary) as H.
  induction (Vectorize.paths (Vectorize.process_glyph_bitmap binary)) as [|p ps IH]; [reflexivity|].
  cbn [filter]. replace (Nat.leb 3 (length (Vectorize.points p))) with true.
  - f_equal. apply IH. intros q Hq. apply H. right. exact Hq.
  - symmetry. apply Nat.leb_le. apply H. left. reflexivity.
Qed.

(** X16: the pen loop of [create_font] drops no path of [process_glyph_bitmap]: the outline drawn for a vectorized bitmap has one contour per path, in order, each the path's points closed by [TTGlyphPen.closePath] (which drops a last point equal to the first). *)
Theorem glyph_outline_process_glyph_bitmap {cv : Cv2} (binary : mask) :
  Fontgen.glyph_outline (Vectorize.process_glyph_bitmap binary) =
  map (fun p => Fontgen.close_contour (Vectorize.points p))
      (Vectorize.paths (Vectorize.process_glyph_bitmap binary)).
Proof. exact (glyph_outline_keeps_paths binary). Qed.

(** ** vectorize.py: polygon area *)

(* polygon area *)
Lemma cyc_rotate (pts : list point) (a : point) : cyc (pts ++ [a]) = cyc (a :: pts).
Proof.
  destruct pts as [|p t]; [reflexivity|].
  unfold cyc. rewrite (chain_snoc _ _ (0, 0)) by discriminate. rewrite last_last.
  change (chain (a :: p :: t)) with (cross a p + chain (p :: t)).
  change (last (a :: p :: t) (0, 0)) with (last (p :: t) (0, 0)).
  simpl hd. ring.
Qed.

(** X17: [polygon_area] changes sign when the points are reversed, does not change under a cyclic rotation of the points, and does not change under a horizontal translation. *)
Theorem polygon_area_symmetries (pts : list point) (a : point) (dx : Z) :
  (Vectorize.polygon_area (rev pts) == - Vectorize.polygon_area pts)%Q /\
  (Vectorize.polygon_area (pts ++ [a]) == Vectorize.polygon_area (a :: pts))%Q /\
  (Vectorize.polygon_area (map (fun q : point => let '(x, y) := q in ((x + dx)%Z, y)) pts) ==
   Vectorize.polygon_area pts)%Q.
Proof.
  unfold Vectorize.polygon_area. split; [|split].
  - rewrite polygon_area_sum_rev. unfold Qeq. simpl. lia.
  - rewrite !polygon_area_sum_cyc, cyc_rotate. reflexivity.
  - rewrite polygon_area_sum_shift. reflexivity.
Qed.

(** X18: [polygon_area] of fewer than 3 points is 0. *)
Theorem polygon_area_degenerate (pts : list point) :
  (length pts < 3)%nat -> (Vectorize.polygon_area pts == 0)%Q.
Proof.
  intros H. unfold Vectorize.polygon_area. rewrite polygon_area_sum_cyc.
  destruct pts as [|p [|q [|r t]]]; simpl in H; try lia; unfold cyc, Qeq; simpl.
  - reflexivity.
  - unfold cross. lia.
  - destruct p as [px py], q as [qx qy]. unfold cross; simpl. lia.
Qed.

(** ** vectorize.py: advance width; preprocess.py: small components *)


(** X19: [calculate_advance_width] is 500 for no contours and non-negative for a non-negative target height; the advance width of [process_glyph_bitmap] is at most that of its contours at the target height ASCENDER - DESCENDER. *)
Theorem calculate_advance_width_bounds (contours : list contour) (bitmap_height target_height : Z) :
  Vectorize.calculate_advance_width [] bitmap_height target_height = 500 /\
  (0 <= target_height -> 0 <= Vectorize.calculate_advance_width contours bitmap_height target_height) /\
  (forall {cv : Cv2} (binary : mask) (hier : list hier_entry),
     findContours_ccomp binary = (contours, Some hier) ->
     Vectorize.advance_width (Vectorize.process_glyph_bitmap binary) <=
     Vectorize.calculate_advance_width contours bitmap_height
       (Vectorize.ASCENDER - Vectorize.DESCENDER)).
Proof.
  split; [reflexivity|]. split.
  - intros Ht. unfold Vectorize.calculate_advance_width.
    destruct contours as [|c cs]; [vm_compute; discriminate|].
    pose proof (bounding_rect_size_nonneg (concat (c :: cs))) as Hs.
    destruct (bounding_rect (concat (c :: cs))) as [[[bx by'] bw] bh].
    destruct Hs as [Hw _].
    set (w := py_round (fl (inject_Z bw * _))).
    assert (H1 : 0 <= w).
    { apply py_round_nonneg, fl_nonneg, Qmult_le_0_compat; [unfold Qle; simpl; lia|].
      apply fl_nonneg, Q_div_nonneg; lia. }
    assert (H2 : 0 <= py_round (fl (inject_Z w * fl (15 # 100)))).
    { apply py_round_nonneg, fl_nonneg, Qmult_le_0_compat; [unfold Qle; simpl; lia|].
      apply fl_nonneg; unfold Qle; simpl; lia. }
    lia.
  - intros cv binary hier Hc. unfold Vectorize.process_glyph_bitmap, Vectorize.calculate_advance_width.
    rewrite Hc. destruct contours as [|c cs]; [reflexivity|].
    pose proof (bounding_rect_size_nonneg (concat (c :: cs))) as Hs.
    destruct (bounding_rect (concat (c :: cs))) as [[[bx by'] bw] bh].
    destruct Hs as [Hw _]. cbn [Vectorize.advance_width].
    set (rw := py_round (fl (inject_Z bw * _))).
    assert (H1 : 0 <= rw).
    { apply py_round_nonneg, fl_nonneg, Qmult_le_0_compat; [unfold Qle; simpl; lia|].
      apply fl_nonneg, Q_div_nonneg; unfold Vectorize.ASCENDER, Vectorize.DESCENDER; lia. }
    assert (H2 : py_round (fl (inject_Z rw * fl (12 # 100))) <=
                 py_round (fl (inject_Z rw * fl (15 # 100)))).
    { assert (Hc12 : (0 <= fl (12 # 100))%Q) by (apply fl_nonneg; unfold Qle; simpl; lia).
      assert (Hcc : (fl (12 # 100) <= fl (15 # 100))%Q)
        by (apply fl_mono; unfold Qle; simpl; lia).
      assert (Hr : (0 <= inject_Z rw)%Q) by (unfold Qle; simpl; lia).
      apply py_round_mono, fl_mono.
      - apply Qmult_le_0_compat; assumption.
      - rewrite !(Qmult_comm (inject_Z rw)). apply Qmult_le_compat_r; assumption. }
    lia.
Qed.

(** X20: [remove_small_components] returns a mask of the shape of its input whose pixels are all 0 or 255. *)
Theorem remove_small_components_binary {cv : Cv2} (binary : mask) (min_area : Z) :
  same_shape (Preprocess.remove_small_components binary min_area) binary /\
  forall r c, px (Preprocess.remove_small_components binary min_area) r c = 0 \/
              px (Preprocess.remove_small_components binary min_area) r c = 255.
Proof.
  unfold Preprocess.remove_small_components.
  destruct (connectedComponents8 binary) as [n labels].
  destruct (remove_small_components_fold binary labels min_area (n - 1)) as [Hs Hpx].
  cbv zeta in Hs, Hpx. split; [exact Hs|].
  intros r c. rewrite Hpx. destruct (_ && _); auto.
Qed.

(** X21: with a correct labelling and min_area at most 1, [remove_small_components] keeps every foreground pixel: it sets each non-zero pixel to 255 and leaves 0 elsewhere. *)
Theorem remove_small_components_min_area_1 {cv : Cv2} (binary : mask) (min_area : Z) :
  Preprocess.labeling_ok binary (fst (connectedComponents8 binary)) (snd (connectedComponents8 binary)) ->
  min_area <= 1 ->
  forall r c, px (Preprocess.remove_small_components binary min_area) r c =
              if px binary r c =? 0 then 0 else 255.
Proof.
  intros Hok Hmin r c. rewrite (remove_small_components_pixel binary min_area r c Hok).
  destruct (Z.eqb_spec (px binary r c) 0) as [E|E]; [reflexivity|].
  destruct Hok as (_ & H1 & _). destruct (H1 r c E) as [Hl _].
  set (labels := snd (connectedComponents8 binary)) in *.
  assert (Hin : In (r, c) (pixels_with_label labels (Preprocess.lab labels r c)))
    by (apply In_pixels_with_label; [exact Hl|reflexivity]).
  rewrite label_area_pixels.
  destruct (pixels_with_label labels (Preprocess.lab labels r c)) as [|p ps]; [destruct Hin|].
  simpl length. replace (Z.of_nat (S (length ps)) >=? min_area) with true; [reflexivity|].
  symmetry. apply Z.geb_le. lia.
Qed.

(** ** segment.py: idempotence of the single-glyph extractor *)

Lemma mask_ext (a b : mask) :
  length a = length b -> (forall r, length (nth r a []) = length (nth r b [])) ->
  (forall r c, px a r c = px b r c) -> a = b.
Proof.
  intros Hl Hr Hp. apply (nth_ext _ _ [] []); [exact Hl|]. intros r _.
  apply (nth_ext _ _ 0 0); [apply Hr|]. intros c _. apply Hp.
Qed.

Lemma bounding_rect_fold_attained (rest : list point) (a b c d : Z) :
  let '(a', b', c', d') :=
    fold_left (fun acc p =>
                 let '(a, b, c, d) := acc in
                 let '(x, y) := p in
                 (Z.min a x, Z.max b x, Z.min c y, Z.max d y)) rest (a, b, c, d) in
  (a' = a \/ exists p, In p rest /\ fst p = a') /\ (b' = b \/ exists p, In p rest /\ fst p = b') /\
  (c' = c \/ exists p, In p rest /\ snd p = c') /\ (d' = d \/ exists p, In p rest /\ snd p = d').
Proof.
  revert a b c d. induction rest as [|[px' py'] rest IH]; intros a b c d; simpl.
  - repeat split; left; reflexivity.
  - specialize (IH (Z.min a px') (Z.max b px') (Z.min c py') (Z.max d py')).
    destruct (fold_left _ rest _) as [[[a' b'] c'] d'].
    destruct IH as (H1 & H2 & H3 & H4).
    repeat split;
      [destruct H1 as [E|(p & Hp & E)] | destruct H2 as [E|(p & Hp & E)]
      |destruct H3 as [E|(p & Hp & E)] | destruct H4 as [E|(p & Hp & E)]];
      try (right; exists p; split; [right; exact Hp|exact E]);
      [destruct (Z.min_spec a px') | destruct (Z.max_spec b px')
      |destruct (Z.min_spec c py') | destruct (Z.max_spec d py')];
      (left; lia) || (right; exists (px', py'); split; [left; reflexivity|simpl; lia]).
Qed.

Lemma bounding_rect_attained (pts : list point) (x y w h : Z) :
  pts <> [] -> bounding_rect pts = (x, y, w, h) ->
  (exists p, In p pts /\ fst p = x) /\ (exists p, In p pts /\ fst p = x + w - 1) /\
  (exists p, In p pts /\ snd p = y) /\ (exists p, In p pts /\ snd p = y + h - 1).
Proof.
  intros Hne. destruct pts as [|[x0 y0] rest]; [congruence|]. unfold bounding_rect.
  pose proof (bounding_rect_fold_attained rest x0 x0 y0 y0) as H.
  destruct (fold_left _ rest _) as [[[a' b'] c'] d'].
  intros Heq. injection Heq as <- <- <- <-.
  destruct H as (H1 & H2 & H3 & H4).
  repeat split;
    [destruct H1 as [E|(p & Hp & E)] | destruct H2 as [E|(p & Hp & E)]
    |destruct H3 as [E|(p & Hp & E)] | destruct H4 as [E|(p & Hp & E)]];
    first [exists (x0, y0); split; [left; reflexivity|simpl; lia]
          |exists p; split; [right; exact Hp|lia]].
Qed.

Lemma bounding_rect_translate (pts : list point) (dx dy : Z) :
  pts <> [] ->
  bounding_rect (map (fun p : point => (fst p + dx, snd p + dy)) pts) =
  let '(x, y, w, h) := bounding_rect pts in (x + dx, y + dy, w, h).
Proof.
  intros Hne. destruct pts as [|[x0 y0] rest]; [congruence|]. clear Hne. unfold bounding_rect. cbn [map fst snd].
  assert (H : forall a b c d,
    fold_left (fun acc p =>
                 let '(a, b, c, d) := acc in
                 let '(x, y) := p in
                 (Z.min a x, Z.max b x, Z.min c y, Z.max d y))
      (map (fun p : point => (fst p + dx, snd p + dy)) rest) (a + dx, b + dx, c + dy, d + dy) =
    let '(a', b', c', d') :=
      fold_left (fun acc p =>
                   let '(a, b, c, d) := acc in
                   let '(x, y) := p in
                   (Z.min a x, Z.max b x, Z.min c y, Z.max d y)) rest (a, b, c, d) in
    (a' + dx, b' + dx, c' + dy, d' + dy)).
  { induction rest as [|[px' py'] rest IH]; intros a b c d; [reflexivity|].
    cbn [map fold_left fst snd].
    rewrite !Z.add_min_distr_r, !Z.add_max_distr_r. apply IH. }
  rewrite H. destruct (fold_left _ rest _) as [[[a1 b1] c1] d1]. f_equal; [f_equal|]; lia.
Qed.

Lemma window_of_fg (m : mask) (x y w h : Z) (p : point) :
  Segment.find_non_zero m <> [] ->
  bounding_rect (Segment.find_non_zero m) = (x, y, w, h) ->
  In p (Segment.find_non_zero (Segment.extract_single_glyph m)) ->
  let size := Z.max w h + 20 in
  (size - w) / 2 <= fst p < (size - w) / 2 + w /\ (size - h) / 2 <= snd p < (size - h) / 2 + h.
Proof.
  intros Hne Hbr Hp size.
  destruct (extract_single_glyph_pixel m x y w h Hne Hbr) as (_ & _ & Hpix).
  apply find_non_zero_sound in Hp as (H1 & H2 & H3). rewrite Hpix in H3.
  destruct (_ && _) eqn:Hw; [|congruence].
  rewrite !andb_true_iff, !Z.leb_le, !Z.ltb_lt in Hw. fold size in Hw. lia.
Qed.

(** X22: [extract_single_glyph] is idempotent: cropping an already cropped glyph changes nothing. *)
Theorem extract_single_glyph_idempotent (m : mask) :
  Segment.extract_single_glyph (Segment.extract_single_glyph m) = Segment.extract_single_glyph m.
Proof.
  destruct (Segment.find_non_zero m) as [|p0 ps] eqn:Ef.
  - assert (Hm : Segment.extract_single_glyph m = m) by (unfold Segment.extract_single_glyph; rewrite Ef; reflexivity).
    rewrite Hm. exact Hm.
  - assert (Hne : Segment.find_non_zero m <> []) by congruence. clear Ef.
    destruct (bounding_rect (Segment.find_non_zero m)) as [[[x y] w] h] eqn:Hbr.
    destruct (find_non_zero_box m x y w h Hne Hbr) as (Hx & Hy & Hw & Hh & _).
    destruct (extract_single_glyph_translation m) as (dx & dy & Hpts & _).
    set (out := Segment.extract_single_glyph m) in *.
    set (T := fun p : point => (fst p + dx, snd p + dy)) in Hpts.
    assert (Hne' : Segment.find_non_zero out <> []).
    { rewrite Hpts. destruct (Segment.find_non_zero m); [contradiction|discriminate]. }
    assert (Hbr' : bounding_rect (Segment.find_non_zero out) = (x + dx, y + dy, w, h)).
    { rewrite Hpts. unfold T. rewrite (bounding_rect_translate _ dx dy Hne), Hbr. reflexivity. }
    set (size := Z.max w h + 20).
    set (ox := (size - w) / 2). set (oy := (size - h) / 2).
    assert (HT : forall p, In p (Segment.find_non_zero m) ->
              ox <= fst p + dx < ox + w /\ oy <= snd p + dy < oy + h).
    { intros p Hp. apply (window_of_fg m x y w h (T p) Hne Hbr). fold out. rewrite Hpts. apply in_map, Hp. }
    destruct (bounding_rect_attained _ x y w h Hne Hbr)
      as ((p1 & Hp1 & E1) & (p2 & Hp2 & E2) & (p3 & Hp3 & E3) & (p4 & Hp4 & E4)).
    pose proof (HT p1 Hp1). pose proof (HT p2 Hp2). pose proof (HT p3 Hp3). pose proof (HT p4 Hp4).
    assert (Ex : x + dx = ox) by lia. assert (Ey : y + dy = oy) by lia.
    rewrite Ex, Ey in Hbr'.
    destruct (extract_single_glyph_pixel out ox oy w h Hne' Hbr') as (L1 & L2 & P1).
    destruct (extract_single_glyph_pixel m x y w h Hne Hbr) as (L1' & L2' & P2).
    fold size in L1, L2, P1, L1', L2', P2. fold ox oy in P1, P2. fold out in L1', L2', P2.
    apply mask_ext.
    + rewrite L1, L1'. reflexivity.
    + intros r. destruct (Nat.lt_ge_cases r (Z.to_nat size)) as [Hr|Hr].
      * rewrite L2, L2' by exact Hr. reflexivity.
      * rewrite !nth_overflow by lia. reflexivity.
    + intros r c. rewrite P1.
      destruct ((oy <=? Z.of_nat r) && (Z.of_nat r <? oy + h) &&
                (ox <=? Z.of_nat c) && (Z.of_nat c <? ox + w)) eqn:Hw'.
      * f_equal; lia.
      * rewrite P2, Hw'. reflexivity.
Qed.

(** ** segment.py: the mapping of boxes to characters *)

Lemma firstn_S_nth {A} (l : list A) (i : nat) (d : A) :
  (i < length l)%nat -> firstn (S i) l = firstn i l ++ [nth i l d].
Proof.
  revert i. induction l as [|a l IH]; intros i Hi; simpl in Hi; [lia|].
  destruct i as [|i]; [reflexivity|]. change (a :: firstn (S i) l = a :: firstn i l ++ [nth i l d]). rewrite IH by lia. reflexivity.
Qed.

Lemma map_blobs_spec (binary : mask) (chars : list ascii) :
  forall bs i results seen,
  (forall x, In x seen <-> In x (firstn i chars)) ->
  forall c bmp,
  In (c, bmp) (Segment.map_blobs binary chars i bs results seen) <->
  In (c, bmp) results \/
  exists k b, (i <= k)%nat /\ nth_error chars k = Some c /\ ~ In c (firstn k chars) /\
              nth_error bs (k - i) = Some b /\ bmp = blob_crop binary b.
Proof.
  induction bs as [|[[[x y] w] h] bs IH]; intros i results seen Hseen c bmp; simpl.
  - split; [tauto|]. intros [H|(k & b & _ & _ & _ & E & _)]; [exact H|].
    destruct (k - i)%nat; discriminate.
  - destruct (Nat.leb_spec (length chars) i) as [Hl|Hl].
    + split; [tauto|]. intros [H|(k & b & Hk & E & _)]; [exact H|].
      assert (Hk2 : nth_error chars k <> None) by congruence. apply nth_error_Some in Hk2. lia.
    + assert (Hsplit : forall P : nat -> Prop,
                (exists k, (i <= k)%nat /\ P k) <-> P i \/ exists k, (S i <= k)%nat /\ P k).
      { intros P. split.
        - intros (k & Hk & Pk). destruct (Nat.eq_dec k i) as [->|Hne]; [left; exact Pk|].
          right. exists k. split; [lia|exact Pk].
        - intros [Pi|(k & Hk & Pk)]; [exists i; split; [lia|exact Pi]|exists k; split; [lia|exact Pk]]. }
      set (ch := nth i chars " "%char).
      assert (Hch : nth_error chars i = Some ch) by (apply nth_error_nth'; exact Hl).
      assert (Hfs : firstn (S i) chars = firstn i chars ++ [ch]) by (apply firstn_S_nth; exact Hl).
      set (cr := crop _ _ _ _ _).
      assert (Hcr : cr = blob_crop binary (x, y, w, h)) by reflexivity.
      assert (Hshift : forall k, (S i <= k)%nat -> nth_error ((x, y, w, h) :: bs) (k - i) = nth_error bs (k - S i)).
      { intros k Hk. replace (k - i)%nat with (S (k - S i)) by lia. reflexivity. }
      destruct (existsb (Ascii.eqb ch) seen) eqn:Ee.
      * apply Ascii_eqb_In, Hseen in Ee.
        rewrite (IH (S i) results seen).
        2:{ intros z. rewrite Hseen, Hfs, in_app_iff. simpl. split; [tauto|]. intros [H|[<-|[]]]; auto. }
        split.
        -- intros [H|(k & b & Hk & H1 & H2 & H3 & H4)]; [left; exact H|right].
           exists k, b. split; [lia|]. split; [exact H1|]. split; [exact H2|]. split; [|exact H4].
           rewrite Hshift by exact Hk. exact H3.
        -- intros [H|(k & b & Hk & H1 & H2 & H3 & H4)]; [left; exact H|right].
           destruct (Nat.eq_dec k i) as [->|Hne].
           ++ rewrite Hch in H1. injection H1 as <-. contradiction.
           ++ exists k, b. split; [lia|]. split; [exact H1|]. split; [exact H2|]. split; [|exact H4].
              rewrite <- Hshift by lia. exact H3.
      * apply not_true_iff_false in Ee. rewrite Ascii_eqb_In, Hseen in Ee.
        rewrite (IH (S i) (results ++ [(ch, cr)]) (seen ++ [ch])).
        2:{ intros z. rewrite in_app_iff, Hseen, Hfs, in_app_iff. reflexivity. }
        rewrite in_app_iff. simpl. split.
        -- intros [[H|[E|[]]]|(k & b & Hk & H1 & H2 & H3 & H4)]; [left; exact H| |].
           ++ injection E as <- <-. right. exists i, (x, y, w, h). rewrite Nat.sub_diag.
              split; [lia|]. split; [exact Hch|]. split; [exact Ee|]. split; [reflexivity|exact Hcr].
           ++ right. exists k, b. split; [lia|]. split; [exact H1|]. split; [exact H2|]. split; [|exact H4].
              rewrite Hshift by exact Hk. exact H3.
        -- intros [H|(k & b & Hk & H1 & H2 & H3 & H4)]; [left; left; exact H|].
           destruct (Nat.eq_dec k i) as [->|Hne].
           ++ rewrite Nat.sub_diag in H3. injection H3 as <-. rewrite Hch in H1. injection H1 as <-.
              left; right; left. rewrite H4, Hcr. reflexivity.
           ++ right. exists k, b. split; [lia|]. split; [exact H1|]. split; [exact H2|]. split; [|exact H4].
              rewrite <- Hshift by lia. exact H3.
Qed.

(** X7: when [segment_characters] succeeds, a pair (c, bmp) is in its result exactly when c first occurs at some position k of the lowercased pangram letters and bmp is the crop, with a margin of 4 pixels clipped to the image, of the k-th box of the sorted merged boxes. *)
Theorem segment_characters_mapping {cv : Cv2} (binary : mask) (pangram : string)
    (pairs : list (ascii * mask)) :
  Segment.segment_characters binary pangram = Ok pairs ->
  let bboxes := filter (fun b : Segment.box => (Segment.bx_w b >? 5) && (Segment.bx_h b >? 5))
                       (map bounding_rect (findContours_external binary)) in
  let sorted := Segment.sort_reading_order (Segment.merge_close_bboxes bboxes) in
  let chars := Segment.pangram_chars pangram in
  forall c bmp, In (c, bmp) pairs <->
    exists k b, nth_error chars k = Some c /\ ~ In c (firstn k chars) /\
                nth_error sorted k = Some b /\ bmp = blob_crop binary b.
Proof.
  intros H bboxes sorted chars c bmp. unfold Segment.segment_characters in H.
  destruct (findContours_external binary) as [|c0 cs]; [discriminate|].
  fold bboxes in H. destruct bboxes as [|b0 bs] eqn:Eb; [discriminate|].
  injection H as <-. fold chars.
  rewrite (map_blobs_spec binary chars _ 0 [] [] (fun x => conj (fun H => H) (fun H => H)) c bmp).
  simpl. split.
  - intros [[]|(k & b & _ & H1 & H2 & H3 & H4)]. exists k, b. rewrite Nat.sub_0_r in H3. auto.
  - intros (k & b & H1 & H2 & H3 & H4). right. exists k, b. rewrite Nat.sub_0_r. repeat split; auto. lia.
Qed.

(** ** segment.py: merging when no box is small *)

Lemma map_snd_insert_by {A B} (key : B -> Z) (a : A * B) (l : list (A * B)) :
  map snd (insert_by (fun t => key (snd t)) a l) = insert_by key (snd a) (map snd l).
Proof.
  induction l as [|b l IH]; simpl; [reflexivity|].
  destruct (key (snd a) <=? key (snd b)); simpl; [reflexivity|]. rewrite IH. reflexivity.
Qed.

Lemma map_snd_sort_by {A B} (key : B -> Z) (l : list (A * B)) :
  map snd (sort_by (fun t => key (snd t)) l) = sort_by key (map snd l).
Proof. induction l as [|a l IH]; simpl; [reflexivity|]. rewrite map_snd_insert_by, IH. reflexivity. Qed.

Lemma map_snd_combine {A B} (l1 : list A) (l2 : list B) :
  length l1 = length l2 -> map snd (combine l1 l2) = l2.
Proof.
  revert l2. induction l1 as [|a l1 IH]; intros [|b l2] H; simpl in *; try lia; [reflexivity|].
  rewrite IH by lia. reflexivity.
Qed.

Lemma map_fst_combine {A B} (l1 : list A) (l2 : list B) :
  length l1 = length l2 -> map fst (combine l1 l2) = l1.
Proof.
  revert l2. induction l1 as [|a l1 IH]; intros [|b l2] H; simpl in *; try lia; [reflexivity|].
  rewrite IH by lia. reflexivity.
Qed.

Lemma indexed_by_y_snd (boxes : list Segment.box) :
  map snd (Segment.indexed_by_y boxes) = sort_by Segment.bx_y boxes.
Proof.
  unfold Segment.indexed_by_y. rewrite (map_snd_sort_by Segment.bx_y).
  rewrite map_snd_combine by apply length_seq. reflexivity.
Qed.

Lemma indexed_by_y_NoDup (boxes : list Segment.box) : NoDup (map fst (Segment.indexed_by_y boxes)).
Proof.
  unfold Segment.indexed_by_y.
  apply (Permutation_NoDup (Permutation_map fst (Permutation_sym (sort_by_perm _ _)))).
  rewrite map_fst_combine by apply length_seq. apply seq_NoDup.
Qed.

(** X4: when no box is small (height and width both below 0.4 times the median height), [merge_close_bboxes] merges nothing and returns the boxes in the (stable) order of their y coordinate. *)
Theorem merge_close_bboxes_no_small (boxes : list Segment.box) :
  (forall b, In b boxes -> ~ small_box (Segment.median (map Segment.bx_h boxes)) b) ->
  Segment.merge_close_bboxes boxes = sort_by Segment.bx_y boxes.
Proof.
  intros Hns. destruct boxes as [|b0 bs]; [reflexivity|].
  set (boxes := b0 :: bs) in *.
  assert (Hne : Segment.indexed_by_y boxes <> []).
  { intros E. pose proof (indexed_by_y_snd boxes) as H. rewrite E in H.
    pose proof (sort_by_perm Segment.bx_y boxes) as P. rewrite <- H in P.
    apply Permutation_nil in P. discriminate. }
  rewrite (merge_close_bboxes_fold boxes Hne), <- indexed_by_y_snd.
  set (med := Segment.median (map Segment.bx_h boxes)) in *.
  assert (Hgen : forall l done,
    NoDup (map fst (done ++ l)) ->
    (forall ib, In ib l -> In ib (Segment.indexed_by_y boxes)) ->
    fold_left (Segment.merge_step boxes med (Segment.indexed_by_y boxes)) l
      (map snd done, rev (map fst done)) = (map snd (done ++ l), rev (map fst (done ++ l)))).
  { induction l as [|[i b1] l IH]; intros done Hnd Hl; cbn [fold_left]; [rewrite app_nil_r; reflexivity|].
    assert (Hin : In (i, b1) (Segment.indexed_by_y boxes)) by (apply Hl; left; reflexivity).
    pose proof (merge_step_spec boxes med (map snd done) (rev (map fst done)) i b1 Hin) as Hs.
    assert (Hni : ~ In i (rev (map fst done))).
    { rewrite <- in_rev. rewrite map_app in Hnd. simpl in Hnd.
      apply NoDup_remove_2 in Hnd. rewrite in_app_iff in Hnd. tauto. }
    assert (Hb1 : In b1 boxes).
    { rewrite <- (In_indexed_by_y boxes i b1 Hin). apply nth_In.
      pose proof (Permutation_in _ (sort_by_perm _ _) Hin) as H.
      apply in_combine_l, in_seq in H. lia. }
    destruct Hs as [[Hu _]|[(_ & j & b2 & _ & Hsm & _)|(_ & _ & E)]];
      [contradiction|exfalso; exact (Hns b1 Hb1 Hsm)|].
    rewrite E.
    replace (map snd done ++ [b1]) with (map snd (done ++ [(i, b1)])) by (rewrite map_app; reflexivity).
    replace (i :: rev (map fst done)) with (rev (map fst (done ++ [(i, b1)])))
      by (rewrite map_app, rev_app_distr; reflexivity).
    replace (done ++ (i, b1) :: l) with ((done ++ [(i, b1)]) ++ l) by (rewrite <- app_assoc; reflexivity).
    apply IH; [rewrite <- app_assoc; exact Hnd|intros; apply Hl; right; assumption]. }
  pose proof (Hgen (Segment.indexed_by_y boxes) [] (indexed_by_y_NoDup boxes) (fun ib H => H)) as H.
  simpl in H. rewrite H. reflexivity.
Qed.

(** * Concrete instances of the hypotheses of the theorems above *)

Ltac solve_ascii :=
  unfold ascii_string, ascii_char; cbn;
  repeat (apply Forall_cons; [cbn; lia|]); apply Forall_nil.

Lemma segment_min_dimension_filter_witness :
  let cv := fixed_cv ([], None) [[(0, 0); (5, 0); (5, 5); (0, 5)]] (0%nat, []) in
  @findContours_external cv [] <> [] /\
  ((@Segment.segment_characters cv [] "a" = Err NoValidRegions <->
    Forall (fun c => Segment.bx_w (bounding_rect c) <= 5 \/
                     Segment.bx_h (bounding_rect c) <= 5)
           (@findContours_external cv [])) /\
   (forall c, @findContours_external cv [] = [c] ->
      Segment.bx_w (bounding_rect c) = 6 -> Segment.bx_h (bounding_rect c) = 6 ->
      exists pairs, @Segment.segment_characters cv [] "a" = Ok pairs)).
Proof.
  intros cv. split.
  - discriminate.
  - apply (segment_min_dimension_filter (cv := cv) [] "a"). discriminate.
Defined.

Lemma process_glyph_bitmap_metrics_witness :
  let cv := fixed_cv ([[(0, 0); (14, 0); (14, 239)]], Some [(-1, -1, -1, -1)]) [] (0%nat, []) in
  @findContours_ccomp cv [] = ([[(0, 0); (14, 0); (14, 239)]], Some [(-1, -1, -1, -1)]) /\
  [[(0, 0); (14, 0); (14, 239)]] <> ([] : list contour) /\
  (let '(_, _, bw, bh) := bounding_rect (concat [[(0, 0); (14, 0); (14, 239)]]) in
   let raw_width := py_round (fl (inject_Z bw * fl (inject_Z 1000 / inject_Z (Z.max bh 1)))) in
   let g := @Vectorize.process_glyph_bitmap cv [] in
   Vectorize.lsb g = py_round (fl (inject_Z raw_width * fl (12 # 100))) /\
   Vectorize.advance_width g = raw_width + 2 * Vectorize.lsb g /\
   raw_width <= Vectorize.advance_width g /\
   0 <= Vectorize.lsb g).
Proof.
  intros cv. split; [reflexivity|split; [discriminate|]].
  exact (process_glyph_bitmap_metrics (cv := cv) [] _ [(-1, -1, -1, -1)] eq_refl
           ltac:(discriminate)).
Defined.

Lemma process_glyph_bitmap_deterministic_witness :
  let cv := fixed_cv ([[(0, 0); (2, 0); (2, 2)]], Some [(-1, -1, -1, -1)]) [] (0%nat, []) in
  @findContours_ccomp cv [[255]] = @findContours_ccomp cv [[255]] /\
  (@Vectorize.process_glyph_bitmap cv [[255]] = @Vectorize.process_glyph_bitmap cv [[255]] /\
   Vectorize.paths (@Vectorize.process_glyph_bitmap cv [[255]]) =
     Vectorize.paths (@Vectorize.process_glyph_bitmap cv [[255]]) /\
   Vectorize.advance_width (@Vectorize.process_glyph_bitmap cv [[255]]) =
     Vectorize.advance_width (@Vectorize.process_glyph_bitmap cv [[255]]) /\
   Vectorize.lsb (@Vectorize.process_glyph_bitmap cv [[255]]) =
     Vectorize.lsb (@Vectorize.process_glyph_bitmap cv [[255]])).
Proof.
  intros cv. split; [reflexivity|].
  apply (process_glyph_bitmap_deterministic (cv := cv) [[255]] [[255]]). reflexivity.
Defined.

Lemma create_font_cmap_upper_same_glyph_witness :
  let glyphs := [("a"%char, Vectorize.mkGlyph [] 500 0); ("A"%char, Vectorize.mkGlyph [] 500 0)] in
  Forall ascii_char (map fst glyphs) /\
  (let cm := Fontgen.cmap (snd (fst (Fontgen.create_font glyphs "F" "R"))) in
   (forall k, Fontgen.dict_get cm k =
      match cmap_owner (map fst glyphs) k with
      | Some c => Some (Fontgen.glyph_name c)
      | None => if k =? 32 then Some "space"%string else None
      end) /\
   (Forall (fun c => is_upper c = false /\ c <> " "%char) (map fst glyphs) ->
    Fontgen.dict_get cm (ord " "%char) = Some "space"%string /\
    forall c, In c (map fst glyphs) ->
      Fontgen.dict_get cm (ord c) = Some (Fontgen.glyph_name c) /\
      (is_lower c = true ->
       Fontgen.dict_get cm (ord (to_upper c)) = Fontgen.dict_get cm (ord c)))).
Proof.
  intros glyphs.
  assert (H : Forall ascii_char (map fst glyphs)).
  { repeat (apply Forall_cons; [unfold ascii_char; cbn; lia|]); apply Forall_nil. }
  split; [exact H|].
  exact (create_font_cmap_upper_same_glyph glyphs "F" "R" H).
Defined.

Lemma process_glyph_bitmap_winding_witness :
  let cv := fixed_cv ([[(0, 0); (2, 0); (2, 2)]], Some [(-1, -1, -1, -1)]) [] (0%nat, []) in
  let p := hd (Vectorize.mkPath [] false) (Vectorize.paths (@Vectorize.process_glyph_bitmap cv [])) in
  In p (Vectorize.paths (@Vectorize.process_glyph_bitmap cv [])) /\
  (Vectorize.is_hole p = false -> (Vectorize.polygon_area (Vectorize.points p) <= 0)%Q) /\
  (Vectorize.is_hole p = true -> (0 <= Vectorize.polygon_area (Vectorize.points p))%Q).
Proof.
  intros cv p. split.
  - vm_compute. left. reflexivity.
  - apply (process_glyph_bitmap_winding (cv := cv) [] p). vm_compute. left. reflexivity.
Defined.

Lemma extract_single_glyph_spec_witness :
  let m := [[0; 0; 0]; [0; 7; 0]] in
  (exists r c, px m r c <> 0) /\
  bounding_rect (Segment.find_non_zero m) = (1, 1, 1, 1) /\
  length (Segment.extract_single_glyph m) = 21%nat.
Proof.
  intros m.
  assert (Hx : exists r c, px m r c <> 0) by (exists 1%nat, 1%nat; vm_compute; discriminate).
  assert (Hb : bounding_rect (Segment.find_non_zero m) = (1, 1, 1, 1)) by (vm_compute; reflexivity).
  split; [exact Hx|]. split; [exact Hb|].
  destruct (proj2 (extract_single_glyph_spec m) 1 1 1 1 Hx Hb) as (_ & Hl & _).
  exact Hl.
Defined.

Lemma preprocess_no_small_components_witness :
  let cv : Cv2 := {|
    cvtColor_gray := fun _ => [[255]];
    gaussianBlur_5 := fun m => m;
    adaptiveThreshold_inv := fun m => m;
    morphClose_3 := fun m => m;
    connectedComponents8 := fun _ => (2%nat, [[1%nat]]);
    findContours_ccomp := fun _ => ([], None);
    findContours_external := fun _ => [];
    approxPolyDP := fun c _ _ => c |} in
  Preprocess.labeling_ok [[255]] 2 [[1%nat]] /\
  forall p, Preprocess.fg (@Preprocess.preprocess cv [[(0, 0, 0)]]) p ->
    Preprocess.component_area_ge (@Preprocess.preprocess cv [[(0, 0, 0)]]) p 50.
Proof.
  intros cv.
  assert (Hsingle : forall p, Preprocess.fg [[255]] p -> p = (0%nat, 0%nat)).
  { intros [r c] Hp. unfold Preprocess.fg in Hp. simpl in Hp.
    destruct r as [|[|r]]; destruct c as [|[|c]]; cbv in Hp; try reflexivity; congruence. }
  assert (Hok : Preprocess.labeling_ok [[255]] 2 [[1%nat]]).
  { split; [|split].
    - intros r c Hz. destruct r as [|[|r]]; destruct c as [|[|c]]; cbv in Hz |- *; congruence.
    - intros r c Hz. injection (Hsingle (r, c) Hz) as -> ->. unfold Preprocess.lab. simpl. lia.
    - intros p q Hp Hq. rewrite (Hsingle p Hp), (Hsingle q Hq). split; [|reflexivity].
      intros _. apply Preprocess.reach_refl. rewrite <- (Hsingle p Hp). exact Hp. }
  split; [exact Hok|].
  exact (proj1 (@preprocess_no_small_components cv [[(0, 0, 0)]] Hok)).
Defined.

Lemma merge_close_bboxes_covers_witness :
  let boxes : list Segment.box := [(0, 20, 10, 30); (12, 10, 4, 4)] in
  In (12, 10, 4, 4) boxes /\
  exists B, In B (Segment.merge_close_bboxes boxes) /\ box_within (12, 10, 4, 4) B.
Proof.
  intros boxes.
  assert (H : In (12, 10, 4, 4) boxes) by (right; left; reflexivity).
  split; [exact H|].
  exact (merge_close_bboxes_covers boxes (12, 10, 4, 4) H).
Defined.

Lemma merge_close_bboxes_no_small_witness :
  let boxes : list Segment.box := [(0, 0, 10, 10); (20, 5, 10, 10)] in
  (forall b, In b boxes -> ~ small_box (Segment.median (map Segment.bx_h boxes)) b) /\
  Segment.merge_close_bboxes boxes = sort_by Segment.bx_y boxes.
Proof.
  intros boxes.
  assert (H : forall b, In b boxes -> ~ small_box (Segment.median (map Segment.bx_h boxes)) b).
  { intros b [<-|[<-|[]]]; unfold small_box; vm_compute; intros [Hh _]; discriminate Hh. }
  split; [exact H|].
  exact (merge_close_bboxes_no_small boxes H).
Defined.

Lemma segment_characters_distinct_chars_witness :
  let cv := fixed_cv ([], None) [[(0, 0); (5, 0); (5, 5); (0, 5)]] (0%nat, []) in
  let pairs := [("a"%char, [[0; 0]; [0; 255]])] in
  ascii_string "ab" /\
  @Segment.segment_characters cv [[0; 0]; [0; 255]] "ab" = Ok pairs /\
  NoDup (map fst pairs) /\
  (forall c, In c (map fst pairs) -> In c (Pangrams.get_unique_chars "ab")) /\
  (length pairs <= length (Pangrams.get_unique_chars "ab"))%nat.
Proof.
  intros cv pairs.
  assert (Ha : ascii_string "ab") by solve_ascii.
  assert (H : @Segment.segment_characters cv [[0; 0]; [0; 255]] "ab" = Ok pairs)
    by (vm_compute; reflexivity).
  split; [exact Ha|]. split; [exact H|].
  exact (segment_characters_distinct_chars (cv := cv) [[0; 0]; [0; 255]] "ab" pairs Ha H).
Defined.

Lemma get_unique_chars_spec_witness :
  ascii_string "The quick brown fox" /\
  NoDup (Pangrams.get_unique_chars "The quick brown fox") /\
  Forall (fun c => is_lower c = true) (Pangrams.get_unique_chars "The quick brown fox") /\
  (forall c, In c (Pangrams.get_unique_chars "The quick brown fox") <->
             In c (Segment.pangram_chars "The quick brown fox")).
Proof.
  assert (Ha : ascii_string "The quick brown fox") by solve_ascii.
  split; [exact Ha|]. exact (get_unique_chars_spec "The quick brown fox" Ha).
Defined.

Lemma process_drawn_glyphs_400_witness :
  let cv := fixed_cv ([], None) [] (0%nat, []) in
  let prep := fun _ : string => @None mask in
  let form := [("name"%string, "x"%string); ("char_1"%string, "y"%string)] in
  Forall (fun kv => ascii_string (fst kv)) form /\
  (@Main.process_drawn_glyphs cv prep form = Main.HttpError 400 <->
   Forall (fun kv => Main.drawn_char_of_key (fst kv) = None) form).
Proof.
  intros cv prep form.
  assert (Ha : Forall (fun kv => ascii_string (fst kv)) form)
    by (repeat (apply Forall_cons; [solve_ascii|]); apply Forall_nil).
  split; [exact Ha|]. exact (process_drawn_glyphs_400 (cv := cv) prep form Ha).
Defined.

Lemma process_drawn_glyphs_response_witness :
  let cv := fixed_cv ([], None) [] (0%nat, []) in
  let prep := fun _ : string => @None mask in
  let form := [("char_a"%string, "x"%string); ("char_a"%string, "y"%string)] in
  Forall (fun kv => ascii_string (fst kv)) form /\
  ((@Main.process_drawn_glyphs cv prep form = Main.Uncaught <->
    Exists (fun kv => Main.drawn_char_of_key (fst kv) <> None /\ prep (snd kv) = None)
           (Main.form_dict form)) /\
   (forall ttf woff2 found total,
      @Main.process_drawn_glyphs cv prep form = Main.FontResponse ttf woff2 found total ->
      NoDup found /\ total = length found /\ Forall (fun c => is_lower c = true) found /\
      forall c, In c found <-> exists key data, In (key, data) form /\ Main.drawn_char_of_key key = Some c)).
Proof.
  intros cv prep form.
  assert (Ha : Forall (fun kv => ascii_string (fst kv)) form)
    by (repeat (apply Forall_cons; [solve_ascii|]); apply Forall_nil).
  split; [exact Ha|]. exact (process_drawn_glyphs_response (cv := cv) prep form Ha).
Defined.

Lemma process_pangram_response_witness :
  let cv := fixed_cv ([], None) [[(0, 0); (5, 0); (5, 5); (0, 5)]] (0%nat, []) in
  let img : image := [[(0, 0, 0)]] in
  ascii_string "ab" /\
  (let seg := @Segment.segment_characters cv (@Preprocess.preprocess cv img) "ab" in
   (forall code, @Main.process_pangram cv img "ab" = Main.HttpError code -> code = 422 \/ code = 500) /\
   @Main.process_pangram cv img "ab" <> Main.Uncaught /\
   (@Main.process_pangram cv img "ab" = Main.HttpError 422 <-> (exists e, seg = Err e) \/ seg = Ok []) /\
   (forall ttf woff2 found total,
      @Main.process_pangram cv img "ab" = Main.FontResponse ttf woff2 found total ->
      exists pairs, seg = Ok pairs /\ found = map fst pairs /\ total = length found /\
      NoDup found /\ incl found (Pangrams.get_unique_chars "ab"))).
Proof.
  intros cv img.
  assert (Ha : ascii_string "ab") by solve_ascii.
  split; [exact Ha|]. exact (process_pangram_response (cv := cv) img "ab" Ha).
Defined.

Lemma segment_characters_mapping_witness :
  let cv := fixed_cv ([], None) [[(0, 0); (5, 0); (5, 5); (0, 5)]] (0%nat, []) in
  let binary := [[0; 0]; [0; 255]] in
  let pairs := [("a"%char, [[0; 0]; [0; 255]])] in
  @Segment.segment_characters cv binary "ab" = Ok pairs /\
  (let bboxes := filter (fun b : Segment.box => (Segment.bx_w b >? 5) && (Segment.bx_h b >? 5))
                        (map bounding_rect (@findContours_external cv binary)) in
   let sorted := Segment.sort_reading_order (Segment.merge_close_bboxes bboxes) in
   let chars := Segment.pangram_chars "ab" in
   forall c bmp, In (c, bmp) pairs <->
     exists k b, nth_error chars k = Some c /\ ~ In c (firstn k chars) /\
                 nth_error sorted k = Some b /\ bmp = blob_crop binary b).
Proof.
  intros cv binary pairs.
  assert (H : @Segment.segment_characters cv binary "ab" = Ok pairs)
    by (vm_compute; reflexivity).
  split; [exact H|].
  exact (segment_characters_mapping (cv := cv) binary "ab" pairs H).
Defined.

Lemma create_font_cmap_targets_witness :
  let glyphs := [("a"%char, Vectorize.mkGlyph [] 500 0)] in
  let f := snd (fst (Fontgen.create_font glyphs "F" "R")) in
  In (65, "uni0061"%string) (Fontgen.cmap f) /\
  ("uni0061"%string = "space"%string \/
   exists c, In c (map fst glyphs) /\ "uni0061"%string = Fontgen.glyph_name c /\
             In "uni0061"%string (Fontgen.glyph_order f)).
Proof.
  intros glyphs f.
  assert (H : In (65, "uni0061"%string) (Fontgen.cmap f)) by (vm_compute; right; right; left; reflexivity).
  split; [exact H|].
  exact (create_font_cmap_targets glyphs "F" "R" 65 "uni0061" H).
Defined.

Lemma polygon_area_degenerate_witness :
  let pts : list point := [(0, 0); (3, 4)] in
  (length pts < 3)%nat /\ (Vectorize.polygon_area pts == 0)%Q.
Proof.
  intros pts.
  assert (H : (length pts < 3)%nat) by (simpl; lia).
  split; [exact H|].
  exact (polygon_area_degenerate pts H).
Defined.

Lemma remove_small_components_min_area_1_witness :
  let cv := fixed_cv ([], None) [] (2%nat, [[1%nat]]) in
  Preprocess.labeling_ok [[255]] (fst (@connectedComponents8 cv [[255]]))
                         (snd (@connectedComponents8 cv [[255]])) /\
  1 <= 1 /\
  forall r c, px (@Preprocess.remove_small_components cv [[255]] 1) r c =
              if px [[255]] r c =? 0 then 0 else 255.
Proof.
  intros cv.
  assert (Hsingle : forall p, Preprocess.fg [[255]] p -> p = (0%nat, 0%nat)).
  { intros [r c] Hp. unfold Preprocess.fg in Hp. simpl in Hp.
    destruct r as [|[|r]]; destruct c as [|[|c]]; cbv in Hp; try reflexivity; congruence. }
  assert (Hok : Preprocess.labeling_ok [[255]] (fst (@connectedComponents8 cv [[255]]))
                                       (snd (@connectedComponents8 cv [[255]]))).
  { simpl. split; [|split].
    - intros r c Hz. destruct r as [|[|r]]; destruct c as [|[|c]]; cbv in Hz |- *; congruence.
    - intros r c Hz. injection (Hsingle (r, c) Hz) as -> ->. unfold Preprocess.lab. simpl. lia.
    - intros p q Hp Hq. rewrite (Hsingle p Hp), (Hsingle q Hq). split; [|reflexivity].
      intros _. apply Preprocess.reach_refl. rewrite <- (Hsingle p Hp). exact Hp. }
  assert (Hm : 1 <= 1) by lia.
  split; [exact Hok|]. split; [exact Hm|].
  exact (remove_small_components_min_area_1 (cv := cv) [[255]] 1 Hok Hm).
Defined.
